(** * yunify_k8s: the cluster-creation orchestrator (package [app])

    A shallow embedding of [RunCreate]/[runCreate] and its helpers, of the
    preset catalog of package [api], and of the parts of Go's [strings],
    [unicode] and [unicode/utf8] packages that [GetKubeJoinFromOutput]
    relies on.

    - Go strings are byte sequences: [string] (a list of [ascii] bytes).
    - Go [int] indices are [Z]; a failed bounds check is a [runtime_panic].
    - A Go pointer to an instance is an [option Instance], [None] being
      nil; reading a field through [None] is the panic
      [NilPointerDereference].
    - Calls to collaborators (tag, key and instance services, the remote
      shell, the local file system, klog) are the actions of a small free
      monad [Prog]; [run] interprets them with an arbitrary stateful
      handler and records the trace of calls with their answers.
    - The two provisioning goroutines are sequences of atomic steps on the
      shared variables [errs], [machines], [master] and [nodes]; the
      interleaving is chosen by a schedule. *)

From Stdlib Require Import String Ascii List ZArith NArith Bool Lia.
Import ListNotations.
Open Scope string_scope.
Open Scope list_scope.

(** Go's [+] on strings. *)
Infix "+++" := String.append (right associativity, at level 60) : string_scope.

(** ** Run-time panics of the Go runtime that the code can raise. *)
Inductive runtime_panic : Type :=
| SliceBoundsOutOfRange (low : Z)            (* slice bounds out of range [low:] *)
| IndexOutOfRange (index : Z) (length : Z)   (* index out of range [i] with length n *)
| NilPointerDereference.                     (* invalid memory address or nil pointer dereference *)

(** ** Byte strings *)
Module bytes.

Definition byte_val (c : ascii) : N := N_of_ascii c.

Fixpoint drop (n : nat) (s : string) : string :=
  match n, s with
  | O, _ => s
  | S _, EmptyString => EmptyString
  | S k, String _ r => drop k r
  end.

Fixpoint take (n : nat) (s : string) : string :=
  match n, s with
  | O, _ => EmptyString
  | S _, EmptyString => EmptyString
  | S k, String c r => String c (take k r)
  end.

Definition nl : string := String (ascii_of_nat 10) "".

(** [s[i]] for an index in range; 0 stands for the bytes never read. *)
Definition at_ (s : string) (i : Z) : N :=
  if (i <? 0)%Z then 0%N
  else match String.get (Z.to_nat i) s with
       | Some c => byte_val c
       | None => 0%N
       end.

Definition len (s : string) : Z := Z.of_nat (String.length s).

(** [Forall] on the bytes of a string. *)
Fixpoint all (P : N -> Prop) (s : string) : Prop :=
  match s with
  | EmptyString => True
  | String c r => P (byte_val c) /\ all P r
  end.

(** [sub] occurs in [s] at byte offset [i]. *)
Definition occurs_at (sub s : string) (i : nat) : Prop :=
  exists u v, s = u +++ sub +++ v /\ String.length u = i.

Definition occurs (sub s : string) : Prop := exists i, occurs_at sub s i.

End bytes.

(** ** Package unicode/utf8 *)
Module utf8.
Import bytes.
Open Scope N_scope.

Definition RuneError : N := 0xFFFD.
Definition RuneSelf : N := 0x80.
Definition UTFMax : Z := 4.

(** An entry of the table [first]: [as], [xx], or a size with the
    accept range of the second byte. *)
Inductive first_entry : Type :=
| as_ascii
| xx_invalid
| lead (size : nat) (lo hi : N).

Definition first (b : N) : first_entry :=
  if b <? 0x80 then as_ascii
  else if b <? 0xC2 then xx_invalid
  else if b <=? 0xDF then lead 2 0x80 0xBF      (* s1 *)
  else if b =? 0xE0 then lead 3 0xA0 0xBF       (* s2 *)
  else if b <=? 0xEC then lead 3 0x80 0xBF      (* s3 *)
  else if b =? 0xED then lead 3 0x80 0x9F       (* s4 *)
  else if b <=? 0xEF then lead 3 0x80 0xBF      (* s3 *)
  else if b =? 0xF0 then lead 4 0x90 0xBF       (* s5 *)
  else if b <=? 0xF3 then lead 4 0x80 0xBF      (* s6 *)
  else if b =? 0xF4 then lead 4 0x80 0x8F       (* s7 *)
  else xx_invalid.

Definition locb : N := 0x80.
Definition hicb : N := 0xBF.
Definition maskx : N := 0x3F.
Definition mask2 : N := 0x1F.
Definition mask3 : N := 0x0F.
Definition mask4 : N := 0x07.

(** [utf8.DecodeRuneInString]: the first rune of [s] and its width. *)
Definition DecodeRuneInString (s : string) : N * nat :=
  match s with
  | EmptyString => (RuneError, 0%nat)
  | String c0 t0 =>
    let s0 := byte_val c0 in
    match first s0 with
    | as_ascii => (s0, 1%nat)
    | xx_invalid => (RuneError, 1%nat)
    | lead sz lo hi =>
      if (String.length s <? sz)%nat then (RuneError, 1%nat) else
      match t0 with
      | EmptyString => (RuneError, 1%nat)
      | String c1 t1 =>
        let s1 := byte_val c1 in
        if (s1 <? lo) || (hi <? s1) then (RuneError, 1%nat) else
        if (sz <=? 2)%nat
        then (N.lor (N.shiftl (N.land s0 mask2) 6) (N.land s1 maskx), 2%nat)
        else
        match t1 with
        | EmptyString => (RuneError, 1%nat)
        | String c2 t2 =>
          let s2 := byte_val c2 in
          if (s2 <? locb) || (hicb <? s2) then (RuneError, 1%nat) else
          if (sz <=? 3)%nat
          then (N.lor (N.lor (N.shiftl (N.land s0 mask3) 12)
                             (N.shiftl (N.land s1 maskx) 6))
                      (N.land s2 maskx), 3%nat)
          else
          match t2 with
          | EmptyString => (RuneError, 1%nat)
          | String c3 _ =>
            let s3 := byte_val c3 in
            if (s3 <? locb) || (hicb <? s3) then (RuneError, 1%nat) else
            (N.lor (N.lor (N.lor (N.shiftl (N.land s0 mask4) 18)
                                 (N.shiftl (N.land s1 maskx) 12))
                          (N.shiftl (N.land s2 maskx) 6))
                   (N.land s3 maskx), 4%nat)
          end
        end
      end
    end
  end.

(** [utf8.RuneStart]: not a continuation byte. *)
Definition RuneStart (b : N) : bool := negb (N.land b 0xC0 =? 0x80).

(** The backwards scan of [DecodeLastRuneInString]:
    [for start--; start >= lim; start-- { if RuneStart(s[start]) { break } }],
    entered with [start = end - 2]; [trips] is the number of indices
    between [lim] and the entry value of [start]. *)
Fixpoint scan_back (s : string) (trips : nat) (start : Z) : Z :=
  match trips with
  | O => start
  | S k => if RuneStart (at_ s start) then start
           else scan_back s k (start - 1)%Z
  end.

(** [utf8.DecodeLastRuneInString]: the last rune of [s] and its width. *)
Definition DecodeLastRuneInString (s : string) : N * nat :=
  let end_ := len s in
  if (end_ =? 0)%Z then (RuneError, 0%nat) else
  let start := (end_ - 1)%Z in
  let r := at_ s start in
  if r <? RuneSelf then (r, 1%nat) else
  let lim := (if (end_ - UTFMax <? 0)%Z then 0 else end_ - UTFMax)%Z in
  let start := scan_back s (Z.to_nat (start - lim)) (start - 1)%Z in
  let start := (if (start <? 0)%Z then 0 else start)%Z in
  let '(r, size) := DecodeRuneInString (drop (Z.to_nat start) s) in
  if (start + Z.of_nat size =? end_)%Z then (r, size) else (RuneError, 1%nat).

End utf8.

(** ** Package unicode *)
Module unicode.
Open Scope N_scope.

Definition MaxLatin1 : N := 0xFF.

(** The ranges of [unicode.White_Space] above Latin-1. *)
Definition White_Space_above_Latin1 (r : N) : bool :=
  (r =? 0x1680) || ((0x2000 <=? r) && (r <=? 0x200A))
  || ((0x2028 <=? r) && (r <=? 0x2029)) || (r =? 0x202F)
  || (r =? 0x205F) || (r =? 0x3000).

Definition IsSpace (r : N) : bool :=
  if r <=? MaxLatin1
  then (r =? 9) || (r =? 10) || (r =? 11) || (r =? 12) || (r =? 13)
       || (r =? 32) || (r =? 0x85) || (r =? 0xA0)
  else White_Space_above_Latin1 r.

End unicode.

(** ** Package strings *)
Module strings.
Import bytes.

(** The table [asciiSpace]. *)
Definition asciiSpace (c : N) : bool :=
  ((c =? 9) || (c =? 10) || (c =? 11) || (c =? 12) || (c =? 13)
   || (c =? 32))%N.

(** [indexFunc]: [for i, r := range s { if f(r) == truth { return i } }],
    [-1] when the loop ends.  [s] is the rest of the string at byte
    offset [i]; [skip] counts the bytes left of the rune being stepped
    over. *)
Fixpoint indexFunc_from (f : N -> bool) (truth : bool) (s : string)
         (skip : nat) (i : Z) : Z :=
  match s with
  | EmptyString => (-1)%Z
  | String _ t =>
    match skip with
    | S k => indexFunc_from f truth t k (i + 1)%Z
    | O => let '(r, size) := utf8.DecodeRuneInString s in
           if Bool.eqb (f r) truth then i
           else indexFunc_from f truth t (size - 1) (i + 1)%Z
    end
  end.

Definition indexFunc (s : string) (f : N -> bool) (truth : bool) : Z :=
  indexFunc_from f truth s 0 0.

(** [lastIndexFunc]:
    [for i := len(s); i > 0; { r, size := DecodeLastRuneInString(s[0:i]);
       i -= size; if f(r) == truth { return i } }], [-1] at the end. *)
Fixpoint lastIndexFunc_from (f : N -> bool) (truth : bool) (s : string)
         (i : nat) (skip : nat) : Z :=
  match i with
  | O => (-1)%Z
  | S i' =>
    match skip with
    | S k => lastIndexFunc_from f truth s i' k
    | O => let '(r, size) := utf8.DecodeLastRuneInString (take i s) in
           if Bool.eqb (f r) truth then Z.of_nat (i - size)
           else lastIndexFunc_from f truth s i' (size - 1)
    end
  end.

Definition lastIndexFunc (s : string) (f : N -> bool) (truth : bool) : Z :=
  lastIndexFunc_from f truth s (String.length s) 0.

Definition TrimLeftFunc (s : string) (f : N -> bool) : string :=
  let i := indexFunc s f false in
  if (i =? -1)%Z then "" else drop (Z.to_nat i) s.

Definition TrimRightFunc (s : string) (f : N -> bool) : string :=
  let i := lastIndexFunc s f false in
  let i := (if (0 <=? i)%Z && (utf8.RuneSelf <=? at_ s i)%N
            then i + Z.of_nat (snd (utf8.DecodeRuneInString (drop (Z.to_nat i) s)))
            else i + 1)%Z in
  take (Z.to_nat i) s.

Definition TrimFunc (s : string) (f : N -> bool) : string :=
  TrimRightFunc (TrimLeftFunc s f) f.

(** The second loop of [TrimSpace], on [t = s[start:]]:
    [for ; stop > start; stop-- { c := s[stop-1]; ... }]. *)
Fixpoint TrimSpace_stop (t : string) (stop : nat) : string :=
  match stop with
  | O => take 0 t
  | S k =>
    let c := at_ t (Z.of_nat k) in
    if (utf8.RuneSelf <=? c)%N then TrimRightFunc (take stop t) unicode.IsSpace
    else if asciiSpace c then TrimSpace_stop t k
    else take stop t
  end.

(** [strings.TrimSpace]; the first loop walks [s[start:]]. *)
Fixpoint TrimSpace (s : string) : string :=
  match s with
  | EmptyString => TrimSpace_stop s 0
  | String c t =>
    if (utf8.RuneSelf <=? byte_val c)%N then TrimFunc s unicode.IsSpace
    else if asciiSpace (byte_val c) then TrimSpace t
    else TrimSpace_stop s (String.length s)
  end.

(** [strings.LastIndex]: the greatest offset at which [substr] occurs in
    [s], [-1] if there is none ([len(s)] for the empty [substr]).
    [s] is the rest of the string at offset [i]. *)
Fixpoint LastIndex_from (s substr : string) (i : Z) : Z :=
  match s with
  | EmptyString => if String.prefix substr s then i else (-1)%Z
  | String _ t =>
    let later := LastIndex_from t substr (i + 1)%Z in
    if (0 <=? later)%Z then later
    else if String.prefix substr s then i else (-1)%Z
  end.

Definition LastIndex (s substr : string) : Z := LastIndex_from s substr 0.

End strings.

Import bytes.

(** ** Outcome of a Go expression that can panic. *)
Inductive checked (A : Type) : Type :=
| Value (a : A)
| Panics (p : runtime_panic).
Arguments Value {A} a.
Arguments Panics {A} p.

(** The slice expression [s[low:]]. *)
Definition slice_from (s : string) (low : Z) : checked string :=
  if ((0 <=? low) && (low <=? len s))%Z
  then Value (drop (Z.to_nat low) s)
  else Panics (SliceBoundsOutOfRange low).

(** [GetKubeJoinFromOutput], part_000 lines 278-282. *)
Definition GetKubeJoinFromOutput (output : string) : checked string :=
  let output := strings.TrimSpace output in
  let index := strings.LastIndex output "kubeadm join" in
  slice_from output index.


(** ** Package api (api.go and the preset catalog of part_000) *)
Module api.

(** The format [ErrorK8sVersionNotSupport] applied to its operand. *)
Definition ErrorK8sVersionNotSupport (version : string) : string :=
  "Currently we do not support k8s version " +++ version.
Definition SSHKeyName : string := "DO_NOT_REMOVE_K8S_KEY".
Definition CalicoCNI : string := "calico".
Definition FlannelCNI : string := "flannel".

(** Modelled from the spec: the constants [RoleMaster] and [RoleNode]
    are not under src/; the spec gives [role: enum{master,node}]. *)
Inductive Role : Type := RoleMaster | RoleNode.

Record ImagesPreset : Type := {
  IP_KubernetesVersion : string;
  NodeImageID : string;
  MasterImageID : string;
  NodeCPU : Z;
  NodeMemory : Z;
  MasterCPU : Z;
  MasterMemory : Z;
  CNIYamlPath : string;
  CNICmd : string
}.

(** The zero value of [ImagesPreset], which a map yields for a missing key. *)
Definition zero_ImagesPreset : ImagesPreset :=
  {| IP_KubernetesVersion := ""; NodeImageID := ""; MasterImageID := "";
     NodeCPU := 0; NodeMemory := 0; MasterCPU := 0; MasterMemory := 0;
     CNIYamlPath := ""; CNICmd := "" |}.

(** [map[string]ImagesPreset], with [m[k] = v] and the two-valued lookup. *)
Definition preset_map : Type := list (string * ImagesPreset).

Fixpoint map_set (m : preset_map) (k : string) (v : ImagesPreset) : preset_map :=
  match m with
  | [] => [(k, v)]
  | (k', v') :: r => if String.eqb k k' then (k, v) :: r
                     else (k', v') :: map_set r k v
  end.

Fixpoint map_get (m : preset_map) (k : string) : option ImagesPreset :=
  match m with
  | [] => None
  | (k', v) :: r => if String.eqb k k' then Some v else map_get r k
  end.

(** [m[k]] in value position. *)
Definition map_index (m : preset_map) (k : string) : ImagesPreset :=
  match map_get m k with Some v => v | None => zero_ImagesPreset end.

(** [PresetKubernetes] after [init()]. *)
Definition PresetKubernetes : preset_map :=
  let m := [] in
  let m := map_set m "1.13.1"
    {| IP_KubernetesVersion := "1.13.1";
       NodeImageID := "img-rfubqmqn"; MasterImageID := "img-ybttnmjg";
       NodeCPU := 4; NodeMemory := 4096; MasterCPU := 4; MasterMemory := 4096;
       CNIYamlPath := "/root/CNI"; CNICmd := "cni.sh" |} in
  let m := map_set m "1.15.2"
    {| IP_KubernetesVersion := "1.15.2";
       NodeImageID := "img-kp1kue0l"; MasterImageID := "img-79giiut8";
       NodeCPU := 4; NodeMemory := 4096; MasterCPU := 4; MasterMemory := 4096;
       CNIYamlPath := "/root/CNI"; CNICmd := "cni.sh" |} in
  m.

Record NetworkOption : Type := {
  CNIName : string;
  PodNetWorkCIDR : string
}.

(** [CreateClusterOption] of api.go; [ScpKubeConfigToLocal] and
    [LocalKubeConfigPath] are the two fields [runCreate] reads at
    part_000 lines 227-229. *)
Record CreateClusterOption : Type := {
  ClusterName : string;
  KubernetesVersion : string;
  NodeCount : Z;
  VxNet : string;
  InstanceClass : Z;
  Zone : string;
  Network : NetworkOption;
  UseExistKey : bool;
  ScpKubeConfigToLocal : bool;
  LocalKubeConfigPath : string
}.

End api.

(** ** Values exchanged with the collaborators *)

(** A non-nil Go [error], by its message. *)
Record error : Type := errorString { Error : string }.

(** Modelled from the spec: package instance is not under src/; an
    [Instance] carries the id and address [runCreate] reads, and
    [CreateInstancesOption] the fields its composite literals set
    (spec 6: name, network segment ID, desired count, role, image
    selection, instance class, ssh key ID). *)
Record Instance : Type := { ID : string; IP : string }.

Record CreateInstancesOption : Type := {
  Name : string;
  CIO_VxNet : string;
  Count : Z;
  CIO_Role : api.Role;
  ImagesPreset : api.ImagesPreset;
  CIO_InstanceClass : Z;
  SSHKeyID : string
}.

(** Modelled from the spec: package tag is not under src/; the tag found by
    name carries its [TagID] (spec 3: ClusterTag {tagID, name}). *)
Record Tag : Type := { TagID : string; TagName : string }.

(** klog severities; [V n] is the verbosity-gated [klog.V(n)]. *)
Inductive level : Type := INFO | WARNING | ERROR | V (n : nat).

(** ** Calls that leave the orchestrator *)
Inductive action : Type :=
| accesskey_Init (zone configFile : string)
| tag_GetTagClusterByName (name : string)
| tag_CreateTag (name : string)
| tag_TagInstances (tagID : string) (machines : list string)
| ssh_GetDefaultPublicKeyFile
| ioutil_ReadFile (path : string)
| sshkey_GetKeyPairByName (name : string)
| sshkey_CreateSSHKey (name publicKey : string)
| instance_CreateInstances (opt : CreateInstancesOption)
| ssh_QuickConnectAndRun (ip cmd : string)
| ioutil_WriteFile (path data : string) (perm : N)
| klog (lvl : level) (format : string) (operands : list string).

(** What each call returns; [option error] is a Go [error] ([None] is nil).
    [CreateInstances] returns a [[]*instance.Instance] and an error: a
    list of pointers, each an instance or nil. *)
Definition result (a : action) : Type :=
  match a with
  | accesskey_Init _ _ => option error
  | tag_GetTagClusterByName _ => (option Tag * option error)%type
  | tag_CreateTag _ => (string * option error)%type
  | tag_TagInstances _ _ => option error
  | ssh_GetDefaultPublicKeyFile => string
  | ioutil_ReadFile _ => (string * option error)%type
  | sshkey_GetKeyPairByName _ => (string * option error)%type
  | sshkey_CreateSSHKey _ _ => (string * option error)%type
  | instance_CreateInstances _ => (list (option Instance) * option error)%type
  | ssh_QuickConnectAndRun _ _ => (string * option error)%type
  | ioutil_WriteFile _ _ _ => option error
  | klog _ _ _ => unit
  end.

(** ** Programs: the free monad over [action], with panics *)
Inductive Prog (A : Type) : Type :=
| Ret (a : A)
| Crash (p : runtime_panic)
| Act (a : action) (k : result a -> Prog A).
Arguments Ret {A} a.
Arguments Crash {A} p.
Arguments Act {A} a k.

Fixpoint bind {A B : Type} (p : Prog A) (f : A -> Prog B) : Prog B :=
  match p with
  | Ret a => f a
  | Crash q => Crash q
  | Act a k => Act a (fun r => bind (k r) f)
  end.

Definition call (a : action) : Prog (result a) := Act a Ret.

Declare Scope prog_scope.
Delimit Scope prog_scope with prog.
Notation "x <- p ;; q" := (bind p (fun x => q))
  (at level 61, p at next level, right associativity) : prog_scope.
Notation "' pat <- p ;; q" := (bind p (fun x => match x with pat => q end))
  (at level 61, pat pattern, p at next level, right associativity) : prog_scope.
Notation "p ;; q" := (bind p (fun _ => q))
  (at level 61, right associativity) : prog_scope.
Open Scope prog_scope.

(** A Go expression that can panic, evaluated in a program. *)
Definition eval {A : Type} (c : checked A) : Prog A :=
  match c with
  | Value a => Ret a
  | Panics p => Crash p
  end.

(** ** Running a program against its collaborators *)
Inductive event : Type := Event (a : action) (r : result a).

Inductive outcome (A : Type) : Type :=
| Returned (a : A)
| Crashed (p : runtime_panic).
Arguments Returned {A} a.
Arguments Crashed {A} p.

Record Run (S A : Type) : Type := mkRun {
  result_of : outcome A;
  final : S;
  trace : list event
}.
Arguments mkRun {S A}.
Arguments result_of {S A}.
Arguments final {S A}.
Arguments trace {S A}.

(** The collaborators: every call is answered from a state of type [S]. *)
Definition handler (S : Type) : Type := forall a : action, S -> result a * S.

Fixpoint run {S A : Type} (h : handler S) (p : Prog A) (s : S) : Run S A :=
  match p with
  | Ret a => mkRun (Returned a) s []
  | Crash q => mkRun (Crashed q) s []
  | Act a k =>
    let '(r, s1) := h a s in
    let rest := run h (k r) s1 in
    mkRun (result_of rest) (final rest) (Event a r :: trace rest)
  end.

(** ** Package app (part_000) *)

Definition KubeconfigFilePath : string := "/etc/kubernetes/admin.conf".

(** [fmt.Errorf] with the format already applied to its operands. *)
Definition fmt_Errorf (msg : string) : error := errorString msg.

(** [%+v] of a [[]error]: the messages between brackets, separated by spaces. *)
Definition fmt_errors (errs : list error) : string :=
  "[" +++ String.concat " " (map Error errs) +++ "]".

(** [tagName], lines 41-43. *)
Definition tagName (name : string) : string := "K8S-Cluster-" +++ name.

(** [validateCreateInput], lines 45-50. *)
Definition validateCreateInput (opt : api.CreateClusterOption) : option error :=
  if String.eqb (api.ClusterName opt) ""
  then Some (fmt_Errorf "ClusterName cannot be empty")
  else None.

(** [init], lines 69-86: only [keyHelper.Init()] can fail; the rest wires
    the services that the later calls go to. *)
Definition init (zone configFile : string) : Prog (option error) :=
  call (klog INFO "Init qingcloud service" []) ;;
  call (accesskey_Init zone configFile).

(** [prepareSSHKey], lines 88-107. *)
Definition prepareSSHKey (useExistKey : bool) : Prog (string * option error) :=
  path <- call ssh_GetDefaultPublicKeyFile ;;
  '(output, err) <- call (ioutil_ReadFile path) ;;
  match err with
  | Some e =>
    call (klog ERROR "Failed to read ssh public key" []) ;;
    Ret ("", Some e)
  | None =>
    let create :=
      call (klog INFO "Try to create a new ssh key" []) ;;
      call (sshkey_CreateSSHKey api.SSHKeyName output) in
    if useExistKey then
      call (klog INFO "Try to get exsit keypair" []) ;;
      '(key, err) <- call (sshkey_GetKeyPairByName api.SSHKeyName) ;;
      match err with
      | Some e => Ret ("", Some e)
      | None =>
        if negb (String.eqb key "") then Ret (key, err)
        else
          call (klog WARNING "Cannot find any exist key, will create a new one" []) ;;
          create
      end
    else create
  end.

(** Tag resolution, [runCreate] lines 110-126: the tag ID and the error
    with which [runCreate] returns when it is not nil. *)
Definition resolveTag (clusterName : string) : Prog (string * option error) :=
  call (klog INFO "Prepare Tag" []) ;;
  let tag := tagName clusterName in
  '(id, err) <- call (tag_GetTagClusterByName tag) ;;
  match err with
  | Some e =>
    call (klog ERROR "Failed to get current tag" []) ;;
    Ret ("", Some e)
  | None =>
    match id with
    | Some t => Ret (TagID t, None)
    | None =>
      '(tagID, err) <- call (tag_CreateTag tag) ;;
      match err with
      | Some e =>
        call (klog ERROR "Failed to create tag %s" [tag]) ;;
        Ret (tagID, Some e)
      | None => Ret (tagID, None)
      end
    end
  end.

(** *** The two provisioning goroutines, lines 138-191 *)

(** The variables of [runCreate] that the goroutines share. *)
Record Shared : Type := {
  errs : list error;
  machines : list string;
  master : option Instance;        (* [*instance.Instance], [None] is nil *)
  nodes : list Instance
}.

(** The values a goroutine has loaded and not yet stored back. *)
Record Regs : Type := {
  r_errs : list error;
  r_machines : list string
}.

(** The atomic steps of a goroutine after its [CreateInstances] call.
    [x = append(x, v)] on a variable both goroutines write is a load of
    [x] followed by a store of the loaded slice with [v] appended.
    [master] and [nodes] have a single writer and no reader before
    [wg.Wait()], so their assignments are one step.  [runtime_check p]
    is a check of the Go runtime that fails with [p]: [instances[0]] on
    an empty slice, [.ID] on a nil pointer. *)
Inductive instr : Type :=
| load_errs
| store_errs_append (e : error)
| runtime_check (p : runtime_panic)
| assign_master (m : option Instance)
| load_machines
| store_machines_append (id : string)
| append_nodes (m : Instance)
| log (lvl : level) (format : string) (operands : list string).

(** The master goroutine after [CreateInstances] returned, lines 155-161.
    The answer is a [[]*instance.Instance]: [master = instances[0]] takes
    its first pointer as it is, and [master.ID] on the next line panics
    when that pointer is nil. *)
Definition masterRoutine (res : list (option Instance) * option error)
  : list instr :=
  let '(instances, err) := res in
  match err with
  | Some e => [load_errs; store_errs_append e]
  | None =>
    match instances with
    | [] => [runtime_check (IndexOutOfRange 0 0)]
    | None :: _ => [assign_master None; runtime_check NilPointerDereference]
    | Some m :: _ =>
      [assign_master (Some m); load_machines; store_machines_append (ID m);
       log INFO "Master creating done, id=%s, ip=%s" [ID m; IP m]]
    end
  end.

(** The loop of the nodes goroutine, lines 183-187: [machine.ID] is read
    first, and panics on a nil pointer before anything is appended for
    that element. *)
Fixpoint nodesLoop (instances : list (option Instance)) : list instr :=
  match instances with
  | [] => []
  | None :: _ => [runtime_check NilPointerDereference]
  | Some machine :: rest =>
    [load_machines; store_machines_append (ID machine);
     append_nodes machine;
     log INFO "Nodes creating done, id=%s, ip=%s" [ID machine; IP machine]]
    ++ nodesLoop rest
  end.

(** The nodes goroutine after [CreateInstances] returned, lines 179-187. *)
Definition nodesRoutine (res : list (option Instance) * option error)
  : list instr :=
  let '(instances, err) := res in
  match err with
  | Some e => [load_errs; store_errs_append e]
  | None => nodesLoop instances
  end.

Inductive goroutine : Type :=
| Spawned (opt : CreateInstancesOption)
          (body : list (option Instance) * option error -> list instr)
| Running (code : list instr) (regs : Regs).

(** One step that is neither a call nor a panic. *)
Definition exec (i : instr) (regs : Regs) (sh : Shared) : Regs * Shared :=
  match i with
  | load_errs =>
    ({| r_errs := errs sh; r_machines := r_machines regs |}, sh)
  | store_errs_append e =>
    (regs, {| errs := r_errs regs ++ [e]; machines := machines sh;
              master := master sh; nodes := nodes sh |})
  | assign_master m =>
    (regs, {| errs := errs sh; machines := machines sh;
              master := m; nodes := nodes sh |})
  | load_machines =>
    ({| r_errs := r_errs regs; r_machines := machines sh |}, sh)
  | store_machines_append id =>
    (regs, {| errs := errs sh; machines := r_machines regs ++ [id];
              master := master sh; nodes := nodes sh |})
  | append_nodes m =>
    (regs, {| errs := errs sh; machines := machines sh;
              master := master sh; nodes := nodes sh ++ [m] |})
  | runtime_check _ | log _ _ _ => (regs, sh)
  end.

Definition no_regs : Regs := {| r_errs := []; r_machines := [] |}.

(** The next step of a goroutine; a finished goroutine stays as it is. *)
Definition step {A : Type} (g : goroutine) (sh : Shared)
           (k : goroutine -> Shared -> Prog A) : Prog A :=
  match g with
  | Spawned opt body =>
    Act (instance_CreateInstances opt) (fun res => k (Running (body res) no_regs) sh)
  | Running [] _ => k g sh
  | Running (i :: code) regs =>
    match i with
    | runtime_check p => Crash p
    | log lvl format operands =>
      Act (klog lvl format operands) (fun _ => k (Running code regs) sh)
    | _ => let '(regs1, sh1) := exec i regs sh in k (Running code regs1) sh1
    end
  end.

(** A goroutine run to its end without interruption. *)
Fixpoint finish_code (code : list instr) (regs : Regs) (sh : Shared) : Prog Shared :=
  match code with
  | [] => Ret sh
  | i :: code1 =>
    match i with
    | runtime_check p => Crash p
    | log lvl format operands =>
      Act (klog lvl format operands) (fun _ => finish_code code1 regs sh)
    | _ => let '(regs1, sh1) := exec i regs sh in finish_code code1 regs1 sh1
    end
  end.

Definition finish (g : goroutine) (sh : Shared) : Prog Shared :=
  match g with
  | Spawned opt body =>
    Act (instance_CreateInstances opt) (fun res => finish_code (body res) no_regs sh)
  | Running code regs => finish_code code regs sh
  end.

Inductive tid : Type := T_master | T_nodes.

(** The goroutines interleaved as the schedule says, up to [wg.Wait()]:
    each entry lets one goroutine take its next step; when the schedule
    ends, what is left of the master goroutine runs, then what is left of
    the nodes goroutine. *)
Fixpoint interleave (sched : list tid) (gm gn : goroutine) (sh : Shared)
  : Prog Shared :=
  match sched with
  | [] => sh1 <- finish gm sh ;; finish gn sh1
  | T_master :: rest => step gm sh (fun g sh1 => interleave rest g gn sh1)
  | T_nodes :: rest => step gn sh (fun g sh1 => interleave rest gm g sh1)
  end.

(** [generateKubeadmInitCmd], lines 240-250. *)
Definition generateKubeadmInitCmd (opt : api.NetworkOption) (version : string)
  : string * option error :=
  if String.eqb (api.PodNetWorkCIDR opt) ""
  then ("", Some (fmt_Errorf "Must specify a network for pod"))
  else if String.eqb (api.CNIName opt) api.CalicoCNI
          || String.eqb (api.CNIName opt) api.FlannelCNI
  then ("kubeadm init --pod-network-cidr=" +++ api.PodNetWorkCIDR opt
        +++ " --kubernetes-version=v" +++ version, None)
  else ("", Some (fmt_Errorf ("CNI plugin " +++ api.CNIName opt
                              +++ " is not supported right now"))).

(** [p.f] on a pointer that may be nil. *)
Definition deref {A : Type} (p : option Instance) (f : Instance -> A) : Prog A :=
  match p with
  | Some i => Ret (f i)
  | None => Crash NilPointerDereference
  end.

(** [bootstrapMaster], lines 252-265.  The deferred [klog.V(1).Infoln]
    runs when the function returns or panics. *)
Definition bootstrapMaster (master : option Instance) (opt : api.CreateClusterOption)
  : Prog (string * option error) :=
  let '(cmd, err) := generateKubeadmInitCmd (api.Network opt) (api.KubernetesVersion opt) in
  match err with
  | Some e => Ret ("", Some e)
  | None =>
    ip <- deref master IP ;;
    '(output, err) <- call (ssh_QuickConnectAndRun ip ("swapoff -a;" +++ cmd)) ;;
    let deferred := call (klog (V 1) output []) in
    match err with
    | Some e =>
      call (klog ERROR "Failed to run 'kubeadm init'" []) ;;
      deferred ;;
      Ret ("", Some e)
    | None =>
      call (klog INFO "Getting 'kubeadm join'" []) ;;
      match GetKubeJoinFromOutput output with
      | Value joinCmd => deferred ;; Ret (joinCmd, None)
      | Panics p => deferred ;; Crash p
      end
    end
  end.

(** [buildShellScripts], lines 267-276. *)
Definition buildShellScripts (scripts : list string) : string :=
  fold_left (fun buf s => buf +++ s +++ nl)
            scripts ("#!/bin/bash" +++ nl +++ "swapoff -a" +++ nl).

(** [applyCNI], lines 284-292. *)
Definition applyCNI (cni CNIYamlPath masterip : string) : Prog (option error) :=
  let cmd := "kubectl --kubeconfig=" +++ KubeconfigFilePath +++ " apply -f "
             +++ CNIYamlPath +++ "/" +++ cni +++ "/" in
  '(bytes, err) <- call (ssh_QuickConnectAndRun masterip cmd) ;;
  call (klog (V 1) bytes []) ;;
  Ret err.

(** The octal literal [0600]: read and write for the owner only. *)
Definition perm_0600 : N := 6 * 8 * 8.

(** [transferKubeconfigToLocal], lines 294-306. *)
Definition transferKubeconfigToLocal (masterip localPath : string)
  : Prog (option error) :=
  '(bytes, err) <- call (ssh_QuickConnectAndRun masterip "cat /etc/kubernetes/admin.conf") ;;
  match err with
  | Some e => call (klog ERROR bytes []) ;; Ret (Some e)
  | None =>
    err <- call (ioutil_WriteFile (localPath +++ "/kubeconfig") bytes perm_0600) ;;
    match err with
    | Some e => call (klog ERROR "Failed to write kubeconfig" []) ;; Ret (Some e)
    | None => Ret None
    end
  end.

(** ["swapoff -a; "+joinCmd], line 216. *)
Definition join_command (joinCmd : string) : string := "swapoff -a; " +++ joinCmd.

(** The node join loop, [runCreate] lines 215-225: [None] when every node
    joined, otherwise the error with which [runCreate] returns. *)
Fixpoint joinNodes (joinCmd : string) (nodes : list Instance) : Prog (option error) :=
  match nodes with
  | [] => Ret None
  | node :: rest =>
    '(output, err) <- call (ssh_QuickConnectAndRun (IP node) (join_command joinCmd)) ;;
    (if Nat.eqb (String.length output) 0 then Ret tt
     else call (klog (V 1) output [])) ;;
    match err with
    | Some e =>
      call (klog ERROR "Failed to join %s %s to cluster" [ID node; IP node]) ;;
      Ret (Some e)
    | None =>
      call (klog INFO "%s has successfully joined the cluster" [IP node]) ;;
      joinNodes joinCmd rest
    end
  end.

(** The second half of [runCreate], lines 192-237, from the check of
    [errs] after [wg.Wait()] to the end: tagging, bootstrap, CNI, node
    join and the export of the kubeconfig. *)
Definition bringUp (opt : api.CreateClusterOption) (tagID : string)
           (createMasterOpt : CreateInstancesOption) (sh : Shared)
  : Prog (option error) :=
  if negb (Nat.eqb (length (errs sh)) 0) then
    Ret (Some (fmt_Errorf ("Creating Machines failed, errs: " +++ fmt_errors (errs sh))))
  else
  call (klog INFO "Tagging all machines" []) ;;
  err <- call (tag_TagInstances tagID (machines sh)) ;;
  match err with Some e => Ret (Some e) | None =>
  call (klog INFO "Machines are ready, bring the cluster up" []) ;;
  '(joinCmd, err) <- bootstrapMaster (master sh) opt ;;
  match err with
  | Some e => call (klog ERROR "Failed to bootstrap master node" []) ;; Ret (Some e)
  | None =>
  call (klog INFO "Applying CNI" []) ;;
  masterIP <- deref (master sh) IP ;;
  err <- applyCNI (api.CNIName (api.Network opt))
                  (api.CNIYamlPath (ImagesPreset createMasterOpt)) masterIP ;;
  match err with
  | Some e =>
    call (klog ERROR "Failed to apply CNI plugin %s" [api.CNIName (api.Network opt)]) ;;
    Ret (Some e)
  | None =>
  call (klog INFO "CNI is applied now" []) ;;
  call (klog INFO "Joining nodes" []) ;;
  err <- joinNodes joinCmd (nodes sh) ;;
  match err with Some e => Ret (Some e) | None =>
  let congratulate :=
    masterID <- deref (master sh) ID ;;
    masterIP <- deref (master sh) IP ;;
    call (klog INFO "Congratulations! The cluster is ready now, the master is [ID: %s,IP: %s], check it out"
               [masterID; masterIP]) ;;
    Ret None in
  if api.ScpKubeConfigToLocal opt then
    call (klog INFO "Transfer kubeconfig to local" []) ;;
    masterIP <- deref (master sh) IP ;;
    err <- transferKubeconfigToLocal masterIP (api.LocalKubeConfigPath opt) ;;
    match err with
    | Some e => call (klog ERROR "Failed to transfer kubeconfig" []) ;; Ret (Some e)
    | None =>
      call (klog INFO "kubeconfig has been copied to local, type 'export KUBECONFIG=%s/kubeconfig; kubectl cluster-info' to have a try"
                 [api.LocalKubeConfigPath opt]) ;;
      congratulate
    end
  else congratulate
  end end end end.

(** The composite literal [createMasterOpt], lines 142-150. *)
Definition createMasterOpt (opt : api.CreateClusterOption) (keyid : string)
  : CreateInstancesOption :=
  {| Name := api.ClusterName opt;
     CIO_VxNet := api.VxNet opt;
     Count := 1;
     CIO_Role := api.RoleMaster;
     ImagesPreset := api.map_index api.PresetKubernetes (api.KubernetesVersion opt);
     CIO_InstanceClass := api.InstanceClass opt;
     SSHKeyID := keyid |}.

(** The composite literal [createNodesOpt], lines 169-177. *)
Definition createNodesOpt (opt : api.CreateClusterOption) (keyid : string)
  : CreateInstancesOption :=
  {| Name := api.ClusterName opt;
     CIO_VxNet := api.VxNet opt;
     Count := api.NodeCount opt;
     CIO_Role := api.RoleNode;
     ImagesPreset := api.map_index api.PresetKubernetes (api.KubernetesVersion opt);
     CIO_InstanceClass := api.InstanceClass opt;
     SSHKeyID := keyid |}.

(** [runCreate], lines 109-238.  [sched] is the interleaving of the two
    goroutines; the main goroutine's "Waiting for machines to start" is
    logged before their first step. *)
Definition runCreate (sched : list tid) (opt : api.CreateClusterOption)
  : Prog (option error) :=
  '(tagID, err) <- resolveTag (api.ClusterName opt) ;;
  match err with Some e => Ret (Some e) | None =>
  call (klog INFO "Prepare ssh key" []) ;;
  '(keyid, err) <- prepareSSHKey (api.UseExistKey opt) ;;
  match err with Some e => Ret (Some e) | None =>
  call (klog INFO "Creating Master" []) ;;
  match api.map_get api.PresetKubernetes (api.KubernetesVersion opt) with
  | None =>
    Ret (Some (fmt_Errorf (api.ErrorK8sVersionNotSupport (api.KubernetesVersion opt))))
  | Some _ =>
  call (klog INFO "Waiting for machines to start" []) ;;
  sh <- interleave sched
          (Spawned (createMasterOpt opt keyid) masterRoutine)
          (Spawned (createNodesOpt opt keyid) nodesRoutine)
          {| errs := []; machines := []; master := None; nodes := [] |} ;;
  bringUp opt tagID (createMasterOpt opt keyid) sh
  end end end.

(** [RunCreate], lines 51-67, without the deferred report of the elapsed
    wall-clock time. *)
Definition RunCreate (configFile : string) (sched : list tid)
           (opt : api.CreateClusterOption) : Prog (option error) :=
  match validateCreateInput opt with
  | Some e => Ret (Some e)
  | None =>
    err <- init (api.Zone opt) configFile ;;
    match err with
    | Some e => call (klog ERROR "Falied to init command" []) ;; Ret (Some e)
    | None => runCreate sched opt
    end
  end.

(** ** Reading a trace *)

Definition action_of (e : event) : action := let 'Event a _ := e in a.

Definition actions (tr : list event) : list action := map action_of tr.

(** The Go [error] a call returned, nil or not. *)
Definition error_of (e : event) : option error :=
  let 'Event a r := e in
  match a return result a -> option error with
  | accesskey_Init _ _ => fun r => r
  | tag_GetTagClusterByName _ => fun r => snd r
  | tag_CreateTag _ => fun r => snd r
  | tag_TagInstances _ _ => fun r => r
  | ssh_GetDefaultPublicKeyFile => fun _ => None
  | ioutil_ReadFile _ => fun r => snd r
  | sshkey_GetKeyPairByName _ => fun r => snd r
  | sshkey_CreateSSHKey _ _ => fun r => snd r
  | instance_CreateInstances _ => fun r => snd r
  | ssh_QuickConnectAndRun _ _ => fun r => snd r
  | ioutil_WriteFile _ _ _ => fun r => r
  | klog _ _ _ => fun _ => None
  end r.

Definition some_list {A : Type} (o : option A) : list A :=
  match o with Some a => [a] | None => [] end.

(** The errors the collaborators returned, in order. *)
Definition returned_errors (tr : list event) : list error :=
  flat_map (fun e => some_list (error_of e)) tr.

Definition Role_eqb (a b : api.Role) : bool :=
  match a, b with
  | api.RoleMaster, api.RoleMaster | api.RoleNode, api.RoleNode => true
  | _, _ => false
  end.

(** The answers of [CreateInstances] to the requests for [role]. *)
Definition provisioned_of (role : api.Role) (e : event)
  : list (list (option Instance) * option error) :=
  let 'Event a r := e in
  match a return result a -> list (list (option Instance) * option error) with
  | instance_CreateInstances opt =>
    fun r => if Role_eqb (CIO_Role opt) role then [r] else []
  | _ => fun _ => []
  end r.

Definition provisioned (role : api.Role) (tr : list event)
  : list (list (option Instance) * option error) :=
  flat_map (provisioned_of role) tr.

(** The errors recorded by the provisioning calls. *)
Definition provision_error_of (e : event) : list error :=
  let 'Event a r := e in
  match a return result a -> list error with
  | instance_CreateInstances _ => fun r => some_list (snd r)
  | _ => fun _ => []
  end r.

Definition provision_errors (tr : list event) : list error :=
  flat_map provision_error_of tr.

(** The remote shell commands run, each with the host, the captured output
    and the error. *)
Definition remote_run_of (e : event)
  : list (string * string * (string * option error)) :=
  let 'Event a r := e in
  match a return result a -> list (string * string * (string * option error)) with
  | ssh_QuickConnectAndRun ip cmd => fun r => [(ip, cmd, r)]
  | _ => fun _ => []
  end r.

Definition remote_runs (tr : list event)
  : list (string * string * (string * option error)) :=
  flat_map remote_run_of tr.

(** The local files written: path, bytes and permission bits. *)
Definition file_written_of (e : event) : list (string * string * N) :=
  match action_of e with
  | ioutil_WriteFile path data perm => [(path, data, perm)]
  | _ => []
  end.

Definition files_written (tr : list event) : list (string * string * N) :=
  flat_map file_written_of tr.

(** The tag lookups: the name asked for and the answer. *)
Definition tag_lookup_of (e : event)
  : list (string * (option Tag * option error)) :=
  let 'Event a r := e in
  match a return result a -> list (string * (option Tag * option error)) with
  | tag_GetTagClusterByName name => fun r => [(name, r)]
  | _ => fun _ => []
  end r.

Definition tag_lookups (tr : list event)
  : list (string * (option Tag * option error)) :=
  flat_map tag_lookup_of tr.

Definition level_eqb (a b : level) : bool :=
  match a, b with
  | INFO, INFO | WARNING, WARNING | ERROR, ERROR => true
  | V n, V m => Nat.eqb n m
  | _, _ => false
  end.

(** The klog lines of a level: format and operands. *)
Definition logged_of (lvl : level) (e : event) : list (string * list string) :=
  match action_of e with
  | klog l format operands => if level_eqb l lvl then [(format, operands)] else []
  | _ => []
  end.

Definition logged (lvl : level) (tr : list event) : list (string * list string) :=
  flat_map (logged_of lvl) tr.

Definition is_remote (a : action) : bool :=
  match a with ssh_QuickConnectAndRun _ _ => true | _ => false end.

Definition is_tag_call (a : action) : bool :=
  match a with
  | tag_GetTagClusterByName _ | tag_CreateTag _ | tag_TagInstances _ _ => true
  | _ => false
  end.

Definition is_tagging (a : action) : bool :=
  match a with tag_TagInstances _ _ => true | _ => false end.

Definition is_tag_creation (a : action) : bool :=
  match a with tag_CreateTag _ => true | _ => false end.

Definition is_key_call (a : action) : bool :=
  match a with
  | ssh_GetDefaultPublicKeyFile | ioutil_ReadFile _
  | sshkey_GetKeyPairByName _ | sshkey_CreateSSHKey _ _ => true
  | _ => false
  end.

Definition is_provisioning (a : action) : bool :=
  match a with instance_CreateInstances _ => true | _ => false end.

Definition is_file_write (a : action) : bool :=
  match a with ioutil_WriteFile _ _ _ => true | _ => false end.

Definition is_log (a : action) : bool :=
  match a with klog _ _ _ => true | _ => false end.

(** No action of the trace satisfies [p]. *)
Definition none_of (p : action -> bool) (tr : list event) : Prop :=
  Forall (fun e => p (action_of e) = false) tr.

(** ** What a program does whatever the collaborators answer *)

(** [always p Q]: [Q] holds of the trace and result of [p] for every way
    the calls can be answered. *)
Fixpoint always {A : Type} (p : Prog A) (Q : list event -> outcome A -> Prop) : Prop :=
  match p with
  | Ret a => Q [] (Returned a)
  | Crash q => Q [] (Crashed q)
  | Act a k => forall r : result a, always (k r) (fun tr o => Q (Event a r :: tr) o)
  end.

(** ** The error values of the spec's taxonomy, as the code builds them *)
Definition InvalidInput : error := fmt_Errorf "ClusterName cannot be empty".
Definition UnsupportedVersion (version : string) : error :=
  fmt_Errorf ("Currently we do not support k8s version " +++ version).
Definition MissingPodCIDR : error := fmt_Errorf "Must specify a network for pod".
Definition UnsupportedCNI (cni : string) : error :=
  fmt_Errorf ("CNI plugin " +++ cni +++ " is not supported right now").
Definition ProvisioningFailed (errs : list error) : error :=
  fmt_Errorf ("Creating Machines failed, errs: " +++ fmt_errors errs).

(** The marker of the join directive. *)
Definition marker : string := "kubeadm join".

(** A byte that [TrimSpace] can cut: an ASCII space, or a byte of a
    multi-byte rune. *)
Definition spaceish (b : N) : Prop :=
  strings.asciiSpace b = true \/ (0x80 <= b)%N.

(** [never P p]: no call of [p] satisfies [P], whatever the answers. *)
Fixpoint never {A : Type} (P : action -> bool) (p : Prog A) : Prop :=
  match p with
  | Ret _ | Crash _ => True
  | Act a k => P a = false /\ forall r, never P (k r)
  end.

(** ** A cloud to run against *)

(** What the instance service and the remote hosts answer. *)
Record Script : Type := {
  provision : CreateInstancesOption -> list (option Instance) * option error;
  shell : string -> string -> string * option error
}.

(** The state of the collaborators: the tags of the account, the key pair
    registered under [api.SSHKeyName] (empty when there is none) and the
    local files written. *)
Record Cloud : Type := {
  cloud_tags : list Tag;
  cloud_key : string;
  local_files : list (string * string * N)
}.

Definition find_tag (name : string) (tags : list Tag) : option Tag :=
  find (fun t => String.eqb (TagName t) name) tags.

(** Modelled from the spec: the tag and key services, the local file
    system and klog are not under src/.  Spec 6: [FindTagByName(name) ->
    (tag|none, error)] looks a tag up by name, [CreateTag(name) -> (tagID,
    error)] adds one, [FindKeyByName(name) -> (keyID|"", error)],
    [CreateKey(name, publicKeyMaterial) -> (keyID, error)]; a write adds
    the file with its permission bits. *)
Definition cloud (sc : Script) : handler Cloud :=
  fun a =>
  match a return Cloud -> result a * Cloud with
  | accesskey_Init _ _ => fun c => (None, c)
  | tag_GetTagClusterByName name => fun c => ((find_tag name (cloud_tags c), None), c)
  | tag_CreateTag name => fun c =>
      let id := "tag-" +++ name in
      ((id, None),
       {| cloud_tags := cloud_tags c ++ [{| TagID := id; TagName := name |}];
          cloud_key := cloud_key c; local_files := local_files c |})
  | tag_TagInstances _ _ => fun c => (None, c)
  | ssh_GetDefaultPublicKeyFile => fun c => ("/root/.ssh/id_rsa.pub", c)
  | ioutil_ReadFile _ => fun c => (("ssh-rsa AAAAB3Nza", None), c)
  | sshkey_GetKeyPairByName _ => fun c => ((cloud_key c, None), c)
  | sshkey_CreateSSHKey _ _ => fun c =>
      (("kp-new", None),
       {| cloud_tags := cloud_tags c; cloud_key := "kp-new";
          local_files := local_files c |})
  | instance_CreateInstances opt => fun c => (provision sc opt, c)
  | ssh_QuickConnectAndRun ip cmd => fun c => (shell sc ip cmd, c)
  | ioutil_WriteFile path data perm => fun c =>
      (None,
       {| cloud_tags := cloud_tags c; cloud_key := cloud_key c;
          local_files := local_files c ++ [(path, data, perm)] |})
  | klog _ _ _ => fun c => (tt, c)
  end.

Definition empty_cloud : Cloud :=
  {| cloud_tags := []; cloud_key := ""; local_files := [] |}.

(** The request of the spec's end-to-end scenario, with three nodes. *)
Definition demo : api.CreateClusterOption :=
  {| api.ClusterName := "demo";
     api.KubernetesVersion := "1.15.2";
     api.NodeCount := 3;
     api.VxNet := "vxnet-0";
     api.InstanceClass := 101;
     api.Zone := "pek3";
     api.Network := {| api.CNIName := "flannel";
                       api.PodNetWorkCIDR := "10.244.0.0/16" |};
     api.UseExistKey := false;
     api.ScpKubeConfigToLocal := true;
     api.LocalKubeConfigPath := "/tmp/demo" |}.

Definition with_version (opt : api.CreateClusterOption) (v : string)
  : api.CreateClusterOption :=
  {| api.ClusterName := api.ClusterName opt;
     api.KubernetesVersion := v;
     api.NodeCount := api.NodeCount opt;
     api.VxNet := api.VxNet opt;
     api.InstanceClass := api.InstanceClass opt;
     api.Zone := api.Zone opt;
     api.Network := api.Network opt;
     api.UseExistKey := api.UseExistKey opt;
     api.ScpKubeConfigToLocal := api.ScpKubeConfigToLocal opt;
     api.LocalKubeConfigPath := api.LocalKubeConfigPath opt |}.

Definition with_export (opt : api.CreateClusterOption) (b : bool)
  : api.CreateClusterOption :=
  {| api.ClusterName := api.ClusterName opt;
     api.KubernetesVersion := api.KubernetesVersion opt;
     api.NodeCount := api.NodeCount opt;
     api.VxNet := api.VxNet opt;
     api.InstanceClass := api.InstanceClass opt;
     api.Zone := api.Zone opt;
     api.Network := api.Network opt;
     api.UseExistKey := api.UseExistKey opt;
     api.ScpKubeConfigToLocal := b;
     api.LocalKubeConfigPath := api.LocalKubeConfigPath opt |}.

Definition with_network (opt : api.CreateClusterOption) (cni cidr : string)
  : api.CreateClusterOption :=
  {| api.ClusterName := api.ClusterName opt;
     api.KubernetesVersion := api.KubernetesVersion opt;
     api.NodeCount := api.NodeCount opt;
     api.VxNet := api.VxNet opt;
     api.InstanceClass := api.InstanceClass opt;
     api.Zone := api.Zone opt;
     api.Network := {| api.CNIName := cni; api.PodNetWorkCIDR := cidr |};
     api.UseExistKey := api.UseExistKey opt;
     api.ScpKubeConfigToLocal := api.ScpKubeConfigToLocal opt;
     api.LocalKubeConfigPath := api.LocalKubeConfigPath opt |}.

Definition the_master : Instance := {| ID := "i-master"; IP := "10.0.0.1" |}.
Definition node_A : Instance := {| ID := "i-a"; IP := "10.0.0.11" |}.
Definition node_B : Instance := {| ID := "i-b"; IP := "10.0.0.12" |}.
Definition node_C : Instance := {| ID := "i-c"; IP := "10.0.0.13" |}.

Definition init_output : string :=
  "Your Kubernetes control-plane has initialized successfully!" +++ nl
  +++ "kubeadm join 10.0.0.1:6443 --token abc" +++ nl.

Definition admin_conf : string := "apiVersion: v1" +++ nl +++ "kind: Config" +++ nl.

Definition starts_with (p s : string) : bool := String.prefix p s.

(** Every provisioning call and every remote command succeeds. *)
Definition all_well : Script :=
  {| provision := fun opt =>
       match CIO_Role opt with
       | api.RoleMaster => ([Some the_master], None)
       | api.RoleNode => (map Some [node_A; node_B; node_C], None)
       end;
     shell := fun ip cmd =>
       if starts_with "swapoff -a;kubeadm init" cmd then (init_output, None)
       else if starts_with "cat " cmd then (admin_conf, None)
       else ("", None) |}.

(** As [all_well], but the remote command fails on node B. *)
Definition B_fails : Script :=
  {| provision := provision all_well;
     shell := fun ip cmd =>
       if String.eqb ip (IP node_B)
       then ("connection refused", Some (errorString "ssh: exit status 1"))
       else shell all_well ip cmd |}.

(** As [all_well], but the remote command fails on node A. *)
Definition A_fails : Script :=
  {| provision := provision all_well;
     shell := fun ip cmd =>
       if String.eqb ip (IP node_A)
       then ("connection refused", Some (errorString "ssh: exit status 1"))
       else shell all_well ip cmd |}.

(** As [all_well], but [kubeadm init] prints no join directive. *)
Definition no_directive : Script :=
  {| provision := provision all_well;
     shell := fun ip cmd =>
       if starts_with "swapoff -a;kubeadm init" cmd then ("hello", None)
       else shell all_well ip cmd |}.

(** Both provisioning calls fail. *)
Definition err_master : error := errorString "master quota exceeded".
Definition err_nodes : error := errorString "nodes quota exceeded".

Definition both_fail : Script :=
  {| provision := fun opt =>
       match CIO_Role opt with
       | api.RoleMaster => ([], Some err_master)
       | api.RoleNode => ([], Some err_nodes)
       end;
     shell := shell all_well |}.

(** The nodes are created, the master call fails. *)
Definition master_fails : Script :=
  {| provision := fun opt =>
       match CIO_Role opt with
       | api.RoleMaster => ([], Some err_master)
       | api.RoleNode => (map Some [node_A; node_B; node_C], None)
       end;
     shell := shell all_well |}.

(** The master call succeeds with no instance. *)
Definition no_master : Script :=
  {| provision := fun opt =>
       match CIO_Role opt with
       | api.RoleMaster => ([], None)
       | api.RoleNode => (map Some [node_A; node_B; node_C], None)
       end;
     shell := shell all_well |}.

(** The nodes call fails, the master call succeeds with no instance. *)
Definition nodes_fail_no_master : Script :=
  {| provision := fun opt =>
       match CIO_Role opt with
       | api.RoleMaster => ([], None)
       | api.RoleNode => ([], Some err_nodes)
       end;
     shell := shell all_well |}.

(** The master call succeeds with a nil pointer. *)
Definition nil_master : Script :=
  {| provision := fun opt =>
       match CIO_Role opt with
       | api.RoleMaster => ([None], None)
       | api.RoleNode => (map Some [node_A; node_B; node_C], None)
       end;
     shell := shell all_well |}.

(** The nodes call succeeds with a nil pointer in second place. *)
Definition nil_node : Script :=
  {| provision := fun opt =>
       match CIO_Role opt with
       | api.RoleMaster => ([Some the_master], None)
       | api.RoleNode => ([Some node_A; None; Some node_C], None)
       end;
     shell := shell all_well |}.

(** Each goroutine calls, loads the shared slice, and only then do both
    store. *)
Definition racy_schedule : list tid :=
  [T_master; T_nodes; T_master; T_nodes; T_master; T_nodes].


(** ** What is left for a goroutine to do *)

Definition stored (code : list instr) : list error :=
  flat_map (fun i => match i with store_errs_append e => [e] | _ => [] end) code.

Definition assigned (code : list instr) : list (option Instance) :=
  flat_map (fun i => match i with assign_master m => [m] | _ => [] end) code.

Definition appended (code : list instr) : list Instance :=
  flat_map (fun i => match i with append_nodes m => [m] | _ => [] end) code.

Definition checks (code : list instr) : list runtime_panic :=
  flat_map (fun i => match i with runtime_check p => [p] | _ => [] end) code.

(** The instances of an answer before its first nil pointer. *)
Fixpoint before_nil (l : list (option Instance)) : list Instance :=
  match l with
  | Some i :: rest => i :: before_nil rest
  | _ => []
  end.

Definition has_nil (l : list (option Instance)) : bool :=
  existsb (fun o => match o with None => true | Some _ => false end) l.

(** A provisioning call answered without an error and with a nil pointer
    where a goroutine reads it: first in the answer for the master,
    anywhere in the answer for the nodes. *)
Definition nil_returned (tr : list event) : Prop :=
  (exists rest, provisioned api.RoleMaster tr = [(None :: rest, None)]) \/
  (exists l, provisioned api.RoleNode tr = [(l, None)] /\ In None l).

(** A goroutine whose call failed with [e] still has to store [e], or
    [errs] is not empty any more; one whose call succeeded stores none. *)
Definition err_inv (res : list (option Instance) * option error) (code : list instr)
           (sh : Shared) : Prop :=
  match snd res with
  | Some e => stored code = [e] \/ (stored code = [] /\ errs sh <> [])
  | None => stored code = []
  end.

(** The master goroutine, after the calls of [acc]. *)
Definition master_inv (acc : list event) (g : goroutine) (sh : Shared) : Prop :=
  match g with
  | Spawned opt body =>
    body = masterRoutine /\ CIO_Role opt = api.RoleMaster /\
    provisioned api.RoleMaster acc = [] /\ master sh = None
  | Running code regs =>
    exists res,
      provisioned api.RoleMaster acc = [res] /\
      incl (r_errs regs) (provision_errors acc) /\
      appended code = [] /\ err_inv res code sh /\
      match res with
      | (_, Some _) => checks code = [] /\ assigned code = [] /\ master sh = None
      | ([], None) => code = [runtime_check (IndexOutOfRange 0 0)]
      | (None :: _, None) =>
        checks code = [NilPointerDereference] /\ master sh = None /\
        (assigned code = [None] \/ assigned code = [])
      | (Some m :: _, None) =>
        checks code = [] /\
        (assigned code = [Some m] \/ (assigned code = [] /\ master sh = Some m))
      end
  end.

(** The nodes goroutine, after the calls of [acc]. *)
Definition nodes_inv (acc : list event) (g : goroutine) (sh : Shared) : Prop :=
  match g with
  | Spawned opt body =>
    body = nodesRoutine /\ CIO_Role opt = api.RoleNode /\
    provisioned api.RoleNode acc = [] /\ nodes sh = []
  | Running code regs =>
    exists res,
      provisioned api.RoleNode acc = [res] /\
      incl (r_errs regs) (provision_errors acc) /\
      assigned code = [] /\ err_inv res code sh /\
      match snd res with
      | Some _ => checks code = [] /\ appended code = [] /\ nodes sh = []
      | None =>
        checks code = (if has_nil (fst res) then [NilPointerDereference] else []) /\
        nodes sh ++ appended code = before_nil (fst res)
      end
  end.

Definition provisioning_inv (acc : list event) (gm gn : goroutine) (sh : Shared)
  : Prop :=
  master_inv acc gm sh /\ nodes_inv acc gn sh /\
  incl (errs sh) (provision_errors acc).

(** What holds at [wg.Wait()], or when a goroutine panicked. *)
Definition provisioning_post (tr : list event) (o : outcome Shared) : Prop :=
  match o with
  | Returned sh =>
    incl (errs sh) (provision_errors tr) /\
    (provision_errors tr <> [] -> errs sh <> []) /\
    ~ In ([], None) (provisioned api.RoleMaster tr) /\
    ~ nil_returned tr /\
    (provision_errors tr = [] ->
     exists m rest ns,
       provisioned api.RoleMaster tr = [(Some m :: rest, None)] /\
       provisioned api.RoleNode tr = [(map Some ns, None)] /\
       errs sh = [] /\ master sh = Some m /\ nodes sh = ns)
  | Crashed p =>
    (p = IndexOutOfRange 0 0 /\ provisioned api.RoleMaster tr = [([], None)]) \/
    (p = NilPointerDereference /\ nil_returned tr)
  end.

(** The master goroutine run to its end. *)
Definition master_finished (acc : list event) (gn : goroutine)
           (tr : list event) (o : outcome Shared) : Prop :=
  match o with
  | Returned sh => exists regs, provisioning_inv (acc ++ tr) (Running [] regs) gn sh
  | Crashed p => provisioning_post (acc ++ tr) (Crashed p)
  end.

Definition nodes_finished (acc : list event) (gm : goroutine)
           (tr : list event) (o : outcome Shared) : Prop :=
  match o with
  | Returned sh => exists regs, provisioning_inv (acc ++ tr) gm (Running [] regs) sh
  | Crashed p => provisioning_post (acc ++ tr) (Crashed p)
  end.


(** A call that reaches the instance service, the tagging of instances,
    a remote host or the local file system. *)
Definition is_loud (a : action) : bool :=
  is_provisioning a || is_tagging a || is_remote a || is_file_write a.

(** A trace of the preparation: tag lookup and creation, key handling
    and logging only. *)
Definition quiet (tr : list event) : Prop := none_of is_loud tr.

(** A trace of the provisioning goroutines: [CreateInstances] and logging. *)
Definition only_provisioning (tr : list event) : Prop :=
  none_of (fun a => negb (is_provisioning a || is_log a)) tr.

(** What tag resolution and key preparation leave behind: a quiet trace,
    and a returned error that is the one a collaborator returned. *)
Definition prepared {A : Type} (tr : list event) (o : outcome (A * option error))
  : Prop :=
  quiet tr /\
  match o with
  | Returned (_, Some e) => In e (returned_errors tr)
  | Returned (_, None) => returned_errors tr = []
  | Crashed _ => False
  end.

(** ** The node join and the export, as read from a trace *)

(** The remote runs of a loop that joined [joined], with their outputs. *)
Definition ok_runs (joinCmd : string) (joined : list Instance) (outs : list string)
  : list (string * string * (string * option error)) :=
  map (fun no => (IP (fst no), join_command joinCmd, (snd no, None)))
      (combine joined outs).

Definition joined_lines (joined : list Instance) : list (string * list string) :=
  map (fun n => ("%s has successfully joined the cluster", [IP n])) joined.

Definition failed_line (n : Instance) : string * list string :=
  ("Failed to join %s %s to cluster", [ID n; IP n]).

(** The join loop on [ns]: the nodes of [joined] were joined one after
    the other, in the order of [ns]; then either [ns] is exhausted, or the
    command failed on the next node [n], the failure is logged with the ID
    and address of [n], the error is returned and no later node is tried. *)
Definition join_loop (joinCmd : string) (ns : list Instance)
           (runs : list (string * string * (string * option error)))
           (errors infos : list (string * list string))
           (o : outcome (option error)) : Prop :=
  exists joined outs,
    length outs = length joined /\
    infos = joined_lines joined /\
    ((o = Returned None /\ ns = joined /\
      runs = ok_runs joinCmd joined outs /\ errors = [])
     \/
     (exists n rest out e,
         ns = joined ++ n :: rest /\ o = Returned (Some e) /\
         runs = ok_runs joinCmd joined outs
                ++ [(IP n, join_command joinCmd, (out, Some e))] /\
         errors = [failed_line n])).

Definition joinNodes_post (joinCmd : string) (ns : list Instance)
           (tr : list event) (o : outcome (option error)) : Prop :=
  none_of (fun a => negb (is_remote a || is_log a)) tr /\
  join_loop joinCmd ns (remote_runs tr) (logged ERROR tr) (logged INFO tr) o.

(** The remote runs of the join loop: the only commands that start with
    the swap-disable directive followed by a space. *)
Definition is_join_run (x : string * string * (string * option error)) : bool :=
  String.prefix "swapoff -a; " (snd (fst x)).

Definition join_runs (tr : list event)
  : list (string * string * (string * option error)) :=
  filter is_join_run (remote_runs tr).

(** The CNI apply, the second remote command of a run, returned without
    error: the run went on to the join loop. *)
Definition cni_applied (tr : list event) : Prop :=
  exists x ip cmd out rest,
    remote_runs tr = x :: (ip, cmd, (out, None)) :: rest.

(** The bootstrap, the first remote command of a run, returned without
    error an output whose join directive is [joinCmd]. *)
Definition directive_of (joinCmd : string) (tr : list event) : Prop :=
  exists ip cmd out,
    hd_error (remote_runs tr) = Some (ip, cmd, (out, None)) /\
    GetKubeJoinFromOutput out = Value joinCmd.

(** The node join of a run of [runCreate] whose nodes call returned [ns].
    Either the run ended before the join loop: the CNI apply did not
    return without error, no join command was run and the run does not
    return nil.  Or the loop was entered: the commands are built from the
    directive [joinCmd] extracted from the output of the bootstrap, and
    the nodes of [joined] were joined one after the other, in the order
    of [ns]; then either [ns] is exhausted, or the command failed on the
    next node [n], the run returns the error of that command as it is,
    the failure is logged with the ID and address of [n], and no later
    node is tried. *)
Definition joining (ns : list Instance) (tr : list event)
           (o : outcome (option error)) : Prop :=
  (~ cni_applied tr /\ join_runs tr = [] /\ o <> Returned None)
  \/
  (cni_applied tr /\
   exists joinCmd joined outs,
     length outs = length joined /\
     directive_of joinCmd tr /\
     ((joined = ns /\ join_runs tr = ok_runs joinCmd ns outs)
      \/
      (exists n rest out e,
          ns = joined ++ n :: rest /\ o = Returned (Some e) /\
          join_runs tr = ok_runs joinCmd joined outs
                         ++ [(IP n, join_command joinCmd, (out, Some e))] /\
          In (failed_line n) (logged ERROR tr)))).

(** The export of the kubeconfig in a run whose master is [m]: either
    nothing is written, and the run does not succeed if the export was
    asked for; or the export was asked for, the last remote command read
    the admin credential on the master, and the one file written is
    [<localPath>/kubeconfig] with these bytes and mode 0600. *)
Definition exported (opt : api.CreateClusterOption) (m : Instance)
           (tr : list event) (o : outcome (option error)) : Prop :=
  (files_written tr = [] /\
   (api.ScpKubeConfigToLocal opt = true -> o <> Returned None))
  \/
  (api.ScpKubeConfigToLocal opt = true /\
   exists data pre,
     remote_runs tr = pre ++ [(IP m, "cat /etc/kubernetes/admin.conf", (data, None))] /\
     files_written tr =
     [(api.LocalKubeConfigPath opt +++ "/kubeconfig", data, perm_0600)]).

(** The master in the second half of [runCreate]: no more provisioning,
    the first remote command goes to the master [m], and the only panic
    left is the slice of an output without the marker. *)
Definition master_used (m : Instance) (tr : list event)
           (o : outcome (option error)) : Prop :=
  none_of is_provisioning tr /\
  (forall x, hd_error (remote_runs tr) = Some x -> fst (fst x) = IP m) /\
  (forall p, o = Crashed p ->
             p = SliceBoundsOutOfRange (-1) /\
             exists ip cmd out,
               remote_runs tr = [(ip, cmd, (out, None))] /\
               ~ bytes.occurs marker out).

(** * Definitions for the further properties *)

(** ** Lines of a script *)

(** The lines of a text: each ends at a newline byte; a last line without
    one counts too. *)
Fixpoint split_lines (s : string) : list string :=
  match s with
  | EmptyString => []
  | String c r =>
    if (byte_val c =? 10)%N then "" :: split_lines r
    else match split_lines r with
         | [] => [String c ""]
         | l :: ls => String c l :: ls
         end
  end.

(** No byte of [s] is a newline. *)
Definition one_line (s : string) : Prop := all (fun b => b <> 10%N) s.

(** The lines [buildShellScripts] writes for [scripts], after its header. *)
Definition script_lines (scripts : list string) : string :=
  String.concat "" (map (fun s => s +++ nl) scripts).

(** ** More readings of a trace *)

(** The tag creations: the name and the answer. *)
Definition tag_creation_of (e : event) : list (string * (string * option error)) :=
  let 'Event a r := e in
  match a return result a -> list (string * (string * option error)) with
  | tag_CreateTag name => fun r => [(name, r)]
  | _ => fun _ => []
  end r.

Definition tag_creations (tr : list event) : list (string * (string * option error)) :=
  flat_map tag_creation_of tr.

(** The calls of [TagInstances]: tag ID, machines and answer. *)
Definition tagging_of (e : event) : list (string * list string * option error) :=
  let 'Event a r := e in
  match a return result a -> list (string * list string * option error) with
  | tag_TagInstances tagID machines => fun r => [(tagID, machines, r)]
  | _ => fun _ => []
  end r.

Definition taggings (tr : list event) : list (string * list string * option error) :=
  flat_map tagging_of tr.

(** The answers of [ssh.GetDefaultPublicKeyFile]. *)
Definition key_file_of (e : event) : list string :=
  let 'Event a r := e in
  match a return result a -> list string with
  | ssh_GetDefaultPublicKeyFile => fun r => [r]
  | _ => fun _ => []
  end r.

Definition key_files (tr : list event) : list string := flat_map key_file_of tr.

(** The local files read: path and answer. *)
Definition file_read_of (e : event) : list (string * (string * option error)) :=
  let 'Event a r := e in
  match a return result a -> list (string * (string * option error)) with
  | ioutil_ReadFile path => fun r => [(path, r)]
  | _ => fun _ => []
  end r.

Definition files_read (tr : list event) : list (string * (string * option error)) :=
  flat_map file_read_of tr.

(** The key pair lookups: name and answer. *)
Definition key_lookup_of (e : event) : list (string * (string * option error)) :=
  let 'Event a r := e in
  match a return result a -> list (string * (string * option error)) with
  | sshkey_GetKeyPairByName name => fun r => [(name, r)]
  | _ => fun _ => []
  end r.

Definition key_lookups (tr : list event) : list (string * (string * option error)) :=
  flat_map key_lookup_of tr.

(** The key pair creations: name, public key and answer. *)
Definition key_creation_of (e : event)
  : list (string * string * (string * option error)) :=
  let 'Event a r := e in
  match a return result a -> list (string * string * (string * option error)) with
  | sshkey_CreateSSHKey name publicKey => fun r => [(name, publicKey, r)]
  | _ => fun _ => []
  end r.

Definition key_creations (tr : list event)
  : list (string * string * (string * option error)) :=
  flat_map key_creation_of tr.

(** The initialisations of the access key helper: zone, configuration
    file and answer. *)
Definition init_call_of (e : event) : list (string * string * option error) :=
  let 'Event a r := e in
  match a return result a -> list (string * string * option error) with
  | accesskey_Init zone configFile => fun r => [(zone, configFile, r)]
  | _ => fun _ => []
  end r.

Definition init_calls (tr : list event) : list (string * string * option error) :=
  flat_map init_call_of tr.

(** The requests sent to the instance service. *)
Definition request_of (e : event) : list CreateInstancesOption :=
  match action_of e with
  | instance_CreateInstances opt => [opt]
  | _ => []
  end.

Definition requests (tr : list event) : list CreateInstancesOption :=
  flat_map request_of tr.

(** The IDs of the instances of an answer; a nil pointer has none. *)
Definition instance_ids (l : list (option Instance)) : list string :=
  flat_map (fun o => match o with Some i => [ID i] | None => [] end) l.

(** The IDs of the instances that the instance service returned. *)
Definition returned_ids_of (e : event) : list string :=
  let 'Event a r := e in
  match a return result a -> list string with
  | instance_CreateInstances _ => fun r => instance_ids (fst r)
  | _ => fun _ => []
  end r.

Definition returned_ids (tr : list event) : list string :=
  flat_map returned_ids_of tr.

(** A call that is not a log line. *)
Definition is_call (a : action) : bool := negb (is_log a).

Definition is_init (a : action) : bool :=
  match a with accesskey_Init _ _ => true | _ => false end.

Definition is_key_creation (a : action) : bool :=
  match a with sshkey_CreateSSHKey _ _ => true | _ => false end.

Definition is_key_service (a : action) : bool :=
  match a with
  | sshkey_GetKeyPairByName _ | sshkey_CreateSSHKey _ _ => true
  | _ => false
  end.

(** ** Stopping at the first error *)

(** The run stopped at the error [e]: no call before returned an error,
    a call other than the provisioning of instances returned [e], and
    only log lines follow. *)
Definition stops_at (e : error) (tr : list event) : Prop :=
  exists pre e0 rest,
    tr = pre ++ e0 :: rest /\ returned_errors pre = [] /\
    error_of e0 = Some e /\ is_provisioning (action_of e0) = false /\
    none_of is_call rest.

(** A step that returns a value with an error: it stops at the error it
    returns, and returns none when no call returned one. *)
Definition stops {A : Type} (tr : list event) (o : outcome (A * option error))
  : Prop :=
  match o with
  | Returned (_, None) => returned_errors tr = []
  | Returned (_, Some e) => stops_at e tr
  | Crashed _ => False
  end.

(** The same for a step that returns an error only. *)
Definition stops_with (tr : list event) (o : outcome (option error)) : Prop :=
  match o with
  | Returned None => returned_errors tr = []
  | Returned (Some e) => stops_at e tr
  | Crashed _ => False
  end.

(** How a run of [runCreate] for [opt] ends, by the errors that the
    collaborators returned. *)
Definition errors_returned (opt : api.CreateClusterOption)
           (tr : list event) (o : outcome (option error)) : Prop :=
  match o with
  | Returned None => returned_errors tr = []
  | Returned (Some e) =>
    stops_at e tr \/
    (returned_errors tr = [] /\
     (e = UnsupportedVersion (api.KubernetesVersion opt) \/
      e = MissingPodCIDR \/
      e = UnsupportedCNI (api.CNIName (api.Network opt)))) \/
    (exists errs,
        e = ProvisioningFailed errs /\ errs <> [] /\
        incl errs (provision_errors tr) /\
        returned_errors tr = provision_errors tr)
  | Crashed _ => returned_errors tr = provision_errors tr
  end.

(** ** The machine IDs on their way to [TagInstances] *)

(** The IDs a goroutine still has to append to [machines]. *)
Definition stored_ids (code : list instr) : list string :=
  flat_map (fun i => match i with store_machines_append id => [id] | _ => [] end) code.

(** After the calls of [acc], whatever a goroutine has loaded from
    [machines] or will append to it is the ID of a returned instance. *)
Definition ids_inv (acc : list event) (g : goroutine) : Prop :=
  match g with
  | Spawned _ body => body = masterRoutine \/ body = nodesRoutine
  | Running code regs =>
    incl (r_machines regs) (returned_ids acc) /\
    incl (stored_ids code) (returned_ids acc)
  end.

(** Where the tag ID of a run for the cluster [name] comes from: the tag
    that the lookup found, or the creation of the tag. *)
Definition tag_source (name tagID : string) (tr : list event) : Prop :=
  (exists t, In (tagName name, (Some t, None)) (tag_lookups tr) /\ tagID = TagID t) \/
  In (tagName name, (tagID, None)) (tag_creations tr).

(** Where the key ID of a run comes from: the lookup of the key pair, or
    its creation. *)
Definition key_source (keyid : string) (tr : list event) : Prop :=
  In (api.SSHKeyName, (keyid, None)) (key_lookups tr) \/
  exists pub, In (api.SSHKeyName, pub, (keyid, None)) (key_creations tr).

(** The machines at the barrier when the two goroutines ran one after
    the other: the master, then the nodes. *)
Definition machines_in_order (sh : Shared) : Prop :=
  machines sh
  = match master sh with Some m => [ID m] | None => [] end ++ map ID (nodes sh).

(** At the barrier, every machine ID is the ID of a returned instance. *)
Definition machines_known (acc : list event) (tr : list event) (o : outcome Shared)
  : Prop :=
  match o with
  | Returned sh => incl (machines sh) (returned_ids (acc ++ tr))
  | Crashed _ => True
  end.


(** ** The order of the calls *)

(** Every call that satisfies [Q] comes after an event that satisfies [P]. *)
Definition preceded_by (P : event -> bool) (Q : action -> bool) (tr : list event)
  : Prop :=
  forall a e b, tr = a ++ e :: b -> Q (action_of e) = true -> existsb P a = true.

(** The tag lookup found the tag, or the tag was created. *)
Definition tag_ready (e : event) : bool :=
  match tag_lookup_of e, tag_creation_of e with
  | [(_, (Some _, None))], _ => true
  | _, [(_, (_, None))] => true
  | _, _ => false
  end.

(** The key pair lookup found a key, or the key pair was created. *)
Definition key_ready (e : event) : bool :=
  match key_lookup_of e, key_creation_of e with
  | [(_, (key, None))], _ => negb (String.eqb key "")
  | _, [(_, _, (_, None))] => true
  | _, _ => false
  end.

(** The instance service answered a request for [role] without error. *)
Definition provisioned_ok (role : api.Role) (e : event) : bool :=
  match provisioned_of role e with
  | [(_, None)] => true
  | _ => false
  end.

(** [TagInstances] returned without error. *)
Definition tagged_ok (e : event) : bool :=
  match tagging_of e with
  | [(_, _, None)] => true
  | _ => false
  end.

(** The order of the stages of a run. *)
Definition in_stages (tr : list event) : Prop :=
  preceded_by tag_ready is_provisioning tr /\
  preceded_by key_ready is_provisioning tr /\
  preceded_by (provisioned_ok api.RoleMaster) is_tagging tr /\
  preceded_by (provisioned_ok api.RoleNode) is_tagging tr /\
  preceded_by tagged_ok (fun a => is_remote a || is_file_write a) tr.

(** ** The requests of the two goroutines *)

(** The request a goroutine has still to send. *)
Definition pending (g : goroutine) : list CreateInstancesOption :=
  match g with
  | Spawned opt _ => [opt]
  | Running _ _ => []
  end.

(** [l] is made of [a] and [b], in one of the two orders. *)
Definition either_order {A : Type} (l a b : list A) : Prop :=
  l = a ++ b \/ l = b ++ a.

(** The requests that the goroutines [gm] and [gn] send: at the barrier,
    each has sent its request; when a goroutine panicked, the request of
    either may be missing. *)
Definition requested (gm gn : goroutine) (tr : list event) (o : outcome Shared)
  : Prop :=
  match o with
  | Returned _ => either_order (requests tr) (pending gm) (pending gn)
  | Crashed _ =>
    exists pm pn,
      (pm = pending gm \/ pm = []) /\ (pn = pending gn \/ pn = []) /\
      either_order (requests tr) pm pn
  end.

(** The requests of a run of [runCreate] for [opt]: none, or the request
    [M] for the master and the request [N] for the nodes, in either
    order; one of the two alone only when the goroutine that sent it
    panicked, on an empty answer ([M] only) or on a nil pointer in the
    answer. *)
Definition two_requests (opt : api.CreateClusterOption)
           (tr : list event) (o : outcome (option error)) : Prop :=
  requests tr = [] \/
  exists keyid preset,
    key_source keyid tr /\
    api.map_get api.PresetKubernetes (api.KubernetesVersion opt) = Some preset /\
    let M := {| Name := api.ClusterName opt; CIO_VxNet := api.VxNet opt;
                Count := 1; CIO_Role := api.RoleMaster; ImagesPreset := preset;
                CIO_InstanceClass := api.InstanceClass opt; SSHKeyID := keyid |} in
    let N := {| Name := api.ClusterName opt; CIO_VxNet := api.VxNet opt;
                Count := api.NodeCount opt; CIO_Role := api.RoleNode;
                ImagesPreset := preset;
                CIO_InstanceClass := api.InstanceClass opt; SSHKeyID := keyid |} in
    (requests tr = [M; N] \/ requests tr = [N; M] \/
     (requests tr = [M] /\
      ((o = Crashed (IndexOutOfRange 0 0) /\
        provisioned api.RoleMaster tr = [([], None)]) \/
       (o = Crashed NilPointerDereference /\
        exists rest, provisioned api.RoleMaster tr = [(None :: rest, None)]))) \/
     (requests tr = [N] /\ o = Crashed NilPointerDereference /\
      exists l, provisioned api.RoleNode tr = [(l, None)] /\ In None l)).

(** ** The remote commands of a run *)

(** The hosts and commands of the remote runs, without the answers. *)
Definition commands (tr : list event) : list (string * string) :=
  map fst (remote_runs tr).

(** The remote commands of a run of [runCreate] for [opt] that returns
    nil, with the master [m] and the nodes [ns]. *)
Definition commands_of_success (opt : api.CreateClusterOption) (m : Instance)
           (ns : list Instance) (joinCmd : string) : list (string * string) :=
  (IP m, "swapoff -a;kubeadm init --pod-network-cidr="
         +++ api.PodNetWorkCIDR (api.Network opt)
         +++ " --kubernetes-version=v" +++ api.KubernetesVersion opt)
  :: (IP m, "kubectl --kubeconfig=/etc/kubernetes/admin.conf apply -f /root/CNI/"
            +++ api.CNIName (api.Network opt) +++ "/")
  :: map (fun n => (IP n, "swapoff -a; " +++ joinCmd)) ns
  ++ (if api.ScpKubeConfigToLocal opt
      then [(IP m, "cat /etc/kubernetes/admin.conf")] else []).

(** How a run of [runCreate] can panic: in the master goroutine on an
    empty answer, in either goroutine on a nil pointer in its answer, or
    in the bootstrap on an output without the marker. *)
Definition panics_explained (tr : list event) (p : runtime_panic) : Prop :=
  (p = IndexOutOfRange 0 0 /\
   In ([], None) (provisioned api.RoleMaster tr) /\
   taggings tr = [] /\ remote_runs tr = [] /\ files_written tr = [])
  \/
  (p = NilPointerDereference /\
   nil_returned tr /\
   taggings tr = [] /\ remote_runs tr = [] /\ files_written tr = [])
  \/
  (p = SliceBoundsOutOfRange (-1) /\
   exists m rest tagID ms cmd out,
     provisioned api.RoleMaster tr = [(Some m :: rest, None)] /\
     taggings tr = [(tagID, ms, None)] /\
     remote_runs tr = [(IP m, cmd, (out, None))] /\
     ~ occurs marker out /\ files_written tr = []).

(** What a run of [runCreate] hands to [TagInstances]. *)
Definition tagged_once (opt : api.CreateClusterOption)
           (tr : list event) (o : outcome (option error)) : Prop :=
  taggings tr = [] \/
  exists tagID ms ans,
    taggings tr = [(tagID, ms, ans)] /\
    tag_source (api.ClusterName opt) tagID tr /\
    incl ms (returned_ids tr) /\
    provision_errors tr = [] /\
    forall e, ans = Some e ->
              o = Returned (Some e) /\ remote_runs tr = [] /\ files_written tr = [].


(** What a run of [runCreate] hands to [TagInstances] when the master
    goroutine finished before the nodes goroutine started. *)
Definition tagged_in_order (tr : list event) (o : outcome (option error)) : Prop :=
  forall tagID ms ans,
    In (tagID, ms, ans) (taggings tr) ->
    exists m rest ns,
      provisioned api.RoleMaster tr = [(Some m :: rest, None)] /\
      provisioned api.RoleNode tr = [(map Some ns, None)] /\
      ms = ID m :: map ID ns.

(** ** ASCII texts *)

(** Every byte of [s] is ASCII. *)
Definition ascii_only (s : string) : Prop := all (fun b => (b < 0x80)%N) s.

(** A text that ends with a byte that is ASCII and not a space. *)
Definition ends_unspaced (t : string) : Prop :=
  exists t' c, t = t' +++ String c "" /\
               strings.asciiSpace (byte_val c) = false /\ (byte_val c < 0x80)%N.

(** ** The bootstrap of the master *)

(** What [bootstrapMaster] does on the master [m] with the init command
    [cmd]: one remote command, whose output is logged at verbosity 1 as
    the last thing before the function is left, however it is left. *)
Definition bootstrapped (m : Instance) (cmd : string) (tr : list event)
           (o : outcome (string * option error)) : Prop :=
  exists out err pre,
    remote_runs tr = [(IP m, "swapoff -a;" +++ cmd, (out, err))] /\
    tr = pre ++ [Event (klog (V 1) out []) tt] /\
    logged (V 1) tr = [(out, [])] /\
    match err with
    | Some e => o = Returned ("", Some e)
    | None =>
      match GetKubeJoinFromOutput out with
      | Value joinCmd => o = Returned (joinCmd, None)
      | Panics p => o = Crashed p
      end
    end.

(** * Properties *)

(** ** Running and [always] *)

Lemma run_bind {S A B : Type} (h : handler S) (p : Prog A) (f : A -> Prog B) (s : S) :
  run h (bind p f) s =
  let r1 := run h p s in
  match result_of r1 with
  | Returned a =>
    let r2 := run h (f a) (final r1) in
    mkRun (result_of r2) (final r2) (trace r1 ++ trace r2)
  | Crashed q => mkRun (Crashed q) (final r1) (trace r1)
  end.
Proof.
  revert s. induction p as [a | q | a k IH]; intros s; simpl.
  - destruct (run h (f a) s); reflexivity.
  - reflexivity.
  - destruct (h a s) as [r s1]. rewrite IH. simpl.
    destruct (result_of (run h (k r) s1)); reflexivity.
Qed.

Lemma always_sound {S A : Type} (p : Prog A) (Q : list event -> outcome A -> Prop) :
  always p Q ->
  forall (h : handler S) (s : S), Q (trace (run h p s)) (result_of (run h p s)).
Proof.
  revert Q. induction p as [a | q | a k IH]; intros Q H h s; simpl in *.
  - exact H.
  - exact H.
  - destruct (h a s) as [r s1]. simpl. apply (IH r _ (H r)).
Qed.

Lemma always_mono {A : Type} (p : Prog A) (Q1 Q2 : list event -> outcome A -> Prop) :
  always p Q1 -> (forall tr o, Q1 tr o -> Q2 tr o) -> always p Q2.
Proof.
  revert Q1 Q2. induction p as [a | q | a k IH]; intros Q1 Q2 H HQ; simpl in *.
  - apply HQ, H.
  - apply HQ, H.
  - intros r. eapply IH; [apply H|]. intros; apply HQ; assumption.
Qed.

Lemma always_conj {A : Type} (p : Prog A) (Q1 Q2 : list event -> outcome A -> Prop) :
  always p Q1 -> always p Q2 -> always p (fun tr o => Q1 tr o /\ Q2 tr o).
Proof.
  revert Q1 Q2. induction p as [a | q | a k IH]; intros Q1 Q2 H1 H2; simpl in *.
  - split; assumption.
  - split; assumption.
  - intros r. apply (IH r _ _ (H1 r) (H2 r)).
Qed.

Lemma always_bind {A B : Type} (p : Prog A) (f : A -> Prog B)
      (Q : list event -> outcome B -> Prop) :
  always p (fun tr o =>
    match o with
    | Returned a => always (f a) (fun tr' o' => Q (tr ++ tr') o')
    | Crashed q => Q tr (Crashed q)
    end) ->
  always (bind p f) Q.
Proof.
  revert Q. induction p as [a | q | a k IH]; intros Q H; simpl in *.
  - exact H.
  - exact H.
  - intros r. apply IH. apply H.
Qed.

Lemma always_call {A : Type} (a : action) (f : result a -> Prog A)
      (Q : list event -> outcome A -> Prop) :
  (forall r, always (f r) (fun tr o => Q (Event a r :: tr) o)) ->
  always (bind (call a) f) Q.
Proof. intros H. simpl. exact H. Qed.

(** ** Byte strings: [take], [drop], prefixes and occurrences *)
Module bytes_facts.
Import bytes.

Lemma append_nil_r (s : string) : s +++ "" = s.
Proof. induction s; simpl; congruence. Qed.

Lemma append_assoc (a b c : string) : (a +++ b) +++ c = a +++ b +++ c.
Proof. induction a; simpl; congruence. Qed.

Lemma length_append (a b : string) :
  String.length (a +++ b) = String.length a + String.length b.
Proof. induction a; simpl; congruence. Qed.

Lemma take_drop (n : nat) (s : string) : take n s +++ drop n s = s.
Proof. revert s; induction n; intros [|c s]; simpl; try rewrite IHn; reflexivity. Qed.

Lemma length_drop (n : nat) (s : string) :
  String.length (drop n s) = String.length s - n.
Proof. revert s; induction n; intros [|c s]; simpl; auto. Qed.

Lemma length_take (n : nat) (s : string) :
  String.length (take n s) = Nat.min n (String.length s).
Proof. revert s; induction n; intros [|c s]; simpl; auto. Qed.

Lemma drop_append (u v : string) : drop (String.length u) (u +++ v) = v.
Proof. induction u; simpl; auto. Qed.

Lemma take_append (u v : string) : take (String.length u) (u +++ v) = u.
Proof. induction u; simpl; congruence. Qed.

Lemma drop_all (n : nat) (s : string) : String.length s <= n -> drop n s = "".
Proof.
  revert s; induction n; intros [|c s] H; simpl in *; auto; try lia.
  apply IHn; lia.
Qed.

Lemma take_all (n : nat) (s : string) : String.length s <= n -> take n s = s.
Proof.
  revert s; induction n; intros [|c s] H; simpl in *; auto; try lia.
  rewrite IHn; auto; lia.
Qed.

Lemma drop_drop (n m : nat) (s : string) : drop n (drop m s) = drop (m + n) s.
Proof.
  revert s; induction m; intros s; simpl; auto.
  destruct s; simpl; auto. destruct n; reflexivity.
Qed.

Lemma drop_take (n m : nat) (s : string) :
  drop n (take m s) = take (m - n) (drop n s).
Proof.
  revert m s; induction n; intros m s; simpl.
  - rewrite Nat.sub_0_r; reflexivity.
  - destruct m, s; simpl; auto. destruct (m - n); reflexivity.
Qed.

Lemma take_take (n m : nat) (s : string) : n <= m -> take n (take m s) = take n s.
Proof.
  revert m s; induction n; intros m s H; simpl; auto.
  destruct m; [lia|]. destruct s; simpl; auto. rewrite IHn; auto; lia.
Qed.

Lemma take_S (n : nat) (s : string) (c : ascii) (r : string) :
  drop n s = String c r -> take (S n) s = take n s +++ String c "".
Proof.
  revert s; induction n; intros s H; simpl in *.
  - subst; reflexivity.
  - destruct s; [discriminate|]. simpl. f_equal. apply IHn, H.
Qed.

Lemma drop_S (n : nat) (s : string) (c : ascii) (r : string) :
  drop n s = String c r -> drop (S n) s = r.
Proof.
  revert s; induction n; intros s H; simpl in *.
  - subst; reflexivity.
  - destruct s; [discriminate|]. apply IHn, H.
Qed.

Lemma drop_cons (n : nat) (s : string) :
  n < String.length s -> exists c r, drop n s = String c r.
Proof.
  revert s; induction n; intros [|c s] H; simpl in *; try lia; eauto.
  apply IHn; lia.
Qed.

Lemma at_drop (n : nat) (s : string) (c : ascii) (r : string) :
  drop n s = String c r -> at_ s (Z.of_nat n) = byte_val c.
Proof.
  intros H. unfold at_.
  destruct (Z.ltb_spec (Z.of_nat n) 0) as [Hn|Hn]; [lia|]. clear Hn.
  rewrite Nat2Z.id.
  revert s H; induction n; intros s H; simpl in *.
  - subst; reflexivity.
  - destruct s; [discriminate|]. simpl. apply IHn, H.
Qed.

Lemma all_append (P : N -> Prop) (a b : string) :
  all P (a +++ b) <-> all P a /\ all P b.
Proof. induction a; simpl; tauto. Qed.

Lemma all_drop (P : N -> Prop) (n : nat) (s : string) : all P s -> all P (drop n s).
Proof.
  intros H. rewrite <- (take_drop n s) in H. apply all_append in H. tauto.
Qed.

Lemma all_take (P : N -> Prop) (n : nat) (s : string) : all P s -> all P (take n s).
Proof.
  intros H. rewrite <- (take_drop n s) in H. apply all_append in H. tauto.
Qed.

Lemma prefix_iff (p s : string) :
  String.prefix p s = true <-> exists v, s = p +++ v.
Proof.
  revert s; induction p as [|c p IH]; intros s.
  - simpl. split; [eauto | destruct s; reflexivity].
  - destruct s as [|d s]; simpl;
      [split; [discriminate | intros [v H]; discriminate]|].
    destruct (ascii_dec c d) as [Heq|Hne].
    + subst d. split.
      * intros H. apply IH in H. destruct H as [v H]. exists v; congruence.
      * intros [v H]. apply IH. exists v; congruence.
    + split; [discriminate | intros [v H]; congruence].
Qed.

(** An occurrence at offset [i] is a prefix of the rest from [i]. *)
Lemma occurs_at_iff (sub s : string) (i : nat) :
  occurs_at sub s i <->
  i <= String.length s /\ String.prefix sub (drop i s) = true.
Proof.
  unfold occurs_at. split.
  - intros (u & v & -> & <-). rewrite drop_append, length_append.
    split; [lia | apply prefix_iff; eauto].
  - intros [Hi Hp]. apply prefix_iff in Hp. destruct Hp as [v Hv].
    exists (take i s), v. split.
    + rewrite <- Hv. symmetry; apply take_drop.
    + rewrite length_take. lia.
Qed.

End bytes_facts.

(** ** [strings.LastIndex] finds the last occurrence *)
Module LastIndex_facts.
Import bytes bytes_facts.

Lemma LastIndex_from_spec (s substr : string) (i : Z) :
  (0 <= i)%Z ->
  (strings.LastIndex_from s substr i = (-1)%Z /\
   forall k, k <= String.length s -> String.prefix substr (drop k s) = false)
  \/
  (exists k,
      strings.LastIndex_from s substr i = (i + Z.of_nat k)%Z /\
      k <= String.length s /\
      String.prefix substr (drop k s) = true /\
      forall k', k < k' -> k' <= String.length s ->
                 String.prefix substr (drop k' s) = false).
Proof.
  revert i. induction s as [|c t IH]; intros i Hi.
  - cbn [strings.LastIndex_from].
    destruct (String.prefix substr "") eqn:Hp.
    + right. exists 0. simpl. repeat split; auto; try lia.
    + left. split; auto. intros k Hk. simpl in Hk.
      replace k with 0 by lia. exact Hp.
  - cbn [strings.LastIndex_from].
    destruct (IH (i + 1)%Z ltac:(lia)) as [[Hnone Hall] | (k & Hk & Hle & Hp & Hlast)].
    + rewrite Hnone. cbn [Z.leb Z.compare].
      destruct (String.prefix substr (String c t)) eqn:Hp.
      * right. exists 0. repeat split; simpl; auto; try lia.
        intros [|k'] H1 H2; [lia|]. simpl. apply Hall. lia.
      * left. split; auto. intros [|k] Hk; simpl; auto.
        apply Hall. simpl in Hk. lia.
    + rewrite Hk.
      destruct (Z.leb_spec 0 (i + 1 + Z.of_nat k)); [|lia].
      right. exists (S k). repeat split; simpl; auto; try lia.
      intros [|k'] H1 H2; [lia|]. simpl. apply Hlast; simpl in H2; lia.
Qed.

(** No occurrence: [LastIndex] is [-1]. *)
Lemma LastIndex_absent (s substr : string) :
  ~ occurs substr s -> strings.LastIndex s substr = (-1)%Z.
Proof.
  intros Hno. unfold strings.LastIndex.
  destruct (LastIndex_from_spec s substr 0 ltac:(lia))
    as [[Hnone _] | (k & _ & Hle & Hp & _)]; auto.
  exfalso. apply Hno. exists k. apply occurs_at_iff; auto.
Qed.

(** An occurrence: [LastIndex] is the offset of the last one. *)
Lemma LastIndex_present (s substr : string) :
  occurs substr s ->
  exists k, strings.LastIndex s substr = Z.of_nat k /\
            occurs_at substr s k /\
            forall k', k < k' -> ~ occurs_at substr s k'.
Proof.
  intros [j Hj]. unfold strings.LastIndex.
  destruct (LastIndex_from_spec s substr 0 ltac:(lia))
    as [[_ Hall] | (k & Hk & Hle & Hp & Hlast)].
  - apply occurs_at_iff in Hj. destruct Hj as [Hle Hp].
    rewrite (Hall j Hle) in Hp. discriminate.
  - exists k. split; [rewrite Hk; lia|]. split.
    + apply occurs_at_iff; auto.
    + intros k' Hlt Hocc. apply occurs_at_iff in Hocc.
      destruct Hocc as [Hle' Hp']. rewrite (Hlast k' Hlt Hle') in Hp'.
      discriminate.
Qed.

End LastIndex_facts.

(** ** [strings.TrimSpace] cuts only space bytes and bytes of multi-byte runes *)
Module utf8_facts.
Import bytes bytes_facts.

Lemma first_ascii (b : N) : utf8.first b = utf8.as_ascii -> (b < 0x80)%N.
Proof.
  unfold utf8.first.
  repeat match goal with
         | |- context [(?x <? ?y)%N] => destruct (N.ltb_spec x y)
         | |- context [(?x <=? ?y)%N] => destruct (N.leb_spec x y)
         | |- context [(?x =? ?y)%N] => destruct (N.eqb_spec x y)
         end; intros Hx; try discriminate; assumption.
Qed.

Lemma first_lead (b : N) (sz : nat) (lo hi : N) :
  utf8.first b = utf8.lead sz lo hi ->
  (0x80 <= b)%N /\ (0x80 <= lo)%N /\ 2 <= sz <= 4.
Proof.
  unfold utf8.first.
  repeat match goal with
         | |- context [(?x <? ?y)%N] => destruct (N.ltb_spec x y)
         | |- context [(?x <=? ?y)%N] => destruct (N.leb_spec x y)
         | |- context [(?x =? ?y)%N] => destruct (N.eqb_spec x y)
         end; intros Hx; try discriminate; inversion Hx; subst; lia.
Qed.

Lemma IsSpace_ascii (b : N) :
  (b < 0x80)%N -> unicode.IsSpace b = true -> strings.asciiSpace b = true.
Proof.
  intros Hb. unfold unicode.IsSpace, strings.asciiSpace, unicode.MaxLatin1.
  destruct (N.leb_spec b 255); [|lia].
  destruct (N.eqb_spec b 133); [lia|].
  destruct (N.eqb_spec b 160); [lia|].
  rewrite !orb_false_r. auto.
Qed.

Lemma IsSpace_RuneError : unicode.IsSpace utf8.RuneError = false.
Proof. reflexivity. Qed.

Lemma decode_first (s : string) (r : N) (size : nat) :
  s <> "" ->
  utf8.DecodeRuneInString s = (r, size) ->
  1 <= size <= String.length s /\
  all spaceish (drop 1 (take size s)) /\
  (unicode.IsSpace r = true -> all spaceish (take size s)).
Proof.
  intros Hne. destruct s as [|c0 t0]; [congruence|]. clear Hne.
  unfold utf8.DecodeRuneInString.
  destruct (utf8.first (byte_val c0)) as [| |sz lo hi] eqn:Hf.
  - intros H; inversion H; subst. apply first_ascii in Hf.
    cbn [take drop all String.length]. split; [lia|]. split; [exact I|].
    intros Hs. split; [|exact I]. left. apply IsSpace_ascii; auto.
  - intros H; inversion H; subst.
    cbn [take drop all String.length]. split; [lia|]. split; [exact I|].
    rewrite IsSpace_RuneError. discriminate.
  - apply first_lead in Hf. destruct Hf as (H0 & Hlo & Hsz).
    assert (Herr' : (utf8.RuneError, 1) = (r, size) ->
              1 <= size <= String.length (String c0 t0) /\
              all spaceish (drop 1 (take size (String c0 t0))) /\
              (unicode.IsSpace r = true -> all spaceish (take size (String c0 t0)))).
    { intros H; inversion H; subst.
      cbn [take drop all String.length]. split; [lia|]. split; [exact I|].
      rewrite IsSpace_RuneError. discriminate. }
    destruct (Nat.ltb_spec (String.length (String c0 t0)) sz) as [Hl|Hl]; [exact Herr'|].
    destruct t0 as [|c1 t1]; [exact Herr'|].
    destruct (N.ltb_spec (byte_val c1) lo) as [H1|H1]; [exact Herr'|].
    destruct (N.ltb_spec hi (byte_val c1)) as [H1'|H1']; [exact Herr'|].
    cbn [orb].
    destruct (Nat.leb_spec sz 2) as [Hs2|Hs2].
    { intros H; inversion H; subst.
      cbn [take drop all String.length] in *.
      unfold spaceish; repeat split; try lia; try (right; lia). }
    destruct t1 as [|c2 t2]; [exact Herr'|].
    unfold utf8.locb, utf8.hicb.
    destruct (N.ltb_spec (byte_val c2) 128) as [H2|H2]; [exact Herr'|].
    destruct (N.ltb_spec 191 (byte_val c2)) as [H2'|H2']; [exact Herr'|].
    cbn [orb].
    destruct (Nat.leb_spec sz 3) as [Hs3|Hs3].
    { intros H; inversion H; subst.
      cbn [take drop all String.length] in *.
      unfold spaceish; repeat split; try lia; try (right; lia). }
    destruct t2 as [|c3 t3]; [exact Herr'|].
    destruct (N.ltb_spec (byte_val c3) 128) as [H3|H3]; [exact Herr'|].
    destruct (N.ltb_spec 191 (byte_val c3)) as [H3'|H3']; [exact Herr'|].
    cbn [orb].
    intros H; inversion H; subst.
    cbn [take drop all String.length] in *.
    unfold spaceish; repeat split; try lia; try (right; lia).
Qed.

Lemma scan_back_le (s : string) (trips : nat) (start : Z) :
  (utf8.scan_back s trips start <= start)%Z.
Proof.
  revert start; induction trips as [|k IH]; intros start; simpl; [lia|].
  destruct (utf8.RuneStart (at_ s start)); [lia|].
  specialize (IH (start - 1)%Z). lia.
Qed.

Lemma decode_last (t : string) (r : N) (size : nat) :
  t <> "" ->
  utf8.DecodeLastRuneInString t = (r, size) ->
  1 <= size <= String.length t /\
  all spaceish (drop (String.length t - size + 1) t) /\
  (unicode.IsSpace r = true -> all spaceish (drop (String.length t - size) t)).
Proof.
  intros Hne.
  assert (Hlen : 1 <= String.length t) by (destruct t; simpl; [congruence|lia]).
  assert (Herr : (utf8.RuneError, 1) = (r, size) ->
            1 <= size <= String.length t /\
            all spaceish (drop (String.length t - size + 1) t) /\
            (unicode.IsSpace r = true -> all spaceish (drop (String.length t - size) t))).
  { intros H; inversion H; subst. split; [lia|]. split.
    - rewrite drop_all by lia. exact I.
    - rewrite IsSpace_RuneError. discriminate. }
  unfold utf8.DecodeLastRuneInString, len.
  destruct (Z.eqb_spec (Z.of_nat (String.length t)) 0) as [H0|H0]; [lia|].
  destruct (drop_cons (String.length t - 1) t ltac:(lia)) as (c & rest & Hc).
  assert (Hrest : rest = "").
  { pose proof (length_drop (String.length t - 1) t) as Hl.
    rewrite Hc in Hl. simpl in Hl. destruct rest; [reflexivity|simpl in Hl; lia]. }
  subst rest.
  replace (Z.of_nat (String.length t) - 1)%Z with (Z.of_nat (String.length t - 1)) by lia.
  rewrite (at_drop _ _ _ _ Hc).
  destruct (N.ltb_spec (byte_val c) utf8.RuneSelf) as [Hlt|Hge].
  - intros H; inversion H; subst. split; [lia|]. split.
    + rewrite drop_all by lia. exact I.
    + intros Hs. rewrite Hc. split; [|exact I]. left.
      apply IsSpace_ascii; auto.
  - set (lim := (if (Z.of_nat (String.length t) - utf8.UTFMax <? 0)%Z
                 then 0%Z else (Z.of_nat (String.length t) - utf8.UTFMax)%Z)).
    set (st := utf8.scan_back t (Z.to_nat (Z.of_nat (String.length t - 1) - lim))
                              (Z.of_nat (String.length t - 1) - 1)).
    pose proof (scan_back_le t (Z.to_nat (Z.of_nat (String.length t - 1) - lim))
                             (Z.of_nat (String.length t - 1) - 1)) as Hst.
    fold st in Hst.
    set (start := (if (st <? 0)%Z then 0%Z else st)).
    assert (Hstart : (0 <= start < Z.of_nat (String.length t))%Z).
    { unfold start. destruct (Z.ltb_spec st 0); lia. }
    destruct (utf8.DecodeRuneInString (drop (Z.to_nat start) t)) as [r' size'] eqn:Hd.
    destruct (Z.eqb_spec (start + Z.of_nat size') (Z.of_nat (String.length t))) as [He|He];
      [|exact Herr].
    intros H; inversion H; subst r' size'. clear H.
    assert (Hu : drop (Z.to_nat start) t <> "").
    { intros Hu. pose proof (length_drop (Z.to_nat start) t) as Hl.
      rewrite Hu in Hl. simpl in Hl. lia. }
    destruct (decode_first _ _ _ Hu Hd) as (Hsz & Hmid & Hsp).
    rewrite length_drop in Hsz.
    assert (Hn : String.length t - size = Z.to_nat start) by lia.
    rewrite take_all in Hmid, Hsp by (rewrite length_drop; lia).
    rewrite Hn. split; [lia|]. split; [|exact Hsp].
    rewrite drop_drop in Hmid. exact Hmid.
Qed.

Lemma drop_append_le (j : nat) (a b : string) :
  j <= String.length a -> drop j (a +++ b) = drop j a +++ b.
Proof.
  revert a; induction j; intros a H; simpl; auto.
  destruct a; simpl in *; [lia|]. apply IHj; lia.
Qed.

(** The range loop of [indexFunc] over leading spaces. *)
Lemma indexFunc_from_spec (s : string) (skip : nat) (i : Z) :
  all spaceish (take skip s) ->
  (strings.indexFunc_from unicode.IsSpace false s skip i = (-1)%Z /\ all spaceish s)
  \/
  (exists k, strings.indexFunc_from unicode.IsSpace false s skip i = (i + Z.of_nat k)%Z /\
             k <= String.length s /\ all spaceish (take k s)).
Proof.
  revert skip i. induction s as [|c t IH]; intros skip i Hskip.
  - left. simpl. auto.
  - cbn [strings.indexFunc_from]. destruct skip as [|k].
    + destruct (utf8.DecodeRuneInString (String c t)) as [r size] eqn:Hd.
      assert (Hne : String c t <> "") by discriminate.
      destruct (decode_first _ _ _ Hne Hd) as (Hsz & _ & Hsp).
      destruct (unicode.IsSpace r) eqn:Hr; cbn [Bool.eqb].
      * specialize (Hsp eq_refl). destruct size as [|size]; [lia|].
        cbn [take all] in Hsp. destruct Hsp as [Hc Ht].
        replace (S size - 1) with size by lia.
        destruct (IH size (i + 1)%Z Ht) as [[Hn Ha] | (k & Hk & Hle & Ha)].
        -- left. split; [exact Hn|]. simpl. auto.
        -- right. exists (S k). rewrite Hk. simpl. repeat split; auto; lia.
      * right. exists 0. simpl. repeat split; auto; lia.
    + cbn [take all] in Hskip. destruct Hskip as [Hc Ht].
      destruct (IH k (i + 1)%Z Ht) as [[Hn Ha] | (k' & Hk & Hle & Ha)].
      * left. split; [exact Hn|]. simpl. auto.
      * right. exists (S k'). rewrite Hk. simpl. repeat split; auto; lia.
Qed.

Lemma TrimLeftFunc_spec (s : string) :
  exists p, s = p +++ strings.TrimLeftFunc s unicode.IsSpace /\ all spaceish p.
Proof.
  unfold strings.TrimLeftFunc, strings.indexFunc.
  destruct (indexFunc_from_spec s 0 0 I) as [[Hn Ha] | (k & Hk & Hle & Ha)].
  - rewrite Hn. cbn [Z.eqb]. exists s. rewrite append_nil_r. auto.
  - rewrite Hk. destruct (Z.eqb_spec (0 + Z.of_nat k) (-1)); [lia|].
    replace (Z.to_nat (0 + Z.of_nat k)) with k by lia.
    exists (take k s). rewrite take_drop. auto.
Qed.

(** The loop of [lastIndexFunc] over trailing spaces. *)
Lemma lastIndexFunc_from_spec (s : string) (i skip : nat) :
  i <= String.length s -> skip <= i ->
  all spaceish (drop (i - skip) (take i s)) ->
  (strings.lastIndexFunc_from unicode.IsSpace false s i skip = (-1)%Z /\
   all spaceish (take i s))
  \/
  (exists k, strings.lastIndexFunc_from unicode.IsSpace false s i skip = Z.of_nat k /\
             k < i /\ all spaceish (drop (k + 1) (take i s))).
Proof.
  revert skip. induction i as [|i IH]; intros skip Hi Hskip Hall.
  - left. simpl. auto.
  - destruct (drop_cons i s ltac:(lia)) as (c & rest & Hc).
    pose proof (take_S _ _ _ _ Hc) as HS.
    assert (Hlen : String.length (take i s) = i) by (rewrite length_take; lia).
    assert (Hlift : forall k, all spaceish (drop (i - k) (take i s) +++ String c "") ->
               k <= i ->
               (strings.lastIndexFunc_from unicode.IsSpace false s i k = (-1)%Z /\
                all spaceish (take (S i) s))
               \/
               (exists k', strings.lastIndexFunc_from unicode.IsSpace false s i k = Z.of_nat k' /\
                           k' < S i /\ all spaceish (drop (k' + 1) (take (S i) s)))).
    { intros k Hk Hle. apply all_append in Hk. destruct Hk as [Hk1 Hk2].
      destruct (IH k ltac:(lia) Hle Hk1) as [[Hn Ha] | (k' & Hk' & Hlt & Ha)].
      - left. split; [exact Hn|]. rewrite HS. apply all_append. auto.
      - right. exists k'. split; [exact Hk'|]. split; [lia|].
        rewrite HS, drop_append_le by lia. apply all_append. auto. }
    cbn [strings.lastIndexFunc_from]. destruct skip as [|k].
    + destruct (utf8.DecodeLastRuneInString (take (S i) s)) as [r size] eqn:Hd.
      assert (Hne : take (S i) s <> "") by (rewrite HS; destruct (take i s); discriminate).
      destruct (decode_last _ _ _ Hne Hd) as (Hsz & Hmid & Hsp).
      rewrite length_take in Hsz, Hmid, Hsp.
      replace (Nat.min (S i) (String.length s)) with (S i) in * by lia.
      destruct (unicode.IsSpace r) eqn:Hr; cbn [Bool.eqb].
      * specialize (Hsp eq_refl). apply Hlift; [|lia].
        rewrite HS, drop_append_le in Hsp by lia.
        replace (i - (size - 1)) with (S i - size) by lia. exact Hsp.
      * right. exists (S i - size). split; [reflexivity|]. split; [lia|].
        replace (S i - size + 1) with (S i - size + 1) by lia. exact Hmid.
    + apply Hlift; [|lia].
      rewrite HS, drop_append_le in Hall by lia.
      replace (i - k) with (S i - S k) by lia. exact Hall.
Qed.

Lemma TrimRightFunc_spec (s : string) :
  exists q, s = strings.TrimRightFunc s unicode.IsSpace +++ q /\ all spaceish q.
Proof.
  unfold strings.TrimRightFunc, strings.lastIndexFunc.
  destruct (lastIndexFunc_from_spec s (String.length s) 0 ltac:(lia) ltac:(lia))
    as [[Hn Ha] | (k & Hk & Hlt & Ha)].
  - rewrite Nat.sub_0_r, drop_all by (rewrite length_take; lia). exact I.
  - rewrite Hn. cbn [Z.leb Z.compare andb Z.add Z.to_nat take].
    exists s. rewrite take_all in Ha by lia. auto.
  - rewrite Hk. rewrite take_all in Ha by lia.
    set (i' := (if (0 <=? Z.of_nat k)%Z && (utf8.RuneSelf <=? at_ s (Z.of_nat k))%N
                then (Z.of_nat k + Z.of_nat (snd (utf8.DecodeRuneInString (drop (Z.to_nat (Z.of_nat k)) s))))%Z
                else (Z.of_nat k + 1)%Z)).
    assert (Hi' : (Z.of_nat k + 1 <= i')%Z).
    { unfold i'. destruct ((0 <=? Z.of_nat k)%Z && (utf8.RuneSelf <=? at_ s (Z.of_nat k))%N); [|lia].
      rewrite Nat2Z.id.
      destruct (utf8.DecodeRuneInString (drop k s)) as [r size] eqn:Hd.
      assert (Hne : drop k s <> "").
      { destruct (drop_cons k s Hlt) as (c & rest & Hc). rewrite Hc; discriminate. }
      destruct (decode_first _ _ _ Hne Hd) as (Hsz & _). simpl. lia. }
    exists (drop (Z.to_nat i') s). rewrite take_drop. split; [reflexivity|].
    replace (Z.to_nat i') with ((k + 1) + (Z.to_nat i' - (k + 1))) by lia.
    rewrite <- drop_drop. apply all_drop. exact Ha.
Qed.

Lemma TrimFunc_spec (s : string) :
  exists p q, s = p +++ strings.TrimFunc s unicode.IsSpace +++ q /\
              all spaceish p /\ all spaceish q.
Proof.
  unfold strings.TrimFunc.
  destruct (TrimLeftFunc_spec s) as (p & Hp & Hap).
  destruct (TrimRightFunc_spec (strings.TrimLeftFunc s unicode.IsSpace)) as (q & Hq & Haq).
  exists p, q. rewrite <- Hq. auto.
Qed.

Lemma TrimSpace_stop_spec (t : string) (stop : nat) :
  stop <= String.length t ->
  exists q, take stop t = strings.TrimSpace_stop t stop +++ q /\ all spaceish q.
Proof.
  induction stop as [|k IH]; intros Hle.
  - exists "". simpl. auto.
  - cbn [strings.TrimSpace_stop].
    destruct (drop_cons k t ltac:(lia)) as (c & rest & Hc).
    rewrite (at_drop _ _ _ _ Hc).
    destruct (utf8.RuneSelf <=? byte_val c)%N.
    + apply TrimRightFunc_spec.
    + destruct (strings.asciiSpace (byte_val c)) eqn:Hsp.
      * destruct (IH ltac:(lia)) as (q & Hq & Ha).
        exists (q +++ String c ""). rewrite (take_S _ _ _ _ Hc), Hq, append_assoc.
        split; [reflexivity|]. apply all_append. split; [exact Ha|].
        split; [left; exact Hsp | exact I].
      * exists "". rewrite append_nil_r. simpl. auto.
Qed.

(** [TrimSpace] cuts a prefix and a suffix, both of space bytes and
    bytes of multi-byte runes. *)
Lemma TrimSpace_spec (s : string) :
  exists p q, s = p +++ strings.TrimSpace s +++ q /\
              all spaceish p /\ all spaceish q.
Proof.
  induction s as [|c t IH].
  - exists "", "". simpl. auto.
  - cbn [strings.TrimSpace].
    destruct (utf8.RuneSelf <=? byte_val c)%N.
    + apply TrimFunc_spec.
    + destruct (strings.asciiSpace (byte_val c)) eqn:Hsp.
      * destruct IH as (p & q & Hq & Hap & Haq).
        exists (String c p), q. simpl. rewrite <- Hq.
        repeat split; auto. left; exact Hsp.
      * destruct (TrimSpace_stop_spec (String c t) (String.length (String c t)) ltac:(lia))
          as (q & Hq & Ha).
        rewrite take_all in Hq by lia.
        exists "", q. simpl. split; [exact Hq|]. auto.
Qed.

End utf8_facts.

(** ** The marker survives trimming *)
Module marker_facts.
Import bytes bytes_facts utf8_facts.

Lemma app_split (a b c d : string) :
  a +++ b = c +++ d -> String.length a <= String.length c ->
  exists e, c = a +++ e /\ b = e +++ d.
Proof.
  revert c; induction a as [|x a IH]; intros c H Hl; simpl in *.
  - exists c. auto.
  - destruct c as [|y c]; simpl in *; [lia|]. inversion H; subst.
    destruct (IH c H2 ltac:(lia)) as (e & -> & ->). exists e. auto.
Qed.

Lemma snoc_inj (a b : string) (x y : ascii) :
  a +++ String x "" = b +++ String y "" -> a = b /\ x = y.
Proof.
  revert b; induction a as [|c a IH]; intros [|d b] H; simpl in *.
  - inversion H; auto.
  - inversion H; subst. destruct b; discriminate.
  - inversion H; subst. destruct a; discriminate.
  - inversion H; subst. destruct (IH b H2) as [-> ->]. auto.
Qed.

Lemma exists_last (e : string) :
  e <> "" -> exists e' z, e = e' +++ String z "".
Proof.
  induction e as [|c e IH]; intros H; [congruence|].
  destruct e as [|d e].
  - exists "", c. reflexivity.
  - destruct IH as (e' & z & He); [discriminate|].
    exists (String c e'), z. simpl. rewrite <- He. reflexivity.
Qed.

Lemma length_zero (e : string) : String.length e = 0 -> e = "".
Proof. destruct e; simpl; [reflexivity | lia]. Qed.

(** A string that starts and ends with bytes [TrimSpace] never cuts
    occurs in the trimmed text as soon as it occurs in the text. *)
Lemma occurs_trimmed (f l : ascii) (mid s : string) :
  ~ spaceish (byte_val f) -> ~ spaceish (byte_val l) ->
  occurs (String f (mid +++ String l "")) s ->
  occurs (String f (mid +++ String l "")) (strings.TrimSpace s).
Proof.
  intros Hf Hl (i & u & v & Hs & Hi).
  destruct (TrimSpace_spec s) as (p & q & Hpq & Hp & Hq).
  set (sub := String f (mid +++ String l "")) in *.
  set (T := strings.TrimSpace s) in *.
  assert (Hpu : String.length p <= String.length u).
  { destruct (Nat.le_gt_cases (String.length p) (String.length u)) as [|Hlt]; [assumption|].
    exfalso. rewrite Hs in Hpq.
    destruct (app_split _ _ _ _ Hpq ltac:(lia)) as (e & He & He').
    destruct e as [|x e].
    - rewrite append_nil_r in He. subst p. lia.
    - unfold sub in He'. simpl in He'. inversion He'; subst x.
      rewrite He in Hp. apply all_append in Hp. simpl in Hp. tauto. }
  assert (Hqv : String.length q <= String.length v).
  { destruct (Nat.le_gt_cases (String.length q) (String.length v)) as [|Hlt]; [assumption|].
    exfalso.
    assert (Hpq' : (p +++ T) +++ q = (u +++ sub) +++ v).
    { rewrite !append_assoc. congruence. }
    assert (Hlen : String.length (p +++ T) <= String.length (u +++ sub)).
    { apply (f_equal String.length) in Hpq'. rewrite !length_append in *. lia. }
    destruct (app_split _ _ _ _ Hpq' Hlen) as (e & He & He').
    assert (Hne : e <> "").
    { intros ->. simpl in He'. subst q. lia. }
    destruct (exists_last e Hne) as (e' & z & ->).
    assert (Hz : z = l).
    { unfold sub in He.
      replace (u +++ String f (mid +++ String l ""))
        with ((u +++ String f mid) +++ String l "") in He
        by (rewrite append_assoc; reflexivity).
      rewrite <- append_assoc in He. apply snoc_inj in He. symmetry; tauto. }
    subst z. rewrite He' in Hq. apply all_append in Hq. destruct Hq as [Hq _].
    apply all_append in Hq. simpl in Hq. tauto. }
  rewrite Hs in Hpq. symmetry in Hpq.
  destruct (app_split _ _ _ _ Hpq Hpu) as (e & He & He').
  assert (HT : (e +++ sub) +++ v = T +++ q) by (rewrite append_assoc; auto).
  assert (Hlen : String.length (e +++ sub) <= String.length T).
  { apply (f_equal String.length) in HT. rewrite !length_append in *. lia. }
  destruct (app_split _ _ _ _ HT Hlen) as (e2 & He2 & _).
  exists (String.length e), e, e2. split; [|reflexivity].
  rewrite He2, append_assoc. reflexivity.
Qed.

Lemma marker_survives (s : string) :
  occurs marker s -> occurs marker (strings.TrimSpace s).
Proof.
  apply (occurs_trimmed "k" "n" "ubeadm joi").
  - unfold spaceish. intros [H|H]; [discriminate | vm_compute in H; congruence].
  - unfold spaceish. intros [H|H]; [discriminate | vm_compute in H; congruence].
Qed.

(** Trimming creates no occurrence. *)
Lemma occurs_untrimmed (sub s : string) :
  occurs sub (strings.TrimSpace s) -> occurs sub s.
Proof.
  intros (i & u & v & Hs & Hi).
  destruct (TrimSpace_spec s) as (p & q & Hpq & _).
  exists (String.length (p +++ u)), (p +++ u), (v +++ q). split; [|reflexivity].
  rewrite Hpq, Hs, !append_assoc. reflexivity.
Qed.

End marker_facts.

(** ** Calls a program never makes *)

Lemma never_sound {S A : Type} (P : action -> bool) (p : Prog A) :
  never P p -> forall (h : handler S) (s : S), none_of P (trace (run h p s)).
Proof.
  unfold none_of. induction p as [a | q | a k IH]; intros H h s; simpl.
  - constructor.
  - constructor.
  - destruct H as [Ha Hk]. destruct (h a s) as [r s1]. simpl.
    constructor; [exact Ha | apply IH, Hk].
Qed.

Lemma never_bind {A B : Type} (P : action -> bool) (p : Prog A) (f : A -> Prog B) :
  never P p -> (forall a, never P (f a)) -> never P (bind p f).
Proof.
  induction p as [a | q | a k IH]; intros H Hf; simpl in *; auto.
  destruct H as [Ha Hk]. split; auto.
Qed.

Section never_provisioning.

Variable P : action -> bool.
Hypothesis P_provisioning : forall opt, P (instance_CreateInstances opt) = false.
Hypothesis P_log : forall lvl format operands, P (klog lvl format operands) = false.

Lemma never_finish_code (code : list instr) (regs : Regs) (sh : Shared) :
  never P (finish_code code regs sh).
Proof.
  revert regs sh. induction code as [|i code IH]; intros regs sh; simpl; auto.
  destruct i; simpl; auto.
Qed.

Lemma never_finish (g : goroutine) (sh : Shared) : never P (finish g sh).
Proof.
  destruct g; simpl; auto using never_finish_code.
Qed.

Lemma never_step {A : Type} (g : goroutine) (sh : Shared)
      (k : goroutine -> Shared -> Prog A) :
  (forall g1 sh1, never P (k g1 sh1)) -> never P (step g sh k).
Proof.
  intros Hk. destruct g as [opt body | [|i code] regs]; simpl; auto.
  destruct i; simpl; auto.
Qed.

Lemma never_interleave (sched : list tid) (gm gn : goroutine) (sh : Shared) :
  never P (interleave sched gm gn sh).
Proof.
  revert gm gn sh. induction sched as [|t sched IH]; intros gm gn sh.
  - simpl. apply never_bind; auto using never_finish.
  - destruct t; cbn [interleave]; apply never_step; intros; apply IH.
Qed.

End never_provisioning.

Ltac never_auto :=
  repeat (simpl;
          match goal with
          | |- True => exact I
          | |- _ = false /\ _ => split; [solve [auto] | intros]
          | |- never _ (match ?x with _ => _ end) => destruct x
          | |- never _ (if ?b then _ else _) => destruct b
          | |- never _ (bind (if ?b then _ else _) _) => destruct b
          | |- never _ (bind (match ?x with _ => _ end) _) => destruct x
          end).

Lemma never_resolveTag (P : action -> bool) (name : string) :
  (forall n, P (tag_GetTagClusterByName n) = false) ->
  (forall n, P (tag_CreateTag n) = false) ->
  (forall lvl format operands, P (klog lvl format operands) = false) ->
  never P (resolveTag name).
Proof. intros H1 H2 H3. unfold resolveTag, call. never_auto. Qed.

Lemma never_prepareSSHKey (P : action -> bool) (useExistKey : bool) :
  (forall a, is_key_call a = true -> P a = false) ->
  (forall lvl format operands, P (klog lvl format operands) = false) ->
  never P (prepareSSHKey useExistKey).
Proof. intros H1 H3. unfold prepareSSHKey, call. never_auto. Qed.

Lemma never_joinNodes (P : action -> bool) (joinCmd : string) (nodes : list Instance) :
  (forall ip cmd, P (ssh_QuickConnectAndRun ip cmd) = false) ->
  (forall lvl format operands, P (klog lvl format operands) = false) ->
  never P (joinNodes joinCmd nodes).
Proof.
  intros H1 H3. induction nodes as [|node rest IH]; [exact I|].
  cbn [joinNodes]. unfold call. never_auto; exact IH.
Qed.

(** ** The join directive *)

Import bytes bytes_facts.

Lemma GetKubeJoinFromOutput_absent (output : string) :
  ~ occurs marker output ->
  GetKubeJoinFromOutput output = Panics (SliceBoundsOutOfRange (-1)).
Proof.
  intros Hno. unfold GetKubeJoinFromOutput. fold marker.
  rewrite LastIndex_facts.LastIndex_absent.
  - reflexivity.
  - intros H. apply Hno. apply marker_facts.occurs_untrimmed, H.
Qed.

Lemma GetKubeJoinFromOutput_present (output : string) :
  occurs marker output ->
  exists k,
    GetKubeJoinFromOutput output = Value (drop k (strings.TrimSpace output)) /\
    occurs_at marker (strings.TrimSpace output) k /\
    forall k', k < k' -> ~ occurs_at marker (strings.TrimSpace output) k'.
Proof.
  intros Hocc. apply marker_facts.marker_survives in Hocc.
  destruct (LastIndex_facts.LastIndex_present _ _ Hocc) as (k & Hk & Hat & Hlast).
  exists k. split; [|split; assumption].
  unfold GetKubeJoinFromOutput. fold marker. rewrite Hk. unfold slice_from, len.
  apply occurs_at_iff in Hat. destruct Hat as [Hle _].
  destruct (Z.leb_spec 0 (Z.of_nat k)); [|lia].
  destruct (Z.leb_spec (Z.of_nat k) (Z.of_nat (String.length (strings.TrimSpace output)))); [|lia].
  simpl. rewrite Nat2Z.id. reflexivity.
Qed.

Lemma GetKubeJoinFromOutput_value (output joinCmd : string) :
  GetKubeJoinFromOutput output = Value joinCmd -> occurs marker output.
Proof.
  unfold GetKubeJoinFromOutput, strings.LastIndex. fold marker. intros H.
  destruct (LastIndex_facts.LastIndex_from_spec (strings.TrimSpace output) marker 0 ltac:(lia))
    as [[Hn _] | (k & Hk & Hle & Hp & _)].
  - rewrite Hn in H. discriminate.
  - apply marker_facts.occurs_untrimmed. exists k. apply occurs_at_iff. auto.
Qed.

(** ** The provisioning goroutines under every interleaving *)

Lemma provisioned_app (role : api.Role) (a b : list event) :
  provisioned role (a ++ b) = provisioned role a ++ provisioned role b.
Proof. apply flat_map_app. Qed.

Lemma provision_errors_app (a b : list event) :
  provision_errors (a ++ b) = provision_errors a ++ provision_errors b.
Proof. apply flat_map_app. Qed.

Lemma provisioned_error_in (role : api.Role) (tr : list event)
      (l : list (option Instance)) (e : error) :
  In (l, Some e) (provisioned role tr) -> In e (provision_errors tr).
Proof.
  induction tr as [|[a r] tr IH]; simpl; [tauto|].
  intros H. apply in_app_or in H. apply in_or_app.
  destruct H as [H|H]; [left | right; auto].
  destruct a; simpl in *; try tauto.
  destruct (Role_eqb (CIO_Role opt) role); simpl in *; [|tauto].
  destruct H as [H|[]]. subst r. simpl. auto.
Qed.

Lemma provision_errors_none (tr : list event) :
  provision_errors tr = [] ->
  forall role l o, In (l, o) (provisioned role tr) -> o = None.
Proof.
  intros H role l [e|] Hin; [|reflexivity].
  apply provisioned_error_in in Hin. rewrite H in Hin. destruct Hin.
Qed.

Lemma provision_errors_some (tr : list event) :
  provision_errors tr <> [] ->
  exists role l e, In (l, Some e) (provisioned role tr).
Proof.
  induction tr as [|[a r] tr IH]; simpl; [congruence|].
  intros H.
  assert (Hcase : (exists opt (r0 : list (option Instance) * option error) e,
                      snd r0 = Some e /\
                      forall role, Role_eqb (CIO_Role opt) role = true ->
                                   In r0 (provisioned role (Event a r :: tr)))
                  \/ provision_errors tr <> []).
  { destruct a; simpl in *; try (right; exact H).
    destruct r as [l [e|]]; simpl in *; [|right; exact H].
    left. exists opt, (l, Some e), e. split; [reflexivity|].
    intros role Hr. rewrite Hr. simpl. auto. }
  destruct Hcase as [(opt & [l o] & e & Ho & Hin) | Hne].
  - simpl in Ho. subst o. exists (CIO_Role opt), l, e. apply Hin.
    destruct (CIO_Role opt); reflexivity.
  - destruct (IH Hne) as (role & l & e & Hin). exists role, l, e.
    apply in_or_app. auto.
Qed.

Lemma inv_acc_eq (acc acc' : list event) (gm gn : goroutine) (sh : Shared) :
  (forall role, provisioned role acc' = provisioned role acc) ->
  provision_errors acc' = provision_errors acc ->
  provisioning_inv acc gm gn sh -> provisioning_inv acc' gm gn sh.
Proof.
  intros Hp He (HM & HN & HE). unfold provisioning_inv, master_inv, nodes_inv in *.
  rewrite !Hp, !He. destruct gm, gn; auto.
Qed.

Lemma inv_log (acc : list event) (gm gn : goroutine) (sh : Shared)
      (lvl : level) (format : string) (operands : list string) :
  provisioning_inv acc gm gn sh ->
  provisioning_inv (acc ++ [Event (klog lvl format operands) tt]) gm gn sh.
Proof.
  apply inv_acc_eq.
  - intros role. rewrite provisioned_app. simpl. apply app_nil_r.
  - rewrite provision_errors_app. simpl. apply app_nil_r.
Qed.

Lemma err_inv_frame (res : list (option Instance) * option error) (code : list instr)
      (sh sh' : Shared) :
  (errs sh <> [] -> errs sh' <> []) -> err_inv res code sh -> err_inv res code sh'.
Proof. unfold err_inv. destruct (snd res); intuition. Qed.

Lemma master_inv_frame (acc : list event) (g : goroutine) (sh sh' : Shared) :
  master sh' = master sh -> (errs sh <> [] -> errs sh' <> []) ->
  master_inv acc g sh -> master_inv acc g sh'.
Proof.
  intros Hm He. unfold master_inv. destruct g as [opt body | code regs].
  - rewrite Hm. auto.
  - intros (res & H1 & H2 & H3 & H4 & H5). exists res.
    repeat split; auto; [eapply err_inv_frame; eauto|].
    rewrite Hm. exact H5.
Qed.

Lemma nodes_inv_frame (acc : list event) (g : goroutine) (sh sh' : Shared) :
  nodes sh' = nodes sh -> (errs sh <> [] -> errs sh' <> []) ->
  nodes_inv acc g sh -> nodes_inv acc g sh'.
Proof.
  intros Hm He. unfold nodes_inv. destruct g as [opt body | code regs].
  - rewrite Hm. auto.
  - intros (res & H1 & H2 & H3 & H4 & H5). exists res.
    repeat split; auto; [eapply err_inv_frame; eauto|].
    rewrite Hm. exact H5.
Qed.

Lemma snoc_not_nil {A : Type} (l : list A) (a : A) : l ++ [a] <> [].
Proof. destruct l; discriminate. Qed.

Lemma incl_snoc {A : Type} (l m : list A) (a : A) :
  incl l m -> In a m -> incl (l ++ [a]) m.
Proof. intros H1 H2 x Hx. apply in_app_or in Hx. destruct Hx as [|[|[]]]; subst; auto. Qed.

(** One step of the master goroutine. *)
Lemma master_step (acc : list event) (i : instr) (code : list instr) (regs : Regs)
      (gn : goroutine) (sh : Shared) :
  provisioning_inv acc (Running (i :: code) regs) gn sh ->
  match i with
  | runtime_check p => provisioning_post acc (Crashed p)
  | log lvl format operands =>
    provisioning_inv (acc ++ [Event (klog lvl format operands) tt])
                     (Running code regs) gn sh
  | _ =>
    provisioning_inv acc (Running code (fst (exec i regs sh))) gn
                     (snd (exec i regs sh))
  end.
Proof.
  intros (HM & HN & HE).
  destruct HM as (res & Hp & Hr & Happ & Herr & Hres).
  assert (Hin : In res (provisioned api.RoleMaster acc)) by (rewrite Hp; simpl; auto).
  destruct i; simpl in *.
  - (* load_errs *)
    split; [|split; auto].
    exists res. repeat split; auto.
    destruct res as [[|[m0|] l] [e|]]; simpl in *; auto. discriminate.
  - (* store_errs_append *)
    assert (He : snd res = Some e /\ stored code = []).
    { unfold err_inv in Herr. simpl in Herr. destruct (snd res).
      - destruct Herr as [H|[H _]]; inversion H; auto.
      - discriminate. }
    destruct He as [He Hs]. destruct res as [l o]. simpl in He. subst o.
    assert (Hne : r_errs regs ++ [e] <> []) by apply snoc_not_nil.
    split; [|split].
    + exists (l, Some e). repeat split; auto; try tauto.
      unfold err_inv. simpl. right. auto.
    + eapply nodes_inv_frame; [| |exact HN]; simpl; auto.
    + simpl. apply incl_snoc; auto. eapply provisioned_error_in; eauto.
  - (* runtime_check *)
    destruct res as [[|[m|] l] [e|]]; simpl in *.
    + destruct Hres as [H _]. discriminate.
    + inversion Hres; subst. left. auto.
    + destruct Hres as [H _]. discriminate.
    + destruct Hres as [H _]. discriminate.
    + destruct Hres as [H _]. discriminate.
    + destruct Hres as [H _]. inversion H; subst.
      right. split; [reflexivity|]. left. exists l. exact Hp.
  - (* assign_master *)
    destruct res as [[|[m0|] l] [e|]]; simpl in *.
    + destruct Hres as (_ & H & _). discriminate.
    + discriminate.
    + destruct Hres as (_ & H & _). discriminate.
    + destruct Hres as [Hc [H|[H _]]]; [|discriminate]. inversion H; subst.
      split; [|split; [|exact HE]].
      * exists (Some m0 :: l, None). repeat split; auto.
      * eapply nodes_inv_frame; [| |exact HN]; simpl; auto.
    + destruct Hres as (_ & H & _). discriminate.
    + destruct Hres as (Hc & Hm & [H|H]); [|discriminate]. inversion H; subst.
      split; [|split; [|exact HE]].
      * exists (None :: l, None). repeat split; auto.
      * eapply nodes_inv_frame; [| |exact HN]; simpl; auto.
  - (* load_machines *)
    split; [|split; auto].
    exists res. repeat split; auto.
    destruct res as [[|[m0|] l] [e|]]; simpl in *; auto. discriminate.
  - (* store_machines_append *)
    split; [|split; [|exact HE]].
    + exists res. repeat split; auto.
      destruct res as [[|[m0|] l] [e|]]; simpl in *; auto. discriminate.
    + eapply nodes_inv_frame; [| |exact HN]; simpl; auto.
  - (* append_nodes *)
    discriminate.
  - (* log *)
    apply inv_log. split; [|split; auto].
    exists res. repeat split; auto.
    destruct res as [[|[m0|] l] [e|]]; simpl in *; auto. discriminate.
Qed.

Lemma has_nil_In (l : list (option Instance)) : has_nil l = true -> In None l.
Proof.
  unfold has_nil. intros H. apply existsb_exists in H.
  destruct H as ([x|] & Hin & Hx); [discriminate|exact Hin].
Qed.

Lemma In_has_nil (l : list (option Instance)) : In None l -> has_nil l = true.
Proof.
  unfold has_nil. intros H. apply existsb_exists. exists None. auto.
Qed.

Lemma before_nil_all (l : list (option Instance)) :
  has_nil l = false -> l = map Some (before_nil l).
Proof.
  induction l as [|[x|] l IH]; simpl; intros H; [reflexivity| |discriminate].
  f_equal. apply IH. exact H.
Qed.

(** One step of the nodes goroutine. *)
Lemma nodes_step (acc : list event) (i : instr) (code : list instr) (regs : Regs)
      (gm : goroutine) (sh : Shared) :
  provisioning_inv acc gm (Running (i :: code) regs) sh ->
  match i with
  | runtime_check p => provisioning_post acc (Crashed p)
  | log lvl format operands =>
    provisioning_inv (acc ++ [Event (klog lvl format operands) tt])
                     gm (Running code regs) sh
  | _ =>
    provisioning_inv acc gm (Running code (fst (exec i regs sh)))
                     (snd (exec i regs sh))
  end.
Proof.
  intros (HM & HN & HE).
  destruct HN as (res & Hp & Hr & Hass & Herr & Hres).
  assert (Hin : In res (provisioned api.RoleNode acc)) by (rewrite Hp; simpl; auto).
  destruct i; simpl in *.
  - (* load_errs *)
    split; [exact HM|split; [|exact HE]].
    exists res. repeat split; auto.
  - (* store_errs_append *)
    assert (He : snd res = Some e /\ stored code = []).
    { unfold err_inv in Herr. simpl in Herr. destruct (snd res).
      - destruct Herr as [H|[H _]]; inversion H; auto.
      - discriminate. }
    destruct He as [He Hs]. destruct res as [l o]. simpl in He. subst o.
    assert (Hne : r_errs regs ++ [e] <> []) by apply snoc_not_nil.
    split; [|split].
    + eapply master_inv_frame; [| |exact HM]; simpl; auto.
    + exists (l, Some e). unfold err_inv. simpl in *. intuition.
    + simpl. apply incl_snoc; auto. eapply provisioned_error_in; eauto.
  - (* runtime_check *)
    destruct res as [l [e|]]; simpl in *.
    + destruct Hres as [H _]. discriminate.
    + destruct Hres as [H _]. right.
      destruct (has_nil l) eqn:Hnil; [|discriminate].
      inversion H; subst. split; [reflexivity|].
      right. exists l. split; [exact Hp|]. apply has_nil_In. exact Hnil.
  - (* assign_master *)
    discriminate.
  - (* load_machines *)
    split; [exact HM|split; [|exact HE]].
    exists res. repeat split; auto.
  - (* store_machines_append *)
    split; [|split; [|exact HE]].
    + eapply master_inv_frame; [| |exact HM]; simpl; auto.
    + exists res. repeat split; auto.
  - (* append_nodes *)
    split; [|split; [|exact HE]].
    + eapply master_inv_frame; [| |exact HM]; simpl; auto.
    + exists res. repeat split; auto.
      destruct (snd res).
      * destruct Hres as (_ & H & _). discriminate.
      * destruct Hres as [Hc Hres]. split; [exact Hc|].
        cbn [nodes]. rewrite <- Hres, <- app_assoc. reflexivity.
  - (* log *)
    apply inv_log. split; [exact HM|split; [|exact HE]].
    exists res. repeat split; auto.
Qed.

Lemma master_inv_acc (acc acc' : list event) (g : goroutine) (sh : Shared) :
  provisioned api.RoleMaster acc' = provisioned api.RoleMaster acc ->
  incl (provision_errors acc) (provision_errors acc') ->
  master_inv acc g sh -> master_inv acc' g sh.
Proof.
  intros Hp Hi. unfold master_inv. rewrite Hp. destruct g; auto.
  intros (res & H1 & H2 & H3). exists res. repeat split; try tauto.
  eapply incl_tran; eauto.
Qed.

Lemma nodes_inv_acc (acc acc' : list event) (g : goroutine) (sh : Shared) :
  provisioned api.RoleNode acc' = provisioned api.RoleNode acc ->
  incl (provision_errors acc) (provision_errors acc') ->
  nodes_inv acc g sh -> nodes_inv acc' g sh.
Proof.
  intros Hp Hi. unfold nodes_inv. rewrite Hp. destruct g; auto.
  intros (res & H1 & H2 & H3). exists res. repeat split; try tauto.
  eapply incl_tran; eauto.
Qed.

Lemma nodesRoutine_code (l : list (option Instance)) :
  stored (nodesRoutine (l, None)) = [] /\
  assigned (nodesRoutine (l, None)) = [] /\
  checks (nodesRoutine (l, None))
  = (if has_nil l then [NilPointerDereference] else []) /\
  appended (nodesRoutine (l, None)) = before_nil l.
Proof.
  simpl. induction l as [|[n|] l (H1 & H2 & H3 & H4)]; simpl; auto.
  repeat split; auto. f_equal. exact H4.
Qed.

Lemma master_spawn (acc : list event) (opt : CreateInstancesOption)
      (body : list (option Instance) * option error -> list instr)
      (gn : goroutine) (sh : Shared) (res : list (option Instance) * option error) :
  provisioning_inv acc (Spawned opt body) gn sh ->
  provisioning_inv (acc ++ [Event (instance_CreateInstances opt) res])
                   (Running (body res) no_regs) gn sh.
Proof.
  intros ((Hb & Hrole & Hp & Hm) & HN & HE). subst body.
  assert (Hi : incl (provision_errors acc)
                    (provision_errors (acc ++ [Event (instance_CreateInstances opt) res]))).
  { rewrite provision_errors_app. apply incl_appl, incl_refl. }
  split; [|split].
  - exists res. rewrite provisioned_app, Hp. simpl. rewrite Hrole. simpl.
    split; [reflexivity|]. split; [intros x []|].
    destruct res as [[|[m|] l] [e|]]; unfold err_inv; simpl; auto 10.
  - eapply nodes_inv_acc; [| exact Hi | exact HN].
    rewrite provisioned_app. simpl. rewrite Hrole. simpl. apply app_nil_r.
  - eapply incl_tran; eauto.
Qed.

Lemma nodes_spawn (acc : list event) (opt : CreateInstancesOption)
      (body : list (option Instance) * option error -> list instr)
      (gm : goroutine) (sh : Shared) (res : list (option Instance) * option error) :
  provisioning_inv acc gm (Spawned opt body) sh ->
  provisioning_inv (acc ++ [Event (instance_CreateInstances opt) res])
                   gm (Running (body res) no_regs) sh.
Proof.
  intros (HM & (Hb & Hrole & Hp & Hn) & HE). subst body.
  assert (Hi : incl (provision_errors acc)
                    (provision_errors (acc ++ [Event (instance_CreateInstances opt) res]))).
  { rewrite provision_errors_app. apply incl_appl, incl_refl. }
  split; [|split].
  - eapply master_inv_acc; [| exact Hi | exact HM].
    rewrite provisioned_app. simpl. rewrite Hrole. simpl. apply app_nil_r.
  - exists res. rewrite provisioned_app, Hp. simpl. rewrite Hrole. simpl.
    split; [reflexivity|]. split; [intros x []|].
    destruct res as [ns [e|]].
    + unfold err_inv; simpl; auto 10.
    + destruct (nodesRoutine_code ns) as (H1 & H2 & H3 & H4).
      unfold err_inv. cbn [snd fst]. rewrite Hn, H1, H2, H3, H4. auto.
  - eapply incl_tran; eauto.
Qed.

Lemma provisioning_done (acc : list event) (r1 r2 : Regs) (sh : Shared) :
  provisioning_inv acc (Running [] r1) (Running [] r2) sh ->
  provisioning_post acc (Returned sh).
Proof.
  intros ((rm & Hpm & _ & _ & Hem & Hm) & (rn & Hpn & _ & _ & Hen & Hn) & HE).
  simpl. split; [exact HE|]. split; [|split; [|split]].
  - intros Hne. destruct (provision_errors_some _ Hne) as (role & l & e & Hin).
    destruct role.
    + rewrite Hpm in Hin. destruct Hin as [Hin|[]]. subst rm.
      unfold err_inv in Hem. simpl in Hem. destruct Hem as [H|[_ H]]; [discriminate|exact H].
    + rewrite Hpn in Hin. destruct Hin as [Hin|[]]. subst rn.
      unfold err_inv in Hen. simpl in Hen. destruct Hen as [H|[_ H]]; [discriminate|exact H].
  - rewrite Hpm. intros [H|[]]. subst rm. discriminate.
  - unfold nil_returned. rewrite Hpm, Hpn. intros [(rest & H) | (l & H & Hl)].
    + inversion H; subst rm. destruct Hm as [Hc _]. discriminate.
    + inversion H; subst rn. simpl in Hn. destruct Hn as [Hc _].
      destruct (has_nil l) eqn:Hnil; [discriminate|].
      apply (In_has_nil l) in Hl. congruence.
  - intros Hnil.
    assert (Hom : snd rm = None).
    { destruct rm as [l o]. eapply (provision_errors_none _ Hnil api.RoleMaster l o).
      rewrite Hpm. simpl; auto. }
    assert (Hon : snd rn = None).
    { destruct rn as [l o]. eapply (provision_errors_none _ Hnil api.RoleNode l o).
      rewrite Hpn. simpl; auto. }
    destruct rm as [[|[m|] rest] om]; simpl in Hom; subst om;
      [discriminate| |destruct Hm as [H _]; discriminate].
    destruct rn as [ns on]; simpl in Hon; subst on. simpl in Hn.
    destruct Hn as [Hc Hn]. rewrite app_nil_r in Hn.
    assert (Hall : ns = map Some (nodes sh)).
    { rewrite Hn. apply before_nil_all.
      destruct (has_nil ns); [discriminate|reflexivity]. }
    exists m, rest, (nodes sh). rewrite Hpm, Hpn.
    repeat split; auto.
    + rewrite Hall at 1. reflexivity.
    + rewrite Hnil in HE. destruct (errs sh) as [|x xs]; [reflexivity|].
      destruct (HE x); simpl; auto.
    + destruct Hm as [_ [H|[_ H]]]; [discriminate|exact H].
Qed.

Lemma app_cons_assoc {A : Type} (l : list A) (a : A) (m : list A) :
  (l ++ [a]) ++ m = l ++ a :: m.
Proof. rewrite <- app_assoc. reflexivity. Qed.

Lemma finish_code_master (code : list instr) (acc : list event) (regs : Regs)
      (gn : goroutine) (sh : Shared) :
  provisioning_inv acc (Running code regs) gn sh ->
  always (finish_code code regs sh) (master_finished acc gn).
Proof.
  revert acc regs sh. induction code as [|i code IH]; intros acc regs sh Hinv.
  - simpl. exists regs. rewrite app_nil_r. exact Hinv.
  - pose proof (master_step _ _ _ _ _ _ Hinv) as Hstep.
    destruct i; simpl in *; try (apply IH; exact Hstep).
    + rewrite app_nil_r. exact Hstep.
    + intros []. eapply always_mono; [apply IH; exact Hstep|].
      intros tr o. unfold master_finished. rewrite app_cons_assoc. auto.
Qed.

Lemma finish_code_nodes (code : list instr) (acc : list event) (regs : Regs)
      (gm : goroutine) (sh : Shared) :
  provisioning_inv acc gm (Running code regs) sh ->
  always (finish_code code regs sh) (nodes_finished acc gm).
Proof.
  revert acc regs sh. induction code as [|i code IH]; intros acc regs sh Hinv.
  - simpl. exists regs. rewrite app_nil_r. exact Hinv.
  - pose proof (nodes_step _ _ _ _ _ _ Hinv) as Hstep.
    destruct i; simpl in *; try (apply IH; exact Hstep).
    + rewrite app_nil_r. exact Hstep.
    + intros []. eapply always_mono; [apply IH; exact Hstep|].
      intros tr o. unfold nodes_finished. rewrite app_cons_assoc. auto.
Qed.

Lemma finish_master (acc : list event) (gm gn : goroutine) (sh : Shared) :
  provisioning_inv acc gm gn sh ->
  always (finish gm sh) (master_finished acc gn).
Proof.
  intros Hinv. destruct gm as [opt body | code regs]; simpl.
  - intros res. eapply always_mono.
    + apply finish_code_master. apply master_spawn. exact Hinv.
    + intros tr o. unfold master_finished. rewrite app_cons_assoc. auto.
  - apply finish_code_master. exact Hinv.
Qed.

Lemma finish_nodes (acc : list event) (gm gn : goroutine) (sh : Shared) :
  provisioning_inv acc gm gn sh ->
  always (finish gn sh) (nodes_finished acc gm).
Proof.
  intros Hinv. destruct gn as [opt body | code regs]; simpl.
  - intros res. eapply always_mono.
    + apply finish_code_nodes. apply nodes_spawn. exact Hinv.
    + intros tr o. unfold nodes_finished. rewrite app_cons_assoc. auto.
  - apply finish_code_nodes. exact Hinv.
Qed.

(** Every interleaving keeps the invariant up to [wg.Wait()]. *)
Lemma interleave_inv (sched : list tid) (acc : list event) (gm gn : goroutine)
      (sh : Shared) :
  provisioning_inv acc gm gn sh ->
  always (interleave sched gm gn sh) (fun tr o => provisioning_post (acc ++ tr) o).
Proof.
  revert acc gm gn sh. induction sched as [|t sched IH]; intros acc gm gn sh Hinv.
  - cbn [interleave]. apply always_bind.
    eapply always_mono; [apply finish_master; exact Hinv|].
    intros tr [sh1|p]; unfold master_finished; [|auto].
    intros [regs1 H1].
    eapply always_mono; [apply finish_nodes; exact H1|].
    intros tr' [sh2|p]; unfold nodes_finished;
      [|rewrite app_assoc; auto].
    intros [regs2 H2]. rewrite app_assoc.
    eapply provisioning_done; exact H2.
  - destruct t; cbn [interleave].
    + destruct gm as [opt body | [|i code] regs]; cbn [step].
      * intros res. eapply always_mono.
        -- apply IH. apply master_spawn. exact Hinv.
        -- intros tr o. cbv beta. rewrite app_cons_assoc. auto.
      * apply IH. exact Hinv.
      * pose proof (master_step _ _ _ _ _ _ Hinv) as Hstep.
        destruct i; simpl in *; try (apply IH; exact Hstep).
        -- rewrite app_nil_r. exact Hstep.
        -- intros []. eapply always_mono; [apply IH; exact Hstep|].
           intros tr o. cbv beta. rewrite app_cons_assoc. auto.
    + destruct gn as [opt body | [|i code] regs]; cbn [step].
      * intros res. eapply always_mono.
        -- apply IH. apply nodes_spawn. exact Hinv.
        -- intros tr o. cbv beta. rewrite app_cons_assoc. auto.
      * apply IH. exact Hinv.
      * pose proof (nodes_step _ _ _ _ _ _ Hinv) as Hstep.
        destruct i; simpl in *; try (apply IH; exact Hstep).
        -- rewrite app_nil_r. exact Hstep.
        -- intros []. eapply always_mono; [apply IH; exact Hstep|].
           intros tr o. cbv beta. rewrite app_cons_assoc. auto.
Qed.

(** The two provisioning goroutines of [runCreate], under any schedule. *)
Lemma provisioning_always (sched : list tid) (optM optN : CreateInstancesOption) :
  CIO_Role optM = api.RoleMaster -> CIO_Role optN = api.RoleNode ->
  always (interleave sched (Spawned optM masterRoutine) (Spawned optN nodesRoutine)
                     {| errs := []; machines := []; master := None; nodes := [] |})
         provisioning_post.
Proof.
  intros HM HN.
  apply (interleave_inv sched [] _ _ _).
  repeat split; auto. simpl. intros x [].
Qed.

(** ** Whole runs of [runCreate] *)

Lemma never_always {A : Type} (P : action -> bool) (p : Prog A) :
  never P p -> always p (fun tr _ => none_of P tr).
Proof.
  unfold none_of. induction p as [a | q | a k IH]; simpl; intros H.
  - constructor.
  - constructor.
  - destruct H as [Ha Hk]. intros r. eapply always_mono; [apply IH, Hk|].
    intros tr o Htr. constructor; assumption.
Qed.

Lemma none_of_app (P : action -> bool) (a b : list event) :
  none_of P (a ++ b) <-> none_of P a /\ none_of P b.
Proof. apply Forall_app. Qed.

Lemma none_of_weaken (P Q : action -> bool) (tr : list event) :
  (forall a, P a = false -> Q a = false) -> none_of P tr -> none_of Q tr.
Proof. intros H. apply Forall_impl. intros e. apply H. Qed.

Lemma none_of_provisioning (tr : list event) :
  none_of is_provisioning tr ->
  provision_errors tr = [] /\ forall role, provisioned role tr = [].
Proof.
  induction tr as [|[a r] tr IH]; intros H; [simpl; auto|].
  inversion H as [|? ? Ha Htr]; subst. destruct (IH Htr) as [H1 H2].
  destruct a; simpl in *; try discriminate; auto.
Qed.

Lemma none_of_remote (tr : list event) :
  none_of is_remote tr -> remote_runs tr = [].
Proof.
  induction tr as [|[a r] tr IH]; intros H; [reflexivity|].
  inversion H as [|? ? Ha Htr]; subst.
  destruct a; simpl in *; try discriminate; auto.
Qed.

Lemma none_of_file_write (tr : list event) :
  none_of is_file_write tr -> files_written tr = [].
Proof.
  induction tr as [|[a r] tr IH]; intros H; [reflexivity|].
  inversion H as [|? ? Ha Htr]; subst.
  destruct a; simpl in *; try discriminate; auto.
Qed.

Lemma files_written_none (tr : list event) :
  files_written tr = [] -> none_of is_file_write tr.
Proof.
  unfold none_of. induction tr as [|[a r] tr IH]; intros H; constructor.
  - destruct a; simpl in *; try reflexivity. discriminate.
  - apply IH. destruct a; simpl in *; try exact H. discriminate.
Qed.

Lemma quiet_facts (tr : list event) :
  quiet tr ->
  none_of is_provisioning tr /\ none_of is_tagging tr /\
  none_of is_remote tr /\ none_of is_file_write tr.
Proof.
  unfold quiet, is_loud. intros H. repeat split;
    (eapply none_of_weaken; [|exact H]); intros a Ha;
    repeat (apply orb_false_iff in Ha; destruct Ha as [Ha ?]); auto.
Qed.

Lemma quiet_projections (tr : list event) :
  quiet tr ->
  provision_errors tr = [] /\ (forall role, provisioned role tr = []) /\
  remote_runs tr = [] /\ files_written tr = [].
Proof.
  intros H. destruct (quiet_facts tr H) as (H1 & H2 & H3 & H4).
  destruct (none_of_provisioning tr H1). auto using none_of_remote, none_of_file_write.
Qed.

(** Leaves of a finite program: the trace is explicit. *)
Ltac leaf :=
  repeat match goal with
         | |- context [match ?x with _ => _ end] => is_var x; destruct x
         | |- _ /\ _ => split
         | |- quiet _ => unfold quiet, none_of; repeat constructor
         | |- none_of _ _ => unfold none_of; repeat constructor
         | |- In _ _ => simpl; tauto
         | |- _ = _ => reflexivity
         | |- True => exact I
         end.

Ltac steps :=
  repeat (cbn [always bind call eval deref];
          match goal with
          | |- forall _, _ => intro
          | |- always (match ?x with _ => _ end) _ => destruct x
          | |- always (if ?b then _ else _) _ => destruct b
          | |- always (bind (match ?x with _ => _ end) _) _ => destruct x
          | |- always (bind (if ?b then _ else _) _) _ => destruct b
          end);
  cbn [always bind call eval deref].

Lemma always_resolveTag (name : string) : always (resolveTag name) prepared.
Proof. unfold resolveTag, prepared. steps; leaf. Qed.

Lemma always_prepareSSHKey (useExistKey : bool) :
  always (prepareSSHKey useExistKey) prepared.
Proof. unfold prepareSSHKey, prepared. steps; leaf. Qed.

Lemma remote_runs_app (a b : list event) :
  remote_runs (a ++ b) = remote_runs a ++ remote_runs b.
Proof. apply flat_map_app. Qed.

Lemma files_written_app (a b : list event) :
  files_written (a ++ b) = files_written a ++ files_written b.
Proof. apply flat_map_app. Qed.

Lemma logged_app (lvl : level) (a b : list event) :
  logged lvl (a ++ b) = logged lvl a ++ logged lvl b.
Proof. apply flat_map_app. Qed.

Lemma returned_errors_app (a b : list event) :
  returned_errors (a ++ b) = returned_errors a ++ returned_errors b.
Proof. apply flat_map_app. Qed.

Lemma remote_runs_cons (e : event) (tr : list event) :
  remote_runs (e :: tr) = remote_run_of e ++ remote_runs tr.
Proof. reflexivity. Qed.

Lemma files_written_cons (e : event) (tr : list event) :
  files_written (e :: tr) = file_written_of e ++ files_written tr.
Proof. reflexivity. Qed.

Lemma logged_cons (lvl : level) (e : event) (tr : list event) :
  logged lvl (e :: tr) = logged_of lvl e ++ logged lvl tr.
Proof. reflexivity. Qed.

Lemma provisioned_cons (role : api.Role) (e : event) (tr : list event) :
  provisioned role (e :: tr) = provisioned_of role e ++ provisioned role tr.
Proof. reflexivity. Qed.

Lemma provision_errors_cons (e : event) (tr : list event) :
  provision_errors (e :: tr) = provision_error_of e ++ provision_errors tr.
Proof. reflexivity. Qed.

Lemma returned_errors_cons (e : event) (tr : list event) :
  returned_errors (e :: tr) = some_list (error_of e) ++ returned_errors tr.
Proof. reflexivity. Qed.

Lemma none_of_cons (P : action -> bool) (e : event) (tr : list event) :
  none_of P (e :: tr) <-> P (action_of e) = false /\ none_of P tr.
Proof. apply Forall_cons_iff. Qed.

Lemma none_of_nil (P : action -> bool) : none_of P [].
Proof. constructor. Qed.

(** Reads a trace made of explicit events and named parts. *)
Ltac read_trace :=
  repeat (rewrite ?remote_runs_app, ?files_written_app, ?logged_app,
            ?provisioned_app, ?provision_errors_app, ?returned_errors_app,
            ?remote_runs_cons, ?files_written_cons, ?logged_cons,
            ?provisioned_cons, ?provision_errors_cons, ?returned_errors_cons;
          cbn [remote_run_of file_written_of logged_of provisioned_of
               provision_error_of error_of some_list action_of level_eqb
               Nat.eqb app snd fst
               remote_runs files_written logged provisioned provision_errors
               returned_errors flat_map]).

Ltac none_of_tac :=
  repeat match goal with
         | |- none_of _ (_ ++ _) => apply none_of_app; split
         | |- none_of _ (_ :: _) => apply none_of_cons; split; [reflexivity|]
         | |- none_of _ [] => apply none_of_nil
         | H : none_of ?P ?t |- none_of ?P ?t => exact H
         end.

Lemma always_joinNodes (joinCmd : string) (ns : list Instance) :
  always (joinNodes joinCmd ns) (joinNodes_post joinCmd ns).
Proof.
  induction ns as [|node rest IH]; cbn [joinNodes].
  - simpl. split; [constructor|]. exists [], []. simpl. auto 10.
  - cbn [always bind call]. intros [output [e|]].
    + (* the command failed on [node] *)
      destruct (String.length output =? 0)%nat; cbn [always bind call]; intros;
        (split; [none_of_tac|]); exists [], []; read_trace;
        (split; [reflexivity|]); (split; [reflexivity|]);
        right; exists node, rest, output, e; auto.
    + (* [node] joined: on to the rest *)
      destruct (String.length output =? 0)%nat; cbn [always bind call]; intros;
        (eapply always_mono; [exact IH|]);
        intros tr o [Hn (joined & outs & Hlen & Hinfo & Hcase)];
        (split; [none_of_tac|]);
        exists (node :: joined), (output :: outs); read_trace;
        rewrite Hinfo; cbn [length];
        (split; [congruence|]); (split; [reflexivity|]);
        (destruct Hcase as [(Ho & Hns & Hruns & Herr)
                           | (n & rest' & out & e & Hns & Ho & Hruns & Herr)];
         [ left; subst; rewrite Hruns, Herr; auto
         | right; exists n, rest', out, e; subst; rewrite Hruns, Herr; auto ]).
Qed.


Lemma GetKubeJoinFromOutput_panics (output : string) (p : runtime_panic) :
  GetKubeJoinFromOutput output = Panics p ->
  p = SliceBoundsOutOfRange (-1) /\ ~ occurs marker output.
Proof.
  intros H.
  assert (Hno : ~ occurs marker output).
  { intros Hocc. destruct (GetKubeJoinFromOutput_present output Hocc) as (k & Hk & _).
    congruence. }
  split; [|exact Hno].
  rewrite (GetKubeJoinFromOutput_absent output Hno) in H. congruence.
Qed.

Ltac walk_steps :=
  repeat (cbn [always bind call eval deref];
          match goal with
          | |- forall _, _ => intro
          | |- always (bind (joinNodes _ _) _) _ =>
            apply always_bind; eapply always_mono; [apply always_joinNodes|];
            intros ? [[?|]|?] ?
          | |- always (match ?x with _ => _ end) _ =>
            (is_var x; destruct x) || destruct x eqn:?
          | |- always (if ?b then _ else _) _ => destruct b
          | |- always (bind (match ?x with _ => _ end) _) _ =>
            (is_var x; destruct x) || destruct x eqn:?
          | |- always (bind (if ?b then _ else _) _) _ => destruct b
          end);
  cbn [always bind call eval deref].

Lemma joinNodes_post_quiet (joinCmd : string) (ns : list Instance)
      (tr : list event) (o : outcome (option error)) :
  joinNodes_post joinCmd ns tr o ->
  none_of is_provisioning tr /\ files_written tr = [] /\
  none_of is_tagging tr /\ forall p, o <> Crashed p.
Proof.
  intros [Hn (joined & outs & _ & _ & Hcase)]. repeat split.
  - eapply none_of_weaken; [|exact Hn]. intros [] H; simpl in *; congruence.
  - apply none_of_file_write. eapply none_of_weaken; [|exact Hn].
    intros [] H; simpl in *; congruence.
  - eapply none_of_weaken; [|exact Hn]. intros [] H; simpl in *; congruence.
  - intros p Hp. destruct Hcase as [(Ho & _) | (n & rest & out & e & _ & Ho & _)];
      congruence.
Qed.

Section bringUp_succeeded.

Variables (opt : api.CreateClusterOption) (tagID : string)
          (cmo : CreateInstancesOption) (sh : Shared) (m : Instance).
Hypothesis errs_empty : errs sh = [].
Hypothesis master_set : master sh = Some m.

Ltac walk :=
  unfold bringUp, bootstrapMaster, applyCNI, transferKubeconfigToLocal;
  rewrite errs_empty, master_set; cbn [length Nat.eqb negb];
  destruct (api.ScpKubeConfigToLocal opt) eqn:Hscp;
  destruct (generateKubeadmInitCmd (api.Network opt) (api.KubernetesVersion opt))
    as [cmd [e|]] eqn:Hgen;
  walk_steps;
  repeat match goal with
         | H : joinNodes_post _ _ _ _ |- _ =>
           let H1 := fresh "Hq" in
           pose proof (joinNodes_post_quiet _ _ _ _ H) as H1;
           destruct H1 as (? & ? & ? & ?); revert H
         end; intros.

Lemma always_bringUp_master : always (bringUp opt tagID cmo sh) (master_used m).
Proof.
  walk; unfold master_used.
  all: (split; [none_of_tac|]).
  all: read_trace.
  all: try (split; [cbn [hd_error]; intros x Hx; inversion Hx; reflexivity || discriminate|]).
  all: try (intros p Hp; discriminate).
  all: intros p0 Hp0; inversion Hp0; subst p0.
  all: try match goal with
           | H : forall q, Crashed ?p <> Crashed q |- _ => destruct (H p); reflexivity
           end.
  all: match goal with
       | H : GetKubeJoinFromOutput _ = Panics _ |- _ =>
         apply GetKubeJoinFromOutput_panics in H; destruct H as [-> Hno]
       end.
  all: split; [reflexivity|]; eauto 6.
Qed.

Lemma always_bringUp_exported : always (bringUp opt tagID cmo sh) (exported opt m).
Proof.
  walk; unfold exported; rewrite Hscp.
  all: read_trace.
  all: repeat match goal with H : files_written _ = [] |- _ => rewrite H end.
  all: cbn [app].
  all: try (left; split; [reflexivity|]; intros Hc; discriminate).
  all: right; split; [reflexivity|].
  all: match goal with
       | |- exists data pre, ?a :: ?b :: ?R ++ [(_, _, (?d, _))] = _ /\ _ =>
         exists d, (a :: b :: R); split; reflexivity
       end.
Qed.

Lemma is_join_run_join (ip joinCmd : string) (r : string * option error) :
  is_join_run (ip, join_command joinCmd, r) = true.
Proof.
  unfold is_join_run, join_command. cbn [fst snd].
  apply bytes_facts.prefix_iff. exists joinCmd. reflexivity.
Qed.

Lemma filter_ok_runs (joinCmd : string) (joined : list Instance) (outs : list string) :
  filter is_join_run (ok_runs joinCmd joined outs) = ok_runs joinCmd joined outs.
Proof.
  unfold ok_runs. induction (combine joined outs) as [|[n out] l IH]; [reflexivity|].
  cbn [map filter fst snd]. rewrite is_join_run_join, IH. reflexivity.
Qed.

Lemma generateKubeadmInitCmd_ok (n : api.NetworkOption) (v cmd : string) :
  generateKubeadmInitCmd n v = (cmd, None) ->
  cmd = "kubeadm init --pod-network-cidr=" +++ api.PodNetWorkCIDR n
        +++ " --kubernetes-version=v" +++ v.
Proof.
  unfold generateKubeadmInitCmd.
  destruct (api.PodNetWorkCIDR n =? "")%string; [discriminate|].
  destruct ((api.CNIName n =? api.CalicoCNI)%string || (api.CNIName n =? api.FlannelCNI)%string);
    [|discriminate].
  intros H. inversion H. reflexivity.
Qed.

Lemma not_join_init (ip rest : string) (r : string * option error) :
  is_join_run (ip, "swapoff -a;" +++ "kubeadm init --pod-network-cidr=" +++ rest, r) = false.
Proof. reflexivity. Qed.

Lemma not_join_kubectl (ip rest : string) (r : string * option error) :
  is_join_run (ip, "kubectl --kubeconfig=" +++ rest, r) = false.
Proof. reflexivity. Qed.

Lemma not_join_cat (ip : string) (r : string * option error) :
  is_join_run (ip, "cat /etc/kubernetes/admin.conf", r) = false.
Proof. reflexivity. Qed.

Lemma always_bringUp_joining : always (bringUp opt tagID cmo sh) (joining (nodes sh)).
Proof.
  walk; unfold joining, cni_applied, directive_of, join_runs.
  all: read_trace.
  all: try match goal with
           | H : generateKubeadmInitCmd _ _ = (_, None) |- _ =>
             apply generateKubeadmInitCmd_ok in H; subst cmd
           end.
  all: try match goal with
           | H : joinNodes_post _ _ _ _ |- _ =>
             destruct H as [_ (joined & outs & Hlen & _ & Hcase)];
             destruct Hcase as [(Ho & Hns & Hruns & Herr)
                               | (n & rest & out & e' & Hns & Ho & Hruns & Herr)];
             try discriminate; rewrite Hruns, Herr
           end.
  all: repeat (rewrite ?filter_app; cbn [filter app];
               rewrite ?not_join_init, ?not_join_kubectl, ?not_join_cat,
                 ?is_join_run_join, ?filter_ok_runs, ?app_nil_r).
  (* the run ended before the loop *)
  all: try (left; split; [intros (x0 & ip0 & cmd0 & out0 & rest0 & Hc); discriminate Hc|];
            split; [reflexivity|]; intros Hc; discriminate Hc).
  (* the loop was entered *)
  all: right; split; [do 5 eexists; reflexivity|].
  all: match goal with
       | Hk : GetKubeJoinFromOutput ?s = Value ?a |- _ =>
         exists a, joined, outs; split; [exact Hlen|];
         split; [do 3 eexists; split; [reflexivity|exact Hk]|]
       end.
  all: try (left; split; [congruence|]; subst; reflexivity).
  all: inversion Ho; subst e'; right.
  all: exists n, rest, out, e; repeat split; auto; simpl; auto.
Qed.

End bringUp_succeeded.

Lemma bringUp_failed (opt : api.CreateClusterOption) (tagID : string)
      (cmo : CreateInstancesOption) (sh : Shared) :
  errs sh <> [] ->
  bringUp opt tagID cmo sh = Ret (Some (ProvisioningFailed (errs sh))).
Proof.
  intros H. unfold bringUp. destruct (errs sh); [congruence|]. reflexivity.
Qed.

Lemma quiet_app (a b : list event) : quiet a -> quiet b -> quiet (a ++ b).
Proof. intros Ha Hb. apply none_of_app. auto. Qed.

Lemma quiet_log (lvl : level) (format : string) (operands : list string) (r : unit)
      (tr : list event) :
  quiet tr -> quiet (Event (klog lvl format operands) r :: tr).
Proof. intros H. constructor; [reflexivity | exact H]. Qed.

Lemma app_nil_eq {A : Type} (a b : list A) : a = [] -> b = [] -> a ++ b = [].
Proof. intros -> ->. reflexivity. Qed.

(** The runs of [runCreate], by the stage at which they end. *)
Lemma runCreate_cases (sched : list tid) (opt : api.CreateClusterOption)
      (Q : list event -> outcome (option error) -> Prop) :
  (forall pre e,
      quiet pre -> In e (returned_errors pre) -> Q pre (Returned (Some e))) ->
  (api.map_get api.PresetKubernetes (api.KubernetesVersion opt) = None ->
   forall pre,
     quiet pre -> returned_errors pre = [] ->
     Q pre (Returned (Some (UnsupportedVersion (api.KubernetesVersion opt))))) ->
  (forall pre trp,
      quiet pre ->
      api.map_get api.PresetKubernetes (api.KubernetesVersion opt) <> None ->
      only_provisioning trp ->
      provisioned api.RoleMaster trp = [([], None)] ->
      Q (pre ++ trp) (Crashed (IndexOutOfRange 0 0))) ->
  (forall pre trp,
      quiet pre ->
      api.map_get api.PresetKubernetes (api.KubernetesVersion opt) <> None ->
      only_provisioning trp ->
      nil_returned trp ->
      Q (pre ++ trp) (Crashed NilPointerDereference)) ->
  (forall pre trp errs,
      quiet pre ->
      api.map_get api.PresetKubernetes (api.KubernetesVersion opt) <> None ->
      only_provisioning trp ->
      errs <> [] -> incl errs (provision_errors trp) ->
      ~ In ([], None) (provisioned api.RoleMaster trp) ->
      ~ nil_returned trp ->
      Q (pre ++ trp) (Returned (Some (ProvisioningFailed errs)))) ->
  (forall pre trp tagID keyid m rest sh,
      quiet pre -> returned_errors pre = [] ->
      api.map_get api.PresetKubernetes (api.KubernetesVersion opt) <> None ->
      only_provisioning trp -> provision_errors trp = [] ->
      provisioned api.RoleMaster trp = [(Some m :: rest, None)] ->
      provisioned api.RoleNode trp = [(map Some (nodes sh), None)] ->
      errs sh = [] -> master sh = Some m ->
      always (bringUp opt tagID (createMasterOpt opt keyid) sh)
             (fun tr o => Q (pre ++ trp ++ tr) o)) ->
  always (runCreate sched opt) Q.
Proof.
  intros Hearly Hversion Hcrash Hnilcrash Hfailed Hup. unfold runCreate.
  apply always_bind. eapply always_mono; [apply always_resolveTag|].
  intros tr1 [[tagID [e|]]|p] [Hq1 Hr1]; [| |destruct Hr1].
  { cbn [always]. rewrite app_nil_r. apply Hearly; assumption. }
  cbn [always bind call]. intros [].
  apply always_bind. eapply always_mono; [apply always_prepareSSHKey|].
  intros tr2 [[keyid [e|]]|p] [Hq2 Hr2]; [| |destruct Hr2].
  { cbn [always]. rewrite app_nil_r. apply Hearly.
    - apply quiet_app; [assumption|]. apply quiet_log. assumption.
    - rewrite returned_errors_app. apply in_or_app. right. exact Hr2. }
  cbn [always bind call]. intros [].
  set (pre0 := tr1 ++ Event (klog INFO "Prepare ssh key" []) tt
                   :: tr2 ++ [Event (klog INFO "Creating Master" []) tt]).
  assert (Hpre0 : quiet pre0).
  { unfold pre0. apply quiet_app; [assumption|]. apply quiet_log.
    apply quiet_app; [assumption|]. apply quiet_log. constructor. }
  assert (Herr0 : returned_errors pre0 = []).
  { unfold pre0. read_trace. rewrite Hr1, Hr2. reflexivity. }
  destruct (api.map_get api.PresetKubernetes (api.KubernetesVersion opt)) as [preset|] eqn:Hmap.
  2:{ cbn [always]. exact (Hversion eq_refl pre0 Hpre0 Herr0). }
  cbn [always bind call]. intros [].
  set (pre := pre0 ++ [Event (klog INFO "Waiting for machines to start" []) tt]).
  assert (Hpre : quiet pre).
  { unfold pre. apply quiet_app; [assumption|]. apply quiet_log. constructor. }
  assert (Herr : returned_errors pre = []).
  { unfold pre. read_trace. rewrite Herr0. reflexivity. }
  assert (Hshape : forall tr o, Q (pre ++ tr) o ->
             Q (tr1 ++ Event (klog INFO "Prepare ssh key" []) tt
                    :: tr2 ++ Event (klog INFO "Creating Master" []) tt
                    :: Event (klog INFO "Waiting for machines to start" []) tt :: tr) o).
  { intros tr o H. unfold pre, pre0 in H.
    repeat (rewrite <- ?app_assoc in H; cbn [app] in H). exact H. }
  apply always_bind.
  eapply always_mono.
  - apply always_conj.
    + apply (provisioning_always sched); reflexivity.
    + apply (never_always (fun a => negb (is_provisioning a || is_log a))).
      apply never_interleave; reflexivity.
  - intros trp [sh|p] [Hpost Honly]; cbv beta in *.
    + destruct Hpost as (Hincl & Hne & Hnoempty & Hnonil & Hok).
      destruct (errs sh) as [|e0 es] eqn:Herrs.
      * (* both provisioning calls succeeded *)
        assert (Hnil : provision_errors trp = []).
        { destruct (provision_errors trp) as [|x xs] eqn:Hx; [reflexivity|].
          destruct Hne; [discriminate | reflexivity]. }
        destruct (Hok Hnil) as (m & rest & ns & HpM & HpN & _ & Hm & Hns).
        subst ns.
        eapply always_mono.
        -- eapply (Hup pre trp tagID keyid m rest sh); eauto. discriminate.
        -- intros tr o H. apply Hshape. exact H.
      * (* an error was recorded *)
        rewrite bringUp_failed by (rewrite Herrs; discriminate).
        cbn [always]. apply Hshape. rewrite app_nil_r. apply Hfailed; auto.
        -- discriminate.
        -- rewrite Herrs. discriminate.
        -- rewrite Herrs. exact Hincl.
    + destruct Hpost as [[-> Hin] | [-> Hin]]; apply Hshape;
        [apply Hcrash | apply Hnilcrash]; auto; discriminate.
Qed.

(** * The claims *)

(** C1.  The spec asks that extraction fail with [JoinDirectiveNotFound]
    when the marker "kubeadm join" does not occur in the output.  The
    code has no such error: [strings.LastIndex] is then [-1], the slice
    expression [output[-1:]] panics, and [bootstrapMaster], which has
    already run [kubeadm init] on the master, crashes instead of
    returning an error.  (A directive is returned only when the marker
    occurs.) *)
Theorem join_directive_absent_panics (output : string) :
  ~ occurs marker output ->
  GetKubeJoinFromOutput output = Panics (SliceBoundsOutOfRange (-1)) /\
  (forall joinCmd, GetKubeJoinFromOutput output <> Value joinCmd) /\
  forall (S : Type) (h : handler S) (s : S) (m : Instance)
         (opt : api.CreateClusterOption) (cmd : string),
    generateKubeadmInitCmd (api.Network opt) (api.KubernetesVersion opt)
    = (cmd, None) ->
    fst (h (ssh_QuickConnectAndRun (IP m) ("swapoff -a;" +++ cmd)) s)
    = (output, None) ->
    result_of (run h (bootstrapMaster (Some m) opt) s)
    = Crashed (SliceBoundsOutOfRange (-1)).
Proof.
  intros Hno. pose proof (GetKubeJoinFromOutput_absent output Hno) as Hp.
  split; [exact Hp|]. split; [intros j Hj; congruence|].
  intros S h s m opt cmd Hgen Hrun.
  unfold bootstrapMaster. rewrite Hgen. cbn [deref bind call run].
  destruct (h (ssh_QuickConnectAndRun (IP m) ("swapoff -a;" +++ cmd)) s) as [r s1].
  cbn [fst] in Hrun. subst r. cbn [bind run].
  destruct (h (klog INFO "Getting 'kubeadm join'" []) s1) as [[] s2].
  rewrite Hp. cbn [bind run call].
  destruct (h (klog (V 1) output []) s2) as [[] s3]. reflexivity.
Qed.

Lemma join_directive_absent_panics_witness :
  GetKubeJoinFromOutput "hello" = Panics (SliceBoundsOutOfRange (-1)) /\
  result_of (run (cloud no_directive) (bootstrapMaster (Some the_master) demo)
                 empty_cloud)
  = Crashed (SliceBoundsOutOfRange (-1)).
Proof.
  assert (Hno : ~ occurs marker "hello").
  { intros Hocc. apply marker_facts.marker_survives in Hocc.
    destruct Hocc as [i Hi]. apply occurs_at_iff in Hi. destruct Hi as [Hle Hp].
    vm_compute in Hle.
    do 6 (destruct i as [|i]; [vm_compute in Hp; discriminate|]). lia. }
  destruct (join_directive_absent_panics "hello" Hno) as (H1 & _ & H3).
  split; [exact H1|].
  apply (H3 Cloud (cloud no_directive) empty_cloud the_master demo
            "kubeadm init --pod-network-cidr=10.244.0.0/16 --kubernetes-version=v1.15.2");
    reflexivity.
Defined.

(** C1, on a whole run: with a master whose [kubeadm init] prints no join
    directive, [runCreate] crashes after tagging and bootstrap. *)
Example runCreate_without_directive_crashes :
  result_of (run (cloud no_directive) (runCreate [] demo) empty_cloud)
  = Crashed (SliceBoundsOutOfRange (-1)).
Proof. vm_compute. reflexivity. Qed.

(** C6.  When the marker occurs in the output, the join directive is the
    rest of the trimmed output from the last occurrence of "kubeadm join"
    on; for the output "...\nkubeadm join 10.0.0.1:6443 --token abc\n" it
    is "kubeadm join 10.0.0.1:6443 --token abc". *)
Theorem join_directive_from_last_marker :
  (forall output,
      occurs marker output ->
      exists k,
        GetKubeJoinFromOutput output = Value (drop k (strings.TrimSpace output)) /\
        occurs_at marker (strings.TrimSpace output) k /\
        (forall k', k < k' -> ~ occurs_at marker (strings.TrimSpace output) k')) /\
  GetKubeJoinFromOutput
    ("..." +++ nl +++ "kubeadm join 10.0.0.1:6443 --token abc" +++ nl)
  = Value "kubeadm join 10.0.0.1:6443 --token abc".
Proof.
  split; [apply GetKubeJoinFromOutput_present|]. vm_compute. reflexivity.
Qed.

Lemma join_directive_from_last_marker_witness :
  let output := "two" +++ nl +++ "kubeadm join a" +++ nl +++ "kubeadm join b  " in
  occurs marker output /\
  exists k,
    GetKubeJoinFromOutput output = Value (drop k (strings.TrimSpace output)) /\
    occurs_at marker (strings.TrimSpace output) k /\
    (forall k', k < k' -> ~ occurs_at marker (strings.TrimSpace output) k').
Proof.
  intros output.
  assert (Hocc : occurs marker output).
  { exists 4, ("two" +++ nl), (" a" +++ nl +++ "kubeadm join b  ").
    split; reflexivity. }
  split; [exact Hocc|].
  apply (proj1 join_directive_from_last_marker output Hocc).
Defined.

(** C5.  [generateKubeadmInitCmd]: the command for calico or flannel with
    a pod CIDR, [MissingPodCIDR] for an empty CIDR whatever the CNI name,
    [UnsupportedCNI] for any other CNI name; when it fails,
    [bootstrapMaster] returns the error without a call and no run of
    [runCreate] executes a remote command. *)
Theorem kubeadm_init_command :
  (forall cni cidr version,
      cidr <> "" -> cni = "calico" \/ cni = "flannel" ->
      generateKubeadmInitCmd
        {| api.CNIName := cni; api.PodNetWorkCIDR := cidr |} version
      = ("kubeadm init --pod-network-cidr=" +++ cidr
         +++ " --kubernetes-version=v" +++ version, None)) /\
  generateKubeadmInitCmd
    {| api.CNIName := "calico"; api.PodNetWorkCIDR := "10.244.0.0/16" |} "1.15.2"
  = ("kubeadm init --pod-network-cidr=10.244.0.0/16 --kubernetes-version=v1.15.2",
     None) /\
  (forall cni version,
      generateKubeadmInitCmd
        {| api.CNIName := cni; api.PodNetWorkCIDR := "" |} version
      = ("", Some MissingPodCIDR)) /\
  (forall cni cidr version,
      cidr <> "" -> cni <> "calico" -> cni <> "flannel" ->
      generateKubeadmInitCmd
        {| api.CNIName := cni; api.PodNetWorkCIDR := cidr |} version
      = ("", Some (UnsupportedCNI cni))) /\
  (forall (S : Type) (h : handler S) (s : S) (sched : list tid)
          (opt : api.CreateClusterOption) (e : error),
      snd (generateKubeadmInitCmd (api.Network opt) (api.KubernetesVersion opt))
      = Some e ->
      (forall m, run h (bootstrapMaster m opt) s = mkRun (Returned ("", Some e)) s [])
      /\ none_of is_remote (trace (run h (runCreate sched opt) s))).
Proof.
  split; [|split; [|split; [|split]]].
  - intros cni cidr version Hc Hcni. unfold generateKubeadmInitCmd. cbn [api.PodNetWorkCIDR api.CNIName].
    destruct (String.eqb_spec cidr ""); [congruence|].
    destruct Hcni as [-> | ->]; reflexivity.
  - reflexivity.
  - reflexivity.
  - intros cni cidr version Hc H1 H2. unfold generateKubeadmInitCmd.
    cbn [api.PodNetWorkCIDR api.CNIName]. unfold api.CalicoCNI, api.FlannelCNI.
    destruct (String.eqb_spec cidr ""); [congruence|].
    destruct (String.eqb_spec cni "calico"); [congruence|].
    destruct (String.eqb_spec cni "flannel"); [congruence|].
    reflexivity.
  - intros S h s sched opt e Hgen. split.
    + intros m. unfold bootstrapMaster.
      destruct (generateKubeadmInitCmd (api.Network opt) (api.KubernetesVersion opt))
        as [cmd o] eqn:Hg.
      cbn [snd] in Hgen. subst o.
      assert (Hcmd : cmd = "").
      { unfold generateKubeadmInitCmd in Hg.
        destruct (api.PodNetWorkCIDR (api.Network opt) =? "")%string; [congruence|].
        destruct ((api.CNIName (api.Network opt) =? api.CalicoCNI)%string
                  || (api.CNIName (api.Network opt) =? api.FlannelCNI)%string);
          congruence. }
      subst cmd. reflexivity.
    + apply (always_sound (runCreate sched opt) (fun tr _ => none_of is_remote tr)).
      apply runCreate_cases.
      * intros pre e0 Hq _. apply quiet_facts in Hq. tauto.
      * intros _ pre Hq _. apply quiet_facts in Hq. tauto.
      * intros pre trp Hq _ Hp _. apply none_of_app. split.
        -- apply quiet_facts in Hq. tauto.
        -- eapply none_of_weaken; [|exact Hp]. intros [] H; simpl in *; congruence.
      * intros pre trp Hq _ Hp _. apply none_of_app. split.
        -- apply quiet_facts in Hq. tauto.
        -- eapply none_of_weaken; [|exact Hp]. intros [] H; simpl in *; congruence.
      * intros pre trp errs Hq _ Hp _ _ _ _. apply none_of_app. split.
        -- apply quiet_facts in Hq. tauto.
        -- eapply none_of_weaken; [|exact Hp]. intros [] H; simpl in *; congruence.
      * intros pre trp tagID keyid m rest sh Hq _ _ Hp _ _ _ He Hm.
        eapply always_mono.
        -- apply (never_always is_remote).
           unfold bringUp, bootstrapMaster. rewrite He.
           destruct (generateKubeadmInitCmd (api.Network opt) (api.KubernetesVersion opt))
             as [cmd o].
           cbn [snd] in Hgen. subst o. unfold call. never_auto.
        -- cbv beta. intros tr o Hn. apply none_of_app. split.
           ++ apply quiet_facts in Hq. tauto.
           ++ apply none_of_app. split; [|exact Hn].
              eapply none_of_weaken; [|exact Hp]. intros [] H; simpl in *; congruence.
Qed.

Lemma kubeadm_init_command_witness :
  generateKubeadmInitCmd
    {| api.CNIName := "flannel"; api.PodNetWorkCIDR := "10.244.0.0/16" |} "1.13.1"
  = ("kubeadm init --pod-network-cidr=10.244.0.0/16 --kubernetes-version=v1.13.1",
     None) /\
  generateKubeadmInitCmd
    {| api.CNIName := "weave"; api.PodNetWorkCIDR := "10.244.0.0/16" |} "1.15.2"
  = ("", Some (UnsupportedCNI "weave")) /\
  none_of is_remote
    (trace (run (cloud all_well)
                (runCreate [] (with_network demo "weave" "10.244.0.0/16"))
                empty_cloud)).
Proof.
  destruct kubeadm_init_command as (H1 & _ & _ & H4 & H5).
  split; [|split].
  - apply H1; [discriminate | right; reflexivity].
  - apply H4; discriminate.
  - apply (H5 Cloud (cloud all_well) empty_cloud []
              (with_network demo "weave" "10.244.0.0/16") (UnsupportedCNI "weave")).
    reflexivity.
Defined.

(** C8.  The spec asks that the appends of the two goroutines to the
    shared [errs] and [machines] be synchronized.  The code appends
    without a lock: when both goroutines load the slice before either
    stores it, one append is lost.  With both provisioning calls failing,
    only the error of the nodes reaches the returned error; with both
    succeeding, the master's ID is missing from the instances tagged. *)
Theorem concurrent_appends_lose_updates :
  (let r := run (cloud both_fail) (runCreate racy_schedule demo) empty_cloud in
   provision_errors (trace r) = [err_master; err_nodes] /\
   result_of r = Returned (Some (ProvisioningFailed [err_nodes])))
  /\
  (let r := run (cloud all_well)
                (runCreate [T_master; T_nodes; T_master; T_master; T_nodes;
                            T_master; T_nodes] demo) empty_cloud in
   provisioned api.RoleMaster (trace r) = [([Some the_master], None)] /\
   filter is_tagging (actions (trace r))
   = [tag_TagInstances "tag-K8S-Cluster-demo" ["i-a"; "i-b"; "i-c"]] /\
   result_of r = Returned None).
Proof. vm_compute. repeat split; reflexivity. Qed.

Lemma only_provisioning_facts (tr : list event) :
  only_provisioning tr ->
  none_of is_tagging tr /\ none_of is_remote tr /\ none_of is_file_write tr /\
  remote_runs tr = [] /\ files_written tr = [].
Proof.
  intros H.
  assert (H1 : none_of is_remote tr)
    by (eapply none_of_weaken; [|exact H]; intros [] Ha; simpl in *; congruence).
  assert (H2 : none_of is_file_write tr)
    by (eapply none_of_weaken; [|exact H]; intros [] Ha; simpl in *; congruence).
  assert (H3 : none_of is_tagging tr)
    by (eapply none_of_weaken; [|exact H]; intros [] Ha; simpl in *; congruence).
  repeat split; auto using none_of_remote, none_of_file_write.
Qed.

(** What every run of [runCreate] does once a provisioning call has
    recorded an error: no instance is tagged, no remote command is run
    and no file is written, even if the other call succeeded; the run
    returns [ProvisioningFailed] with errors that the calls recorded, at
    least one of them, unless a goroutine panicked before [wg.Wait()]. *)
Lemma recorded_error_ends_the_run
      (S : Type) (h : handler S) (s : S) (sched : list tid)
      (opt : api.CreateClusterOption) :
  let r := run h (runCreate sched opt) s in
  provision_errors (trace r) <> [] ->
  ((exists errs,
       errs <> [] /\ incl errs (provision_errors (trace r)) /\
       result_of r = Returned (Some (ProvisioningFailed errs)))
   \/
   (result_of r = Crashed (IndexOutOfRange 0 0) /\
    provisioned api.RoleMaster (trace r) = [([], None)])
   \/
   (result_of r = Crashed NilPointerDereference /\ nil_returned (trace r))) /\
  none_of is_tagging (trace r) /\ none_of is_remote (trace r) /\
  none_of is_file_write (trace r).
Proof.
  apply (always_sound (runCreate sched opt)
           (fun tr o =>
              provision_errors tr <> [] ->
              ((exists errs,
                   errs <> [] /\ incl errs (provision_errors tr) /\
                   o = Returned (Some (ProvisioningFailed errs)))
               \/
               (o = Crashed (IndexOutOfRange 0 0) /\
                provisioned api.RoleMaster tr = [([], None)])
               \/
               (o = Crashed NilPointerDereference /\ nil_returned tr)) /\
              none_of is_tagging tr /\ none_of is_remote tr /\
              none_of is_file_write tr)).
  apply runCreate_cases.
  - intros pre e Hq _ Hne. apply quiet_projections in Hq. tauto.
  - intros _ pre Hq _ Hne. apply quiet_projections in Hq. tauto.
  - intros pre trp Hq _ Hp Hempty _.
    destruct (quiet_projections _ Hq) as (_ & HqP & _).
    destruct (quiet_facts _ Hq) as (_ & Hq2 & Hq3 & Hq4).
    destruct (only_provisioning_facts _ Hp) as (Hp2 & Hp3 & Hp4 & _).
    split; [|repeat split; apply none_of_app; auto].
    right. left. rewrite provisioned_app, HqP. auto.
  - intros pre trp Hq _ Hp Hnil _.
    destruct (quiet_projections _ Hq) as (_ & HqP & _).
    destruct (quiet_facts _ Hq) as (_ & Hq2 & Hq3 & Hq4).
    destruct (only_provisioning_facts _ Hp) as (Hp2 & Hp3 & Hp4 & _).
    split; [|repeat split; apply none_of_app; auto].
    right. right. split; [reflexivity|].
    unfold nil_returned. rewrite !provisioned_app, !HqP. exact Hnil.
  - intros pre trp errs Hq _ Hp Hne Hincl _ _ _.
    destruct (quiet_projections _ Hq) as (He & _).
    destruct (quiet_facts _ Hq) as (_ & Hq2 & Hq3 & Hq4).
    destruct (only_provisioning_facts _ Hp) as (Hp2 & Hp3 & Hp4 & _).
    split; [|repeat split; apply none_of_app; auto].
    left. exists errs. rewrite provision_errors_app, He. auto.
  - intros pre trp tagID keyid m rest sh Hq _ _ Hp Hnil _ _ He Hm.
    eapply always_mono; [apply (always_bringUp_master opt tagID _ sh m He Hm)|].
    cbv beta. intros tr o (Hn & _) Hne. exfalso. apply Hne.
    rewrite !provision_errors_app.
    destruct (quiet_projections _ Hq) as (-> & _).
    destruct (none_of_provisioning _ Hn) as (-> & _). rewrite Hnil. reflexivity.
Qed.

Lemma recorded_error_ends_the_run_example :
  let r := run (cloud master_fails) (runCreate [T_nodes; T_master] demo) empty_cloud in
  provisioned api.RoleNode (trace r)
  = [(map Some [node_A; node_B; node_C], None)] /\
  result_of r = Returned (Some (ProvisioningFailed [err_master])) /\
  none_of is_tagging (trace r) /\ none_of is_remote (trace r) /\
  none_of is_file_write (trace r).
Proof.
  intros r. split; [vm_compute; reflexivity|].
  split; [vm_compute; reflexivity|].
  apply (recorded_error_ends_the_run Cloud (cloud master_fails) empty_cloud
           [T_nodes; T_master] demo).
  vm_compute. discriminate.
Qed.

(** C3.  The spec asks that a run in which a provisioning call recorded
    an error return [ProvisioningFailed] with all the errors collected,
    and do no tagging, bootstrap, CNI apply or node join.  The code does
    neither tagging nor any later step in such a run, but the error it
    returns is built from the shared [errs], to which the goroutines
    append without a lock: with both calls failing and each goroutine
    loading [errs] before the other stores, the error of the master call
    is recorded and missing from the returned error.  And with the nodes
    call failing first and the master call then answering without an
    instance, the master goroutine panics on [instances[0]] and no error
    is returned. *)
Theorem provisioning_failure_drops_an_error :
  (let r := run (cloud both_fail) (runCreate racy_schedule demo) empty_cloud in
   provision_errors (trace r) = [err_master; err_nodes] /\
   result_of r = Returned (Some (ProvisioningFailed [err_nodes])) /\
   filter (fun a => is_tagging a || is_remote a || is_file_write a)
          (actions (trace r)) = [])
  /\
  (let r := run (cloud nodes_fail_no_master)
                (runCreate [T_nodes; T_nodes; T_nodes] demo) empty_cloud in
   provision_errors (trace r) = [err_nodes] /\
   provisioned api.RoleMaster (trace r) = [([], None)] /\
   result_of r = Crashed (IndexOutOfRange 0 0) /\
   filter (fun a => is_tagging a || is_remote a || is_file_write a)
          (actions (trace r)) = []).
Proof. vm_compute. repeat split; reflexivity. Qed.

Lemma join_runs_app (a b : list event) :
  join_runs (a ++ b) = join_runs a ++ join_runs b.
Proof. unfold join_runs. rewrite remote_runs_app. apply filter_app. Qed.

Lemma join_runs_none (tr : list event) : remote_runs tr = [] -> join_runs tr = [].
Proof. unfold join_runs. intros ->. reflexivity. Qed.

Lemma joining_not_started (ns : list Instance) (tr : list event)
      (o : outcome (option error)) :
  remote_runs tr = [] -> o <> Returned None -> joining ns tr o.
Proof.
  intros Hr Ho. left. split; [|split].
  - intros (x & ip & cmd & out & rest & Hc). rewrite Hr in Hc. discriminate.
  - apply join_runs_none. exact Hr.
  - exact Ho.
Qed.

(** [joining] reads the remote runs and the error lines only. *)
Lemma joining_same_runs (ns : list Instance) (tr tr' : list event)
      (o : outcome (option error)) :
  remote_runs tr' = remote_runs tr ->
  incl (logged ERROR tr) (logged ERROR tr') ->
  joining ns tr o -> joining ns tr' o.
Proof.
  intros Hr Hl. unfold joining, cni_applied, directive_of, join_runs.
  rewrite Hr.
  intros [H | (Hc & joinCmd & joined & outs & Hlen & Hdir & Hcase)]; [left; exact H|].
  right. split; [exact Hc|]. exists joinCmd, joined, outs.
  split; [exact Hlen|]. split; [exact Hdir|].
  destruct Hcase as [H | (n & rest & out & e & H1 & H2 & H3 & H4)]; [left; exact H|].
  right. exists n, rest, out, e. repeat split; auto.
Qed.

Lemma map_Some_inj {A : Type} (l l' : list A) : map Some l = map Some l' -> l = l'.
Proof.
  revert l'. induction l as [|x l IH]; intros [|y l'] H; try discriminate; [reflexivity|].
  inversion H. f_equal. apply IH. assumption.
Qed.

(** The claim C4 asks for an error that identifies the failed node.  The
    error that [runCreate] returns is the error of the remote command,
    as [ssh.QuickConnectAndRun] returned it: when that error is the same
    on node A and on node B, the two runs return the same error, and
    only the error line of the log tells the nodes apart. *)
Lemma join_error_does_not_name_the_node :
  let rA := run (cloud A_fails) (runCreate [] demo) empty_cloud in
  let rB := run (cloud B_fails) (runCreate [] demo) empty_cloud in
  map (fun x => fst (fst x)) (join_runs (trace rA)) = [IP node_A] /\
  map (fun x => fst (fst x)) (join_runs (trace rB)) = [IP node_A; IP node_B] /\
  logged ERROR (trace rA) = [failed_line node_A] /\
  logged ERROR (trace rB) = [failed_line node_B] /\
  result_of rA = Returned (Some (errorString "ssh: exit status 1")) /\
  result_of rB = result_of rA.
Proof. vm_compute. repeat split; reflexivity. Qed.

(** C4, as the code has it.  In every run of [runCreate], if the nodes
    call returned [ns]: either the run ended before the join loop, and
    no join command was run; or the join commands run are "swapoff -a; "
    followed by the join directive, on the nodes of [ns] one after the
    other in the order of [ns], and at the first failure the run returns
    the error of that command as it is, logs the failure with the ID and
    address of the node, and runs no join on a later node.  The returned
    error does not identify the node; the log line does. *)
Theorem nodes_join_in_provisioning_order
        (S : Type) (h : handler S) (s : S) (sched : list tid)
        (opt : api.CreateClusterOption) (ns : list Instance) :
  let r := run h (runCreate sched opt) s in
  provisioned api.RoleNode (trace r) = [(map Some ns, None)] ->
  joining ns (trace r) (result_of r).
Proof.
  apply (always_sound (runCreate sched opt)
           (fun tr o => provisioned api.RoleNode tr = [(map Some ns, None)] ->
                        joining ns tr o)).
  apply runCreate_cases.
  - intros pre e Hq _ _. apply joining_not_started; [|discriminate].
    apply quiet_projections in Hq. tauto.
  - intros _ pre Hq _ _. apply joining_not_started; [|discriminate].
    apply quiet_projections in Hq. tauto.
  - intros pre trp Hq _ Hp _ _. apply joining_not_started; [|discriminate].
    rewrite remote_runs_app. apply app_nil_eq.
    + apply quiet_projections in Hq. tauto.
    + apply only_provisioning_facts in Hp. tauto.
  - intros pre trp Hq _ Hp _ _. apply joining_not_started; [|discriminate].
    rewrite remote_runs_app. apply app_nil_eq.
    + apply quiet_projections in Hq. tauto.
    + apply only_provisioning_facts in Hp. tauto.
  - intros pre trp errs Hq _ Hp _ _ _ _ _. apply joining_not_started; [|discriminate].
    rewrite remote_runs_app. apply app_nil_eq.
    + apply quiet_projections in Hq. tauto.
    + apply only_provisioning_facts in Hp. tauto.
  - intros pre trp tagID keyid m rest sh Hq _ _ Hp _ _ HpN He Hm.
    eapply always_mono.
    + apply always_conj.
      * apply (always_bringUp_master opt tagID _ sh m He Hm).
      * apply (always_bringUp_joining opt tagID _ sh m He Hm).
    + cbv beta. intros tr o [(Hn & _) Hj] Hprov.
      destruct (quiet_projections _ Hq) as (_ & HqP & HqR & _).
      destruct (only_provisioning_facts _ Hp) as (_ & _ & _ & HpR & _).
      destruct (none_of_provisioning _ Hn) as (_ & HnP).
      rewrite !provisioned_app, HqP, HpN, HnP in Hprov.
      cbn [app] in Hprov. inversion Hprov as [Hmap].
      apply map_Some_inj in Hmap. subst ns.
      apply (joining_same_runs (nodes sh) tr); [| |exact Hj].
      * rewrite !remote_runs_app, HqR, HpR. reflexivity.
      * intros x Hx. rewrite !logged_app.
        apply in_or_app. right. apply in_or_app. right. exact Hx.
Qed.

Lemma nodes_join_in_provisioning_order_witness :
  let r := run (cloud B_fails) (runCreate [] demo) empty_cloud in
  provisioned api.RoleNode (trace r) = [(map Some [node_A; node_B; node_C], None)] /\
  joining [node_A; node_B; node_C] (trace r) (result_of r) /\
  map (fun x => fst (fst x)) (join_runs (trace r)) = [IP node_A; IP node_B] /\
  result_of r = Returned (Some (errorString "ssh: exit status 1")) /\
  logged ERROR (trace r) = [failed_line node_B].
Proof.
  split; [vm_compute; reflexivity|]. split.
  - apply (nodes_join_in_provisioning_order Cloud (cloud B_fails) empty_cloud [] demo).
    vm_compute. reflexivity.
  - vm_compute. repeat split; reflexivity.
Defined.

(** The export in a whole run of [runCreate]. *)
Lemma runCreate_exported (sched : list tid) (opt : api.CreateClusterOption) :
  always (runCreate sched opt)
    (fun tr o =>
       (files_written tr = [] /\
        (api.ScpKubeConfigToLocal opt = true -> o <> Returned None))
       \/
       (api.ScpKubeConfigToLocal opt = true /\
        exists m rest data pre,
          provisioned api.RoleMaster tr = [(Some m :: rest, None)] /\
          remote_runs tr
          = pre ++ [(IP m, "cat /etc/kubernetes/admin.conf", (data, None))] /\
          files_written tr
          = [(api.LocalKubeConfigPath opt +++ "/kubeconfig", data, perm_0600)])).
Proof.
  apply runCreate_cases.
  - intros pre e Hq _. left. apply quiet_projections in Hq.
    split; [tauto | intros _; discriminate].
  - intros _ pre Hq _. left. apply quiet_projections in Hq.
    split; [tauto | intros _; discriminate].
  - intros pre trp Hq _ Hp _. left. split; [|intros _; discriminate].
    rewrite files_written_app. apply app_nil_eq.
    + apply quiet_projections in Hq. tauto.
    + apply only_provisioning_facts in Hp. tauto.
  - intros pre trp Hq _ Hp _. left. split; [|intros _; discriminate].
    rewrite files_written_app. apply app_nil_eq.
    + apply quiet_projections in Hq. tauto.
    + apply only_provisioning_facts in Hp. tauto.
  - intros pre trp errs Hq _ Hp _ _ _ _. left. split; [|intros _; discriminate].
    rewrite files_written_app. apply app_nil_eq.
    + apply quiet_projections in Hq. tauto.
    + apply only_provisioning_facts in Hp. tauto.
  - intros pre trp tagID keyid m rest sh Hq _ _ Hp _ HpM _ He Hm.
    eapply always_mono.
    + apply always_conj.
      * apply (always_bringUp_master opt tagID _ sh m He Hm).
      * apply (always_bringUp_exported opt tagID _ sh m He Hm).
    + cbv beta. intros tr o [(Hn & _) Hex].
      destruct (quiet_projections _ Hq) as (_ & HqP & HqR & HqF).
      destruct (only_provisioning_facts _ Hp) as (_ & _ & _ & HpR & HpF).
      destruct (none_of_provisioning _ Hn) as (_ & HnP).
      rewrite !files_written_app, !remote_runs_app, !provisioned_app,
        HqF, HpF, HqR, HpR, HqP, HpM, HnP.
      cbn [app].
      destruct Hex as [Hl | (Hscp & data & pre' & Hr & Hf)]; [left; exact Hl|].
      right. split; [exact Hscp|]. exists m, rest, data, pre'. auto.
Qed.

(** C9.  In every run of [runCreate]: without the export flag no file is
    written; with the flag, a run that succeeds has read
    /etc/kubernetes/admin.conf on the master with its last remote command
    and written exactly these bytes to [<localPath>/kubeconfig] with mode
    0600; and whenever a file is written, it is this one, with the bytes
    just read. *)
Theorem kubeconfig_exported_verbatim
        (S : Type) (h : handler S) (s : S) (sched : list tid)
        (opt : api.CreateClusterOption) :
  let r := run h (runCreate sched opt) s in
  (api.ScpKubeConfigToLocal opt = false -> files_written (trace r) = []) /\
  (api.ScpKubeConfigToLocal opt = true -> result_of r = Returned None ->
   exists m rest data pre,
     provisioned api.RoleMaster (trace r) = [(Some m :: rest, None)] /\
     remote_runs (trace r)
     = pre ++ [(IP m, "cat /etc/kubernetes/admin.conf", (data, None))] /\
     files_written (trace r)
     = [(api.LocalKubeConfigPath opt +++ "/kubeconfig", data, perm_0600)]) /\
  (forall f, In f (files_written (trace r)) ->
   api.ScpKubeConfigToLocal opt = true /\
   exists m rest data pre,
     provisioned api.RoleMaster (trace r) = [(Some m :: rest, None)] /\
     remote_runs (trace r)
     = pre ++ [(IP m, "cat /etc/kubernetes/admin.conf", (data, None))] /\
     files_written (trace r) = [f] /\
     f = (api.LocalKubeConfigPath opt +++ "/kubeconfig", data, perm_0600)).
Proof.
  intros r.
  pose proof (always_sound _ _ (runCreate_exported sched opt) h s) as H.
  cbv beta in H. fold r in H.
  destruct H as [[Hf Hno] | (Hscp & m & rest & data & pre & Hp & Hr & Hf)].
  - split; [auto|]. split.
    + intros Hscp Hres. destruct (Hno Hscp Hres).
    + intros f Hin. rewrite Hf in Hin. destruct Hin.
  - split; [intros Hc; congruence|]. split.
    + intros _ _. exists m, rest, data, pre. auto.
    + intros f Hin. rewrite Hf in Hin. destruct Hin as [<-|[]].
      split; [exact Hscp|]. exists m, rest, data, pre. auto.
Qed.

Lemma kubeconfig_exported_verbatim_witness :
  let r := run (cloud all_well) (runCreate [] demo) empty_cloud in
  let r' := run (cloud all_well) (runCreate [] (with_export demo false)) empty_cloud in
  result_of r = Returned None /\
  local_files (final r) = [("/tmp/demo/kubeconfig", admin_conf, perm_0600)] /\
  (exists m rest data pre,
     provisioned api.RoleMaster (trace r) = [(Some m :: rest, None)] /\
     remote_runs (trace r)
     = pre ++ [(IP m, "cat /etc/kubernetes/admin.conf", (data, None))] /\
     files_written (trace r)
     = [(api.LocalKubeConfigPath demo +++ "/kubeconfig", data, perm_0600)]) /\
  result_of r' = Returned None /\ files_written (trace r') = [].
Proof.
  intros r r'.
  split; [vm_compute; reflexivity|]. split; [vm_compute; reflexivity|]. split.
  - apply (proj1 (proj2 (kubeconfig_exported_verbatim Cloud (cloud all_well)
                           empty_cloud [] demo))).
    + reflexivity.
    + vm_compute. reflexivity.
  - split; [vm_compute; reflexivity|].
    apply (proj1 (kubeconfig_exported_verbatim Cloud (cloud all_well)
                    empty_cloud [] (with_export demo false))).
    reflexivity.
Defined.

(** C10.  The master goroutine takes the first pointer of a successful
    master call without a check.  In every run of [runCreate]: when the
    call returned a non-empty list, the index is in bounds, and when its
    first pointer is an instance, that is the master the later steps use
    (the first remote command goes to its address); when the call
    succeeded with an empty list, the run panics, with an index out of
    range unless the nodes goroutine panicked first on a nil pointer of
    its own answer, and the empty list is the only way to the index
    panic.  (The index being in bounds, a first pointer that is nil
    makes [master.ID] on the next line panic with a nil pointer
    dereference.) *)
Theorem master_is_first_instance
        (S : Type) (h : handler S) (s : S) (sched : list tid)
        (opt : api.CreateClusterOption) :
  let r := run h (runCreate sched opt) s in
  (forall m rest,
      provisioned api.RoleMaster (trace r) = [(m :: rest, None)] ->
      result_of r <> Crashed (IndexOutOfRange 0 0) /\
      forall i x,
        m = Some i ->
        hd_error (remote_runs (trace r)) = Some x -> fst (fst x) = IP i) /\
  (In ([], None) (provisioned api.RoleMaster (trace r)) ->
   result_of r = Crashed (IndexOutOfRange 0 0) \/
   (result_of r = Crashed NilPointerDereference /\
    exists l, provisioned api.RoleNode (trace r) = [(l, None)] /\ In None l)) /\
  (forall i n, result_of r = Crashed (IndexOutOfRange i n) ->
               In ([], None) (provisioned api.RoleMaster (trace r))) /\
  (forall rest,
      provisioned api.RoleMaster (trace r) = [(None :: rest, None)] ->
      result_of r = Crashed NilPointerDereference).
Proof.
  apply (always_sound (runCreate sched opt)
           (fun tr o =>
              (forall m rest,
                  provisioned api.RoleMaster tr = [(m :: rest, None)] ->
                  o <> Crashed (IndexOutOfRange 0 0) /\
                  forall i x,
                    m = Some i ->
                    hd_error (remote_runs tr) = Some x -> fst (fst x) = IP i) /\
              (In ([], None) (provisioned api.RoleMaster tr) ->
               o = Crashed (IndexOutOfRange 0 0) \/
               (o = Crashed NilPointerDereference /\
                exists l, provisioned api.RoleNode tr = [(l, None)] /\ In None l)) /\
              (forall i n, o = Crashed (IndexOutOfRange i n) ->
                           In ([], None) (provisioned api.RoleMaster tr)) /\
              (forall rest,
                  provisioned api.RoleMaster tr = [(None :: rest, None)] ->
                  o = Crashed NilPointerDereference))).
  apply runCreate_cases.
  - intros pre e Hq _. destruct (quiet_projections _ Hq) as (_ & HqP & _).
    rewrite HqP. split; [intros m rest Heq; discriminate|].
    split; [intros []|]. split; [intros i n Hc; discriminate | discriminate].
  - intros _ pre Hq _. destruct (quiet_projections _ Hq) as (_ & HqP & _).
    rewrite HqP. split; [intros m rest Heq; discriminate|].
    split; [intros []|]. split; [intros i n Hc; discriminate | discriminate].
  - intros pre trp Hq _ Hp Hempty.
    destruct (quiet_projections _ Hq) as (_ & HqP & _).
    rewrite !provisioned_app, !HqP, Hempty. cbn [app].
    split; [|split; [|split]].
    + intros m rest Heq. discriminate.
    + intros _. left. reflexivity.
    + intros i n _. left. reflexivity.
    + intros rest Heq. discriminate.
  - intros pre trp Hq _ Hp Hnil.
    destruct (quiet_projections _ Hq) as (_ & HqP & HqR & _).
    destruct (only_provisioning_facts _ Hp) as (_ & _ & _ & HpR & _).
    rewrite !provisioned_app, remote_runs_app, !HqP, HqR, HpR. cbn [app].
    split; [|split; [|split]].
    + intros m rest _. split; [discriminate|]. intros i x _ Hx. discriminate.
    + intros Hin. destruct Hnil as [(rest & Hm) | (l & Hn & Hl)].
      * rewrite Hm in Hin. destruct Hin as [Hin|[]]. discriminate.
      * right. split; [reflexivity|]. exists l. auto.
    + intros i n Hc. discriminate.
    + reflexivity.
  - intros pre trp errs Hq _ Hp _ _ Hno Hnonil.
    destruct (quiet_projections _ Hq) as (_ & HqP & HqR & _).
    destruct (only_provisioning_facts _ Hp) as (_ & _ & _ & HpR & _).
    rewrite !provisioned_app, remote_runs_app, !HqP, HqR, HpR. cbn [app].
    split; [|split; [|split]].
    + intros m rest _. split; [discriminate|]. intros i x _ Hx. discriminate.
    + intros Hin. destruct (Hno Hin).
    + intros i n Hc. discriminate.
    + intros rest Heq. destruct Hnonil. left. exists rest. exact Heq.
  - intros pre trp tagID keyid m rest sh Hq _ _ Hp _ HpM _ He Hm.
    eapply always_mono; [apply (always_bringUp_master opt tagID _ sh m He Hm)|].
    cbv beta. intros tr o (Hn & Hhd & Hcr).
    destruct (quiet_projections _ Hq) as (_ & HqP & HqR & _).
    destruct (only_provisioning_facts _ Hp) as (_ & _ & _ & HpR & _).
    destruct (none_of_provisioning _ Hn) as (_ & HnP).
    rewrite !provisioned_app, !remote_runs_app, HqP, HqR, HpR, HpM, HnP.
    cbn [app].
    split; [|split; [|split]].
    + intros m' rest' Heq. inversion Heq; subst m' rest'. split.
      * intros Hc. destruct (Hcr _ Hc) as [Hp' _]. discriminate.
      * intros i x Hi. inversion Hi; subst i. apply Hhd.
    + intros [Hin|[]]. discriminate.
    + intros i n Hc. destruct (Hcr _ Hc) as [Hp' _]. discriminate.
    + intros rest' Heq. discriminate.
Qed.

Lemma master_is_first_instance_witness :
  let r := run (cloud all_well) (runCreate [T_nodes; T_master] demo) empty_cloud in
  let r0 := run (cloud no_master) (runCreate [] demo) empty_cloud in
  let r1 := run (cloud nil_master) (runCreate [] demo) empty_cloud in
  (provisioned api.RoleMaster (trace r) = [([Some the_master], None)] /\
   result_of r <> Crashed (IndexOutOfRange 0 0) /\
   forall i x, Some the_master = Some i ->
               hd_error (remote_runs (trace r)) = Some x -> fst (fst x) = IP i)
  /\
  (In ([], None) (provisioned api.RoleMaster (trace r0)) /\
   result_of r0 = Crashed (IndexOutOfRange 0 0) /\
   (result_of r0 = Crashed (IndexOutOfRange 0 0) \/
    (result_of r0 = Crashed NilPointerDereference /\
     exists l, provisioned api.RoleNode (trace r0) = [(l, None)] /\ In None l)))
  /\
  (provisioned api.RoleMaster (trace r1) = [([None], None)] /\
   result_of r1 = Crashed NilPointerDereference).
Proof.
  intros r r0 r1. split; [|split].
  - assert (Hp : provisioned api.RoleMaster (trace r) = [([Some the_master], None)])
      by (vm_compute; reflexivity).
    split; [exact Hp|].
    apply (proj1 (master_is_first_instance Cloud (cloud all_well) empty_cloud
                    [T_nodes; T_master] demo) (Some the_master) [] Hp).
  - assert (Hin : In ([], None) (provisioned api.RoleMaster (trace r0)))
      by (vm_compute; left; reflexivity).
    split; [exact Hin|]. split; [vm_compute; reflexivity|].
    apply (proj1 (proj2 (master_is_first_instance Cloud (cloud no_master)
                           empty_cloud [] demo)) Hin).
  - assert (Hp : provisioned api.RoleMaster (trace r1) = [([None], None)])
      by (vm_compute; reflexivity).
    split; [exact Hp|].
    apply (proj2 (proj2 (proj2 (master_is_first_instance Cloud (cloud nil_master)
                                  empty_cloud [] demo))) [] Hp).
Defined.

(** What a run of [runCreate] with a version outside the catalog does. *)
Lemma runCreate_unsupported_version (sched : list tid) (opt : api.CreateClusterOption) :
  api.map_get api.PresetKubernetes (api.KubernetesVersion opt) = None ->
  always (runCreate sched opt)
    (fun tr o =>
       quiet tr /\
       (exists ans, tag_lookups tr = [(tagName (api.ClusterName opt), ans)]) /\
       exists e,
         o = Returned (Some e) /\
         (In e (returned_errors tr) \/
          (returned_errors tr = [] /\
           e = UnsupportedVersion (api.KubernetesVersion opt) /\
           exists path, In (ioutil_ReadFile path) (actions tr)))).
Proof.
  intros Hmap. unfold runCreate, resolveTag, prepareSSHKey. rewrite Hmap.
  steps.
  all: split; [unfold quiet, none_of; repeat constructor|].
  all: split; [eexists; reflexivity|].
  all: eexists; split; [reflexivity|].
  all: try (left; simpl; tauto).
  all: right; split; [reflexivity|]; split; [reflexivity|]; eexists; simpl; eauto 10.
Qed.

(** C2, as the code has it.  For a version that is not a key of the
    catalog, [runCreate] never provisions an instance, tags one, runs a
    remote command or writes a file, and it always returns an error: the
    [UnsupportedVersion] error naming the version when tag resolution and
    key preparation succeeded, their error otherwise.  The version is
    checked after these two steps: the tag has been looked up (and
    created when absent) and the public key read by then. *)
Theorem unsupported_version_rejected_after_preparation
        (S : Type) (h : handler S) (s : S) (sched : list tid)
        (opt : api.CreateClusterOption) :
  api.map_get api.PresetKubernetes (api.KubernetesVersion opt) = None ->
  let r := run h (runCreate sched opt) s in
  none_of is_provisioning (trace r) /\ none_of is_tagging (trace r) /\
  none_of is_remote (trace r) /\ none_of is_file_write (trace r) /\
  (exists ans, tag_lookups (trace r) = [(tagName (api.ClusterName opt), ans)]) /\
  (exists e, result_of r = Returned (Some e) /\
             (e = UnsupportedVersion (api.KubernetesVersion opt) \/
              In e (returned_errors (trace r)))) /\
  (returned_errors (trace r) = [] ->
   result_of r = Returned (Some (UnsupportedVersion (api.KubernetesVersion opt))) /\
   exists path, In (ioutil_ReadFile path) (actions (trace r))).
Proof.
  intros Hmap r.
  pose proof (always_sound _ _ (runCreate_unsupported_version sched opt Hmap) h s) as H.
  cbv beta in H. fold r in H.
  destruct H as (Hq & Hlook & e & Hres & Hcase).
  destruct (quiet_facts _ Hq) as (H1 & H2 & H3 & H4).
  repeat (split; [assumption|]). split.
  - exists e. split; [exact Hres|]. tauto.
  - intros Hnil. destruct Hcase as [Hin | (_ & -> & Hread)].
    + rewrite Hnil in Hin. destruct Hin.
    + auto.
Qed.

Lemma unsupported_version_rejected_after_preparation_witness :
  let r := run (cloud all_well) (runCreate [] (with_version demo "9.9.9")) empty_cloud in
  none_of is_provisioning (trace r) /\
  result_of r = Returned (Some (UnsupportedVersion "9.9.9")) /\
  exists path, In (ioutil_ReadFile path) (actions (trace r)).
Proof.
  intros r.
  destruct (unsupported_version_rejected_after_preparation
              Cloud (cloud all_well) empty_cloud [] (with_version demo "9.9.9") eq_refl)
    as (H1 & _ & _ & _ & _ & _ & H7).
  split; [exact H1|]. apply H7. vm_compute. reflexivity.
Defined.

(** C2, as the spec has it, fails: with the version "9.9.9", which is not
    in the catalog, the tag of the cluster is looked up and created and
    the key pair is created before the run returns [UnsupportedVersion]. *)
Lemma unsupported_version_reaches_tag_and_key :
  let opt := with_version demo "9.9.9" in
  let r := run (cloud all_well) (runCreate [] opt) empty_cloud in
  api.map_get api.PresetKubernetes (api.KubernetesVersion opt) = None /\
  result_of r = Returned (Some (UnsupportedVersion "9.9.9")) /\
  filter (fun a => is_tag_call a || is_key_call a) (actions (trace r))
  = [tag_GetTagClusterByName "K8S-Cluster-demo";
     tag_CreateTag "K8S-Cluster-demo";
     ssh_GetDefaultPublicKeyFile;
     ioutil_ReadFile "/root/.ssh/id_rsa.pub";
     sshkey_CreateSSHKey "DO_NOT_REMOVE_K8S_KEY" "ssh-rsa AAAAB3Nza"] /\
  cloud_tags (final r)
  = [{| TagID := "tag-K8S-Cluster-demo"; TagName := "K8S-Cluster-demo" |}] /\
  ~ (none_of is_tag_call (trace r) /\ none_of is_key_call (trace r)).
Proof.
  intros opt r. repeat split; try (vm_compute; reflexivity).
  intros [H _]. vm_compute in H.
  inversion H as [|? ? _ H']. inversion H' as [|? ? Hx _]. discriminate.
Qed.

Lemma find_tag_app (name : string) (tags : list Tag) (t : Tag) :
  find_tag name tags = None -> TagName t = name ->
  find_tag name (tags ++ [t]) = Some t.
Proof.
  unfold find_tag. intros Hnone Hname.
  induction tags as [|x tags IH]; simpl in *.
  - rewrite Hname, String.eqb_refl. reflexivity.
  - destruct (TagName x =? name)%string; [discriminate|]. apply IH, Hnone.
Qed.

(** Tag resolution in the cloud when the tag exists. *)
Lemma run_resolveTag_existing (sc : Script) (c : Cloud) (name : string) (t : Tag) :
  find_tag (tagName name) (cloud_tags c) = Some t ->
  run (cloud sc) (resolveTag name) c
  = mkRun (Returned (TagID t, None)) c
          [Event (klog INFO "Prepare Tag" []) tt;
           Event (tag_GetTagClusterByName (tagName name)) (Some t, None)].
Proof.
  intros H. unfold resolveTag. cbn [bind call run cloud]. rewrite H. reflexivity.
Qed.

(** Tag resolution in the cloud when there is no such tag. *)
Lemma run_resolveTag_absent (sc : Script) (c : Cloud) (name : string) :
  find_tag (tagName name) (cloud_tags c) = None ->
  let t := {| TagID := "tag-" +++ tagName name; TagName := tagName name |} in
  run (cloud sc) (resolveTag name) c
  = mkRun (Returned (TagID t, None))
          {| cloud_tags := cloud_tags c ++ [t]; cloud_key := cloud_key c;
             local_files := local_files c |}
          [Event (klog INFO "Prepare Tag" []) tt;
           Event (tag_GetTagClusterByName (tagName name)) (None, None);
           Event (tag_CreateTag (tagName name)) (TagID t, None)].
Proof.
  intros H t. unfold resolveTag. cbn [bind call run cloud]. rewrite H. reflexivity.
Qed.

(** What tag resolution does, whatever the tag service answers. *)
Lemma always_resolveTag_reuses (name : string) :
  always (resolveTag name)
    (fun tr o =>
       (exists ans, tag_lookups tr = [(tagName name, ans)]) /\
       forall t, tag_lookups tr = [(tagName name, (Some t, None))] ->
                 o = Returned (TagID t, None) /\ none_of is_tag_creation tr).
Proof.
  unfold resolveTag. steps.
  all: split; [eexists; reflexivity|].
  all: intros t0 Heq; inversion Heq; subst.
  split; [reflexivity|]. unfold none_of. repeat constructor.
Qed.

(** C7.  The tag name is "K8S-Cluster-" followed by the cluster name.
    Tag resolution looks the tag up once, by this name; when the lookup
    finds a tag it returns the ID of that tag and does not call tag
    creation, whatever the collaborators.  Against a tag service that
    stores the tags: with the tag existing, two resolutions return the
    same existing ID, create nothing and leave the tags as they were; in
    any state, the second of two resolutions returns the ID of the first
    and creates no tag. *)
Theorem tag_resolution_idempotent :
  (forall name, tagName name = "K8S-Cluster-" +++ name) /\
  (forall (S : Type) (h : handler S) (s : S) (name : string),
      let r := run h (resolveTag name) s in
      (exists ans, tag_lookups (trace r) = [(tagName name, ans)]) /\
      forall t, tag_lookups (trace r) = [(tagName name, (Some t, None))] ->
                result_of r = Returned (TagID t, None) /\
                none_of is_tag_creation (trace r)) /\
  (forall (sc : Script) (c : Cloud) (name : string) (t : Tag),
      find_tag (tagName name) (cloud_tags c) = Some t ->
      let r1 := run (cloud sc) (resolveTag name) c in
      let r2 := run (cloud sc) (resolveTag name) (final r1) in
      result_of r1 = Returned (TagID t, None) /\
      result_of r2 = Returned (TagID t, None) /\
      none_of is_tag_creation (trace r1 ++ trace r2) /\
      cloud_tags (final r2) = cloud_tags c) /\
  (forall (sc : Script) (c : Cloud) (name : string),
      let r1 := run (cloud sc) (resolveTag name) c in
      let r2 := run (cloud sc) (resolveTag name) (final r1) in
      exists id,
        result_of r1 = Returned (id, None) /\
        result_of r2 = Returned (id, None) /\
        none_of is_tag_creation (trace r2) /\
        cloud_tags (final r2) = cloud_tags (final r1)).
Proof.
  split; [reflexivity|]. split; [|split].
  - intros S h s name.
    apply (always_sound _ _ (always_resolveTag_reuses name) h s).
  - intros sc c name t Hfind r1 r2. subst r1 r2.
    rewrite (run_resolveTag_existing sc c name t Hfind). cbn [final].
    rewrite (run_resolveTag_existing sc c name t Hfind). cbn [result_of trace final].
    repeat split. unfold none_of. repeat constructor.
  - intros sc c name r1 r2. subst r1 r2.
    destruct (find_tag (tagName name) (cloud_tags c)) as [t|] eqn:Hfind.
    + rewrite (run_resolveTag_existing sc c name t Hfind). cbn [final].
      rewrite (run_resolveTag_existing sc c name t Hfind). cbn [result_of trace final].
      exists (TagID t). repeat split. unfold none_of. repeat constructor.
    + rewrite (run_resolveTag_absent sc c name Hfind). cbn [final].
      rewrite (run_resolveTag_existing sc _ name
                 {| TagID := "tag-" +++ tagName name; TagName := tagName name |}).
      * cbn [result_of trace final TagID].
        exists ("tag-" +++ tagName name). repeat split.
        unfold none_of. repeat constructor.
      * cbn [cloud_tags]. apply find_tag_app; [exact Hfind | reflexivity].
Qed.

Lemma tag_resolution_idempotent_witness :
  let c := {| cloud_tags := [{| TagID := "tag-7"; TagName := "K8S-Cluster-demo" |}];
              cloud_key := ""; local_files := [] |} in
  let r1 := run (cloud all_well) (resolveTag "demo") c in
  let r2 := run (cloud all_well) (resolveTag "demo") (final r1) in
  result_of r1 = Returned ("tag-7", None) /\
  result_of r2 = Returned ("tag-7", None) /\
  none_of is_tag_creation (trace r1 ++ trace r2) /\
  cloud_tags (final r2) = cloud_tags c.
Proof.
  intros c.
  apply (proj1 (proj2 (proj2 tag_resolution_idempotent)) all_well c "demo"
               {| TagID := "tag-7"; TagName := "K8S-Cluster-demo" |}).
  reflexivity.
Defined.

(** * Further properties *)

(** ** The phases of [runCreate] *)

Lemma never_crashes_resolveTag (name : string) :
  always (resolveTag name) (fun _ o => forall p, o <> Crashed p).
Proof. unfold resolveTag. steps; discriminate. Qed.

Lemma never_crashes_prepareSSHKey (b : bool) :
  always (prepareSSHKey b) (fun _ o => forall p, o <> Crashed p).
Proof. unfold prepareSSHKey. steps; discriminate. Qed.

Lemma runCreate_phases (sched : list tid) (opt : api.CreateClusterOption)
      (P1 P2 : list event -> outcome (string * option error) -> Prop)
      (P3 : string -> list event -> outcome Shared -> Prop)
      (Q : list event -> outcome (option error) -> Prop) :
  always (resolveTag (api.ClusterName opt)) P1 ->
  always (prepareSSHKey (api.UseExistKey opt)) P2 ->
  (forall keyid,
      always (interleave sched
                (Spawned (createMasterOpt opt keyid) masterRoutine)
                (Spawned (createNodesOpt opt keyid) nodesRoutine)
                {| errs := []; machines := []; master := None; nodes := [] |})
             (P3 keyid)) ->
  (forall tr1 tagID e,
      P1 tr1 (Returned (tagID, Some e)) -> Q tr1 (Returned (Some e))) ->
  (forall tr1 tagID tr2 keyid e,
      P1 tr1 (Returned (tagID, None)) -> P2 tr2 (Returned (keyid, Some e)) ->
      Q (tr1 ++ Event (klog INFO "Prepare ssh key" []) tt :: tr2)
        (Returned (Some e))) ->
  (forall tr1 tagID tr2 keyid,
      P1 tr1 (Returned (tagID, None)) -> P2 tr2 (Returned (keyid, None)) ->
      api.map_get api.PresetKubernetes (api.KubernetesVersion opt) = None ->
      Q (tr1 ++ Event (klog INFO "Prepare ssh key" []) tt
             :: tr2 ++ [Event (klog INFO "Creating Master" []) tt])
        (Returned (Some (UnsupportedVersion (api.KubernetesVersion opt))))) ->
  (forall tr1 tagID tr2 keyid trp p,
      P1 tr1 (Returned (tagID, None)) -> P2 tr2 (Returned (keyid, None)) ->
      api.map_get api.PresetKubernetes (api.KubernetesVersion opt) <> None ->
      P3 keyid trp (Crashed p) ->
      Q (tr1 ++ Event (klog INFO "Prepare ssh key" []) tt
             :: tr2 ++ Event (klog INFO "Creating Master" []) tt
             :: Event (klog INFO "Waiting for machines to start" []) tt :: trp)
        (Crashed p)) ->
  (forall tr1 tagID tr2 keyid trp sh,
      P1 tr1 (Returned (tagID, None)) -> P2 tr2 (Returned (keyid, None)) ->
      api.map_get api.PresetKubernetes (api.KubernetesVersion opt) <> None ->
      P3 keyid trp (Returned sh) ->
      always (bringUp opt tagID (createMasterOpt opt keyid) sh)
             (fun tr o =>
                Q (tr1 ++ Event (klog INFO "Prepare ssh key" []) tt
                       :: tr2 ++ Event (klog INFO "Creating Master" []) tt
                       :: Event (klog INFO "Waiting for machines to start" []) tt
                       :: trp ++ tr) o)) ->
  always (runCreate sched opt) Q.
Proof.
  intros H1 H2 H3 Htag Hkey Hver Hcrash Hup. unfold runCreate.
  apply always_bind. eapply always_mono.
  { apply always_conj; [exact H1 | apply never_crashes_resolveTag]. }
  intros tr1 [[tagID [e|]]|p] [Hp1 Hn1]; [| |destruct (Hn1 p); reflexivity].
  { cbn [always]. rewrite app_nil_r. eapply Htag; exact Hp1. }
  cbn [always bind call]. intros [].
  apply always_bind. eapply always_mono.
  { apply always_conj; [exact H2 | apply never_crashes_prepareSSHKey]. }
  intros tr2 [[keyid [e|]]|p] [Hp2 Hn2]; [| |destruct (Hn2 p); reflexivity].
  { cbn [always]. rewrite app_nil_r. eapply Hkey; eassumption. }
  cbn [always bind call]. intros [].
  destruct (api.map_get api.PresetKubernetes (api.KubernetesVersion opt))
    as [preset|] eqn:Hmap.
  2:{ cbn [always]. eapply Hver; eauto. }
  cbn [always bind call]. intros [].
  apply always_bind. eapply always_mono; [apply (H3 keyid)|].
  intros trp [sh|p] Hp3; cbv beta.
  - eapply always_mono.
    + eapply (Hup tr1 tagID tr2 keyid trp sh); eauto. discriminate.
    + cbv beta. intros tr o HQ. exact HQ.
  - eapply Hcrash; eauto. discriminate.
Qed.

(** ** [buildShellScripts] *)

Lemma concat_nil_cons (x : string) (l : list string) :
  String.concat "" (x :: l) = x +++ String.concat "" l.
Proof.
  destruct l as [|y l]; cbn [String.concat].
  - rewrite append_nil_r. reflexivity.
  - reflexivity.
Qed.

Lemma script_lines_cons (s : string) (scripts : list string) :
  script_lines (s :: scripts) = s +++ nl +++ script_lines scripts.
Proof.
  unfold script_lines. cbn [map]. rewrite concat_nil_cons, append_assoc. reflexivity.
Qed.

Lemma script_lines_app (a b : list string) :
  script_lines (a ++ b) = script_lines a +++ script_lines b.
Proof.
  induction a as [|s a IH]; [reflexivity|].
  cbn [app]. rewrite !script_lines_cons, IH, !append_assoc. reflexivity.
Qed.

Lemma fold_left_script (scripts : list string) (buf : string) :
  fold_left (fun buf s => buf +++ s +++ nl) scripts buf = buf +++ script_lines scripts.
Proof.
  revert buf. induction scripts as [|s scripts IH]; intros buf; cbn [fold_left].
  - unfold script_lines. cbn. rewrite append_nil_r. reflexivity.
  - rewrite IH, script_lines_cons, !append_assoc. reflexivity.
Qed.

Lemma buildShellScripts_eq (scripts : list string) :
  buildShellScripts scripts
  = ("#!/bin/bash" +++ nl +++ "swapoff -a" +++ nl) +++ script_lines scripts.
Proof. unfold buildShellScripts. apply fold_left_script. Qed.

Lemma length_script_lines (scripts : list string) :
  String.length (script_lines scripts)
  = list_sum (map (fun s => S (String.length s)) scripts).
Proof.
  induction scripts as [|s scripts IH]; [reflexivity|].
  rewrite script_lines_cons, !length_append, IH.
  change (String.length nl) with 1. unfold list_sum. cbn [map fold_right]. lia.
Qed.

(** X1.  [buildShellScripts] writes the two header lines, then every script
    followed by a newline, in order: the script of [a ++ b] is the script
    of [a] followed by the lines of [b]; with no script it is the header
    alone; its length is 23 bytes plus, for every script, its length and
    one. *)
Theorem buildShellScripts_appends_lines (a b : list string) :
  buildShellScripts (a ++ b) = buildShellScripts a +++ script_lines b /\
  buildShellScripts [] = "#!/bin/bash" +++ nl +++ "swapoff -a" +++ nl /\
  String.prefix ("#!/bin/bash" +++ nl +++ "swapoff -a" +++ nl) (buildShellScripts a) = true /\
  String.length (buildShellScripts a)
  = 23 + list_sum (map (fun s => S (String.length s)) a).
Proof.
  split; [|split; [|split]].
  - rewrite !buildShellScripts_eq, script_lines_app, !append_assoc. reflexivity.
  - reflexivity.
  - rewrite buildShellScripts_eq. apply prefix_iff. eexists. reflexivity.
  - rewrite buildShellScripts_eq, length_append, length_script_lines. reflexivity.
Qed.

Lemma split_lines_line (s rest : string) :
  one_line s -> split_lines (s +++ nl +++ rest) = s :: split_lines rest.
Proof.
  unfold one_line. induction s as [|c s IH]; intros H.
  - reflexivity.
  - destruct H as [Hc Hs]. cbn [String.append split_lines].
    destruct (N.eqb_spec (byte_val c) 10); [contradiction|].
    rewrite (IH Hs). reflexivity.
Qed.

Lemma split_lines_script (scripts : list string) :
  Forall one_line scripts -> split_lines (script_lines scripts) = scripts.
Proof.
  induction 1 as [|s scripts Hs _ IH]; [reflexivity|].
  rewrite script_lines_cons, (split_lines_line s _ Hs), IH. reflexivity.
Qed.

(** X2.  When no script contains a newline, the lines of the text that
    [buildShellScripts] writes are "#!/bin/bash", "swapoff -a" and then
    the scripts, one per line and in order; so two such lists of scripts
    with the same text are equal. *)
Theorem buildShellScripts_lines (scripts : list string) :
  Forall one_line scripts ->
  split_lines (buildShellScripts scripts) = "#!/bin/bash" :: "swapoff -a" :: scripts /\
  forall others, Forall one_line others ->
                 buildShellScripts others = buildShellScripts scripts ->
                 others = scripts.
Proof.
  intros H.
  assert (Hl : forall l, Forall one_line l ->
                 split_lines (buildShellScripts l) = "#!/bin/bash" :: "swapoff -a" :: l).
  { intros l Hl. rewrite buildShellScripts_eq, !append_assoc.
    rewrite split_lines_line by (cbn; repeat split; discriminate).
    rewrite split_lines_line by (cbn; repeat split; discriminate).
    rewrite split_lines_script by exact Hl. reflexivity. }
  split; [apply Hl, H|].
  intros others Ho Heq. apply (f_equal split_lines) in Heq.
  rewrite (Hl _ H), (Hl _ Ho) in Heq. congruence.
Qed.

Lemma buildShellScripts_lines_witness :
  Forall one_line ["modprobe br_netfilter"; "kubeadm reset -f"] /\
  split_lines (buildShellScripts ["modprobe br_netfilter"; "kubeadm reset -f"])
  = ["#!/bin/bash"; "swapoff -a"; "modprobe br_netfilter"; "kubeadm reset -f"].
Proof.
  assert (H : Forall one_line ["modprobe br_netfilter"; "kubeadm reset -f"]).
  { repeat constructor; cbn; repeat split; discriminate. }
  split; [exact H|].
  apply (proj1 (buildShellScripts_lines _ H)).
Defined.

(** ** The shape of the join directive *)

Lemma occurs_at_drop (sub s : string) (k i : nat) :
  k <= String.length s ->
  occurs_at sub (drop k s) i -> occurs_at sub s (k + i).
Proof.
  intros Hk H. apply occurs_at_iff in H. destruct H as [Hi Hp].
  rewrite length_drop in Hi. rewrite drop_drop in Hp.
  apply occurs_at_iff. split; [lia | exact Hp].
Qed.

(** X3.  A directive that [GetKubeJoinFromOutput] returns starts with
    "kubeadm join" and contains it nowhere else; it is a piece of the
    output, followed there only by bytes that [TrimSpace] cuts, so it is
    at least 12 bytes and at most as long as the output. *)
Theorem join_directive_has_one_marker (output joinCmd : string) :
  GetKubeJoinFromOutput output = Value joinCmd ->
  String.prefix marker joinCmd = true /\
  (forall i, occurs_at marker joinCmd i -> i = 0) /\
  (exists p q, output = p +++ joinCmd +++ q /\ all spaceish q) /\
  12 <= String.length joinCmd <= String.length output.
Proof.
  intros H.
  pose proof (GetKubeJoinFromOutput_value _ _ H) as Hocc.
  destruct (GetKubeJoinFromOutput_present _ Hocc) as (k & Hk & Hat & Hlast).
  rewrite Hk in H. inversion H as [Hj]. clear H.
  pose proof Hat as Hat'. apply occurs_at_iff in Hat'. destruct Hat' as [Hle Hpre].
  destruct (utf8_facts.TrimSpace_spec output) as (p & q & Hout & _ & Hq).
  assert (Hocc0 : forall i, occurs_at marker (drop k (strings.TrimSpace output)) i -> i = 0).
  { intros i Hi. apply (occurs_at_drop _ _ _ _ Hle) in Hi.
    destruct i as [|i]; [reflexivity|]. destruct (Hlast (k + S i)); [lia | exact Hi]. }
  assert (Hlen : 12 <= String.length (drop k (strings.TrimSpace output))).
  { apply prefix_iff in Hpre. destruct Hpre as [v Hv]. rewrite Hv, length_append.
    change (String.length marker) with 12. lia. }
  split; [exact Hpre|]. split; [exact Hocc0|]. split.
  - exists (p +++ take k (strings.TrimSpace output)), q. split; [|exact Hq].
    rewrite append_assoc, <- (append_assoc (take k _)), take_drop. exact Hout.
  - split; [exact Hlen|].
    rewrite length_drop. rewrite Hout at 2. rewrite !length_append. lia.
Qed.

Lemma join_directive_has_one_marker_witness :
  GetKubeJoinFromOutput init_output = Value "kubeadm join 10.0.0.1:6443 --token abc" /\
  String.prefix marker "kubeadm join 10.0.0.1:6443 --token abc" = true /\
  (forall i, occurs_at marker "kubeadm join 10.0.0.1:6443 --token abc" i -> i = 0).
Proof.
  assert (H : GetKubeJoinFromOutput init_output
              = Value "kubeadm join 10.0.0.1:6443 --token abc")
    by (vm_compute; reflexivity).
  split; [exact H|].
  destruct (join_directive_has_one_marker _ _ H) as (H1 & H2 & _).
  split; [exact H1 | exact H2].
Defined.

(** ** The preset catalog *)

Lemma eqb_cases (a b : string) : (a =? b)%string = true /\ a = b \/ (a =? b)%string = false /\ a <> b.
Proof. destruct (String.eqb_spec a b); auto. Qed.

(** The entries of the catalog. *)
Lemma catalog_entries (version : string) :
  (api.map_get api.PresetKubernetes version = None <->
   version <> "1.13.1" /\ version <> "1.15.2") /\
  forall p, api.map_get api.PresetKubernetes version = Some p ->
            api.IP_KubernetesVersion p = version /\
            api.CNIYamlPath p = "/root/CNI" /\ api.CNICmd p = "cni.sh" /\
            api.MasterCPU p = 4%Z /\ api.MasterMemory p = 4096%Z /\
            api.NodeCPU p = 4%Z /\ api.NodeMemory p = 4096%Z /\
            api.MasterImageID p <> api.NodeImageID p /\
            api.map_index api.PresetKubernetes version = p.
Proof.
  unfold api.map_index.
  cbv [api.PresetKubernetes api.map_set String.eqb Ascii.eqb Bool.eqb].
  cbn [api.map_get].
  destruct (eqb_cases version "1.13.1") as [[E1 H1]|[E1 H1]]; rewrite E1;
    [|destruct (eqb_cases version "1.15.2") as [[E2 H2]|[E2 H2]]; rewrite E2].
  - subst version. split.
    + split; [discriminate | intros [H _]; congruence].
    + intros p Hp. inversion Hp; subst p. cbn. repeat split; discriminate.
  - subst version. split.
    + split; [discriminate | intros [_ H]; congruence].
    + intros p Hp. inversion Hp; subst p. cbn. repeat split; discriminate.
  - split; [tauto | discriminate].
Qed.

(** X4.  The catalog built by [init] has exactly the keys "1.13.1" and
    "1.15.2"; the preset stored under a key carries that key as its
    [KubernetesVersion], the CNI manifests under /root/CNI, and 4 CPUs
    with 4096 MB for masters and nodes alike; a master image is never
    a node image. *)
Theorem preset_catalog_keys (version : string) :
  (api.map_get api.PresetKubernetes version = None <->
   version <> "1.13.1" /\ version <> "1.15.2") /\
  forall p, api.map_get api.PresetKubernetes version = Some p ->
            api.IP_KubernetesVersion p = version /\
            api.CNIYamlPath p = "/root/CNI" /\ api.CNICmd p = "cni.sh" /\
            api.MasterCPU p = 4%Z /\ api.MasterMemory p = 4096%Z /\
            api.NodeCPU p = 4%Z /\ api.NodeMemory p = 4096%Z /\
            api.MasterImageID p <> api.NodeImageID p /\
            api.map_index api.PresetKubernetes version = p.
Proof.
  destruct (catalog_entries version) as [Hkeys Hentry].
  split; [exact Hkeys | exact Hentry].
Qed.

Lemma preset_catalog_keys_witness :
  api.map_get api.PresetKubernetes "1.15.2" <> None /\
  exists p, api.map_get api.PresetKubernetes "1.15.2" = Some p /\
            api.IP_KubernetesVersion p = "1.15.2" /\ api.CNIYamlPath p = "/root/CNI".
Proof.
  destruct (preset_catalog_keys "1.15.2") as [Hkeys Hentry].
  split.
  - intros Hnone. apply Hkeys in Hnone. destruct Hnone as [_ Hne]. apply Hne. reflexivity.
  - eexists. split; [reflexivity|].
    destruct (Hentry _ eq_refl) as (H1 & H2 & _). split; assumption.
Defined.

(** ** Key preparation *)

Ltac steps_eqn :=
  repeat (cbn [always bind call eval deref];
          match goal with
          | |- forall _, _ => intro
          | |- always (match ?x with _ => _ end) _ =>
            (is_var x; destruct x) || destruct x eqn:?
          | |- always (if ?b then _ else _) _ =>
            (is_var b; destruct b) || destruct b eqn:?
          | |- always (bind (match ?x with _ => _ end) _) _ =>
            (is_var x; destruct x) || destruct x eqn:?
          | |- always (bind (if ?b then _ else _) _) _ =>
            (is_var b; destruct b) || destruct b eqn:?
          end);
  cbn [always bind call eval deref].

Ltac read_more :=
  cbn [key_lookups key_creations key_files files_read tag_creations tag_lookups
       taggings init_calls requests returned_ids logged
       flat_map key_lookup_of key_creation_of key_file_of file_read_of
       tag_creation_of tag_lookup_of tagging_of init_call_of request_of
       returned_ids_of logged_of action_of level_eqb Nat.eqb app fst snd map].

Lemma always_prepareSSHKey_lookup (useExistKey : bool) :
  always (prepareSSHKey useExistKey)
    (fun tr o =>
       (useExistKey = false -> key_lookups tr = []) /\
       (forall name ans, In (name, ans) (key_lookups tr) -> name = api.SSHKeyName) /\
       (forall key e, key_lookups tr = [(api.SSHKeyName, (key, Some e))] ->
                      o = Returned ("", Some e) /\ key_creations tr = []) /\
       (forall key, key_lookups tr = [(api.SSHKeyName, (key, None))] ->
                    (key <> "" -> o = Returned (key, None) /\ key_creations tr = []) /\
                    (key = "" ->
                     exists pub ans,
                        key_creations tr = [(api.SSHKeyName, pub, ans)] /\
                        o = Returned ans /\
                        logged WARNING tr
                        = [("Cannot find any exist key, will create a new one", [])]))).
Proof.
  unfold prepareSSHKey. steps_eqn.
  all: read_more.
  all: split; [intros; reflexivity || discriminate|].
  all: split; [intros ? ? Hin; simpl in Hin;
               try (destruct Hin as [Hin|[]]; inversion Hin; reflexivity);
               destruct Hin|].
  all: split; [intros ? ? Heq; inversion Heq; subst; split; reflexivity|].
  all: intros ? Heq; inversion Heq; subst.
  - split; [intros _; split; reflexivity|].
    intros ->. discriminate.
  - split.
    + intros Hk. destruct (String.eqb_spec key ""); [contradiction | discriminate].
    + intros _. eexists _, _. repeat split.
Qed.

(** X5.  [prepareSSHKey] looks a key pair up only when asked to reuse one,
    and only under the name DO_NOT_REMOVE_K8S_KEY.  A lookup that finds a
    key (a non-empty ID, no error) makes it the result and no key pair is
    created; a lookup that fails makes its error the result, with an empty
    key ID, and no key pair is created; a lookup that finds none (an empty
    ID, no error) is followed by a warning and the creation of a key
    pair, whose answer is the result. *)
Theorem prepareSSHKey_reuses_key_pair
        (S : Type) (h : handler S) (s : S) (useExistKey : bool) :
  let r := run h (prepareSSHKey useExistKey) s in
  (useExistKey = false -> key_lookups (trace r) = []) /\
  (forall name ans, In (name, ans) (key_lookups (trace r)) -> name = api.SSHKeyName) /\
  (forall key e, key_lookups (trace r) = [(api.SSHKeyName, (key, Some e))] ->
                 result_of r = Returned ("", Some e) /\ key_creations (trace r) = []) /\
  (forall key, key_lookups (trace r) = [(api.SSHKeyName, (key, None))] ->
               (key <> "" ->
                result_of r = Returned (key, None) /\ key_creations (trace r) = []) /\
               (key = "" ->
                exists pub ans,
                  key_creations (trace r) = [(api.SSHKeyName, pub, ans)] /\
                  result_of r = Returned ans /\
                  logged WARNING (trace r)
                  = [("Cannot find any exist key, will create a new one", [])])).
Proof.
  apply (always_sound _ _ (always_prepareSSHKey_lookup useExistKey) h s).
Qed.

Lemma always_prepareSSHKey_creation (useExistKey : bool) :
  always (prepareSSHKey useExistKey)
    (fun tr o =>
       (exists path ans, key_files tr = [path] /\ files_read tr = [(path, ans)]) /\
       (forall path out e, files_read tr = [(path, (out, Some e))] ->
                           o = Returned ("", Some e) /\
                           none_of is_key_service tr /\
                           logged ERROR tr = [("Failed to read ssh public key", [])]) /\
       (forall c, In c (key_creations tr) ->
                  exists path pub,
                    files_read tr = [(path, (pub, None))] /\
                    key_creations tr = [c] /\
                    fst c = (api.SSHKeyName, pub) /\ o = Returned (snd c)) /\
       (useExistKey = false ->
        forall path pub, files_read tr = [(path, (pub, None))] ->
                         exists ans, key_creations tr = [(api.SSHKeyName, pub, ans)])).
Proof.
  unfold prepareSSHKey. steps.
  all: read_more.
  all: split; [eexists _, _; split; reflexivity|].
  all: split; [intros ? ? ? Heq; inversion Heq; subst;
               repeat split; unfold none_of; repeat constructor|].
  all: split; [intros c Hin; simpl in Hin;
               try (destruct Hin as [<-|[]]; eexists _, _; repeat split; reflexivity);
               destruct Hin|].
  all: intros Hu; try discriminate Hu.
  all: intros ? ? Heq; inversion Heq; subst; eexists; reflexivity.
Qed.

(** X6.  [prepareSSHKey] reads the file that [ssh.GetDefaultPublicKeyFile]
    names, once.  When the read fails, its error is the result, with an
    empty key ID, and the key service is not called.  A key pair is
    created at most once, under the name DO_NOT_REMOVE_K8S_KEY and with
    the bytes read as public key, and the answer of the creation, key ID
    and error, is the result; without the request to reuse a key, a
    successful read is always followed by the creation. *)
Theorem prepareSSHKey_creates_from_public_key
        (S : Type) (h : handler S) (s : S) (useExistKey : bool) :
  let r := run h (prepareSSHKey useExistKey) s in
  (exists path ans, key_files (trace r) = [path] /\ files_read (trace r) = [(path, ans)]) /\
  (forall path out e, files_read (trace r) = [(path, (out, Some e))] ->
                      result_of r = Returned ("", Some e) /\
                      none_of is_key_service (trace r) /\
                      logged ERROR (trace r) = [("Failed to read ssh public key", [])]) /\
  (forall c, In c (key_creations (trace r)) ->
             exists path pub,
               files_read (trace r) = [(path, (pub, None))] /\
               key_creations (trace r) = [c] /\
               fst c = (api.SSHKeyName, pub) /\ result_of r = Returned (snd c)) /\
  (useExistKey = false ->
   forall path pub, files_read (trace r) = [(path, (pub, None))] ->
                    exists ans, key_creations (trace r) = [(api.SSHKeyName, pub, ans)]).
Proof.
  apply (always_sound _ _ (always_prepareSSHKey_creation useExistKey) h s).
Qed.

(** A key service that knows one key pair, and one without. *)
Lemma prepareSSHKey_reuses_key_pair_witness :
  let c := {| cloud_tags := []; cloud_key := "kp-7"; local_files := [] |} in
  let r := run (cloud all_well) (prepareSSHKey true) c in
  key_lookups (trace r) = [(api.SSHKeyName, ("kp-7", None))] /\
  result_of r = Returned ("kp-7", None) /\ key_creations (trace r) = [].
Proof.
  intros c r.
  assert (H : key_lookups (trace r) = [(api.SSHKeyName, ("kp-7", None))])
    by (vm_compute; reflexivity).
  split; [exact H|].
  apply (proj1 (proj2 (proj2 (proj2
           (prepareSSHKey_reuses_key_pair Cloud (cloud all_well) c true)))
           "kp-7" H)).
  discriminate.
Defined.

Lemma prepareSSHKey_creates_from_public_key_witness :
  let r := run (cloud all_well) (prepareSSHKey false) empty_cloud in
  files_read (trace r) = [("/root/.ssh/id_rsa.pub", ("ssh-rsa AAAAB3Nza", None))] /\
  exists ans,
    key_creations (trace r) = [(api.SSHKeyName, "ssh-rsa AAAAB3Nza", ans)].
Proof.
  intros r.
  assert (H : files_read (trace r)
              = [("/root/.ssh/id_rsa.pub", ("ssh-rsa AAAAB3Nza", None))])
    by (vm_compute; reflexivity).
  split; [exact H|].
  apply (proj2 (proj2 (proj2
           (prepareSSHKey_creates_from_public_key Cloud (cloud all_well)
              empty_cloud false))) eq_refl _ _ H).
Defined.

(** ** Tag creation *)

Lemma always_resolveTag_creation (name : string) :
  always (resolveTag name)
    (fun tr o =>
       (forall ans e, tag_lookups tr = [(tagName name, (ans, Some e))] ->
                      o = Returned ("", Some e) /\ tag_creations tr = []) /\
       (forall c, In c (tag_creations tr) ->
                  tag_lookups tr = [(tagName name, (None, None))] /\
                  tag_creations tr = [c] /\
                  fst c = tagName name /\ o = Returned (snd c)) /\
       (tag_lookups tr = [(tagName name, (None, None))] -> tag_creations tr <> [])).
Proof.
  unfold resolveTag. steps.
  all: read_more.
  all: split; [intros ? ? Heq; inversion Heq; subst; split; reflexivity|].
  all: split; [intros c Hin; simpl in Hin;
               try (destruct Hin as [<-|[]]; repeat split; reflexivity);
               destruct Hin|].
  all: intros Heq; inversion Heq; discriminate.
Qed.

Lemma tagName_inj (a b : string) : tagName a = tagName b -> a = b.
Proof.
  unfold tagName. intros H.
  apply (f_equal (drop 12)) in H. exact H.
Qed.

(** X7.  Tag resolution creates a tag only after a lookup that found none
    and returned no error, at most once and under the name of the
    lookup, "K8S-Cluster-" followed by the cluster name; the answer of
    the creation, tag ID and error, is then the result.  A lookup that
    fails makes its error the result and nothing is created.  Different
    cluster names give different tag names. *)
Theorem tag_created_only_when_absent
        (S : Type) (h : handler S) (s : S) (name : string) :
  let r := run h (resolveTag name) s in
  (forall ans e, tag_lookups (trace r) = [(tagName name, (ans, Some e))] ->
                 result_of r = Returned ("", Some e) /\ tag_creations (trace r) = []) /\
  (forall c, In c (tag_creations (trace r)) ->
             tag_lookups (trace r) = [(tagName name, (None, None))] /\
             tag_creations (trace r) = [c] /\
             fst c = tagName name /\ result_of r = Returned (snd c)) /\
  (tag_lookups (trace r) = [(tagName name, (None, None))] ->
   tag_creations (trace r) <> []) /\
  (forall other, tagName other = tagName name -> other = name).
Proof.
  intros r.
  pose proof (always_sound _ _ (always_resolveTag_creation name) h s) as H.
  cbv beta in H. fold r in H. destruct H as (H1 & H2 & H3).
  split; [exact H1|]. split; [exact H2|]. split; [exact H3|].
  intros other. apply tagName_inj.
Qed.

Lemma tag_created_only_when_absent_witness :
  let r := run (cloud all_well) (resolveTag "demo") empty_cloud in
  tag_lookups (trace r) = [(tagName "demo", (None, None))] /\
  tag_creations (trace r) <> [] /\
  result_of r = Returned ("tag-K8S-Cluster-demo", None).
Proof.
  intros r.
  assert (H : tag_lookups (trace r) = [(tagName "demo", (None, None))])
    by (vm_compute; reflexivity).
  split; [exact H|]. split.
  - apply (proj1 (proj2 (proj2
             (tag_created_only_when_absent Cloud (cloud all_well) empty_cloud "demo"))) H).
  - vm_compute. reflexivity.
Defined.

(** ** [RunCreate] *)

Ltac never_walk :=
  repeat (cbn [bind never deref];
          match goal with
          | |- True => exact I
          | |- _ = false /\ _ => split; [reflexivity | intros]
          | |- never _ (bind (joinNodes _ _) _) =>
            apply never_bind; [apply never_joinNodes; reflexivity | intros]
          | |- never _ (match ?x with _ => _ end) => destruct x
          | |- never _ (if ?b then _ else _) => destruct b
          | |- never _ (bind (if ?b then _ else _) _) => destruct b
          | |- never _ (bind (match ?x with _ => _ end) _) => destruct x
          end).

(** [runCreate] does not initialise the access key helper. *)
Lemma never_runCreate_init (sched : list tid) (opt : api.CreateClusterOption) :
  never is_init (runCreate sched opt).
Proof.
  unfold runCreate.
  apply never_bind; [apply never_resolveTag; reflexivity|].
  intros [tagID [e|]]; [exact I|].
  cbn [bind call never]. split; [reflexivity|]. intros _.
  apply never_bind;
    [apply never_prepareSSHKey; [intros [] Ha; simpl in *; congruence | reflexivity]|].
  intros [keyid [e|]]; [exact I|].
  cbn [bind call never]. split; [reflexivity|]. intros _.
  destruct (api.map_get api.PresetKubernetes (api.KubernetesVersion opt)); [|exact I].
  cbn [bind call never]. split; [reflexivity|]. intros _.
  apply never_bind; [apply never_interleave; reflexivity|].
  intros sh. unfold bringUp, bootstrapMaster, applyCNI, transferKubeconfigToLocal, call.
  destruct (generateKubeadmInitCmd (api.Network opt) (api.KubernetesVersion opt))
    as [cmd [e|]].
  all: destruct (master sh); never_walk.
Qed.

Lemma init_calls_none (tr : list event) : none_of is_init tr -> init_calls tr = [].
Proof.
  induction 1 as [|[a x] tr Ha _ IH]; [reflexivity|].
  destruct a; simpl in *; try discriminate; exact IH.
Qed.

(** X8.  [RunCreate] with an empty cluster name returns "ClusterName cannot
    be empty" and calls no service.  Otherwise it initialises the access
    key helper with the zone of the request and the configuration file;
    when that fails it returns the error of the initialisation, having
    made no other call, and logs "Falied to init command"; when it
    succeeds, the rest of the run is [runCreate]: same result, and the
    calls of [runCreate] after the two of the initialisation. *)
Theorem RunCreate_validates_and_initialises
        (S : Type) (h : handler S) (s : S) (configFile : string)
        (sched : list tid) (opt : api.CreateClusterOption) :
  let r := run h (RunCreate configFile sched opt) s in
  let i := h (accesskey_Init (api.Zone opt) configFile)
             (snd (h (klog INFO "Init qingcloud service" []) s)) in
  (api.ClusterName opt = "" ->
   result_of r = Returned (Some InvalidInput) /\ none_of is_call (trace r)) /\
  (api.ClusterName opt <> "" ->
   init_calls (trace r) = [(api.Zone opt, configFile, fst i)] /\
   (forall e, fst i = Some e ->
              result_of r = Returned (Some e) /\
              none_of (fun a => is_call a && negb (is_init a)) (trace r) /\
              logged ERROR (trace r) = [("Falied to init command", [])]) /\
   (fst i = None ->
    let r2 := run h (runCreate sched opt) (snd i) in
    result_of r = result_of r2 /\ final r = final r2 /\
    trace r = Event (klog INFO "Init qingcloud service" []) tt
              :: Event (accesskey_Init (api.Zone opt) configFile) None
              :: trace r2)).
Proof.
  intros r i. subst r i. unfold RunCreate, validateCreateInput.
  destruct (String.eqb_spec (api.ClusterName opt) "") as [Hn|Hn].
  - split; [|intros Hc; contradiction].
    intros _. split; [reflexivity | constructor].
  - split; [intros Hc; contradiction|]. intros _.
    unfold init. cbn [bind call run].
    destruct (h (klog INFO "Init qingcloud service" []) s) as [[] s1]. cbn [snd].
    destruct (h (accesskey_Init (api.Zone opt) configFile) s1) as [[e|] s2];
      cbn [fst snd bind run].
    + destruct (h (klog ERROR "Falied to init command" []) s2) as [[] s3].
      cbn [result_of trace].
      split; [reflexivity|]. split; [|intros Hc; discriminate].
      intros e' He'. inversion He'; subst e'.
      split; [reflexivity|]. split; [repeat constructor | reflexivity].
    + cbn [result_of final trace].
      assert (Hinit : init_calls (trace (run h (runCreate sched opt) s2)) = []).
      { apply init_calls_none, never_sound, never_runCreate_init. }
      split; [cbn [init_calls flat_map init_call_of app]; fold (init_calls
                (trace (run h (runCreate sched opt) s2))); rewrite Hinit; reflexivity|].
      split; [intros e He; discriminate|].
      intros _. repeat split.
Qed.

(** ** Errors end the run *)

Lemma stops_at_here (e : error) (e0 : event) (rest : list event) :
  error_of e0 = Some e -> is_provisioning (action_of e0) = false ->
  none_of is_call rest -> stops_at e (e0 :: rest).
Proof. intros H1 H2 H3. exists [], e0, rest. auto. Qed.

Lemma stops_at_cons (e : error) (ev : event) (tr : list event) :
  error_of ev = None -> stops_at e tr -> stops_at e (ev :: tr).
Proof.
  intros Hev (pre & e0 & rest & -> & Hpre & H1 & H2 & H3).
  exists (ev :: pre), e0, rest. repeat split; auto.
  rewrite returned_errors_cons, Hev, Hpre. reflexivity.
Qed.

Lemma stops_at_app (e : error) (a tr : list event) :
  returned_errors a = [] -> stops_at e tr -> stops_at e (a ++ tr).
Proof.
  intros Ha (pre & e0 & rest & -> & Hpre & H1 & H2 & H3).
  exists (a ++ pre), e0, rest. repeat split; auto.
  - rewrite app_assoc. reflexivity.
  - rewrite returned_errors_app, Ha, Hpre. reflexivity.
Qed.

Lemma stops_at_errors (e : error) (tr : list event) :
  stops_at e tr -> returned_errors tr = [e].
Proof.
  intros (pre & e0 & rest & -> & Hpre & H1 & _ & H3).
  rewrite returned_errors_app, returned_errors_cons, Hpre, H1. cbn [some_list app].
  f_equal. induction H3 as [|[a r] rest Ha _ IH]; [reflexivity|].
  rewrite returned_errors_cons, IH.
  destruct a; simpl in Ha; try discriminate. reflexivity.
Qed.

Ltac stops_tac :=
  repeat first
    [ assumption
    | apply stops_at_cons; [reflexivity|]
    | apply stops_at_here; [reflexivity | reflexivity | unfold none_of; repeat constructor]
    | apply stops_at_app; [assumption|]
    | rewrite app_nil_r ].

Lemma always_resolveTag_stops (name : string) : always (resolveTag name) stops.
Proof. unfold resolveTag, stops. steps; try reflexivity; stops_tac. Qed.

Lemma always_prepareSSHKey_stops (useExistKey : bool) :
  always (prepareSSHKey useExistKey) stops.
Proof.
  unfold prepareSSHKey, stops. steps.
  all: repeat match goal with
              | |- context [match ?x with _ => _ end] => is_var x; destruct x
              end.
  all: try reflexivity; stops_tac.
Qed.

Lemma always_joinNodes_stops (joinCmd : string) (ns : list Instance) :
  always (joinNodes joinCmd ns) stops_with.
Proof.
  induction ns as [|node rest IH]; cbn [joinNodes]; [reflexivity|].
  cbn [always bind call]. intros [output [e|]].
  - destruct (String.length output =? 0)%nat; cbn [always bind call]; intros;
      unfold stops_with; stops_tac.
  - destruct (String.length output =? 0)%nat; cbn [always bind call]; intros;
      (eapply always_mono; [exact IH|]);
      intros tr [[e|]|p] H; unfold stops_with in *; read_trace;
        try assumption; stops_tac.
Qed.

Lemma only_provisioning_errors (tr : list event) :
  only_provisioning tr -> returned_errors tr = provision_errors tr.
Proof.
  induction 1 as [|[a r] tr Ha _ IH]; [reflexivity|].
  rewrite returned_errors_cons, provision_errors_cons, IH.
  destruct a; simpl in Ha; try discriminate; reflexivity.
Qed.

Lemma quiet_no_provision_errors (tr : list event) :
  quiet tr -> provision_errors tr = [].
Proof. intros H. apply quiet_projections in H. tauto. Qed.

Ltac walk_steps_with lem :=
  repeat (cbn [always bind call eval deref];
          match goal with
          | |- forall _, _ => intro
          | |- always (bind (joinNodes _ _) _) _ =>
            apply always_bind; eapply always_mono; [apply lem|];
            intros ? [[?|]|?] ?
          | |- always (match ?x with _ => _ end) _ =>
            (is_var x; destruct x) || destruct x eqn:?
          | |- always (if ?b then _ else _) _ => destruct b
          | |- always (bind (match ?x with _ => _ end) _) _ =>
            (is_var x; destruct x) || destruct x eqn:?
          | |- always (bind (if ?b then _ else _) _) _ => destruct b
          end);
  cbn [always bind call eval deref].

(** Walks through [bringUp] after a provisioning without error, with
    the master [m]. *)
Ltac walk_up lem He Hm :=
  unfold bringUp, bootstrapMaster, applyCNI, transferKubeconfigToLocal;
  rewrite He, Hm; cbn [length Nat.eqb negb];
  match goal with
  | |- context [api.ScpKubeConfigToLocal ?o] =>
    destruct (api.ScpKubeConfigToLocal o) eqn:Hscp
  end;
  match goal with
  | |- context [generateKubeadmInitCmd ?n ?v] =>
    destruct (generateKubeadmInitCmd n v) as [cmd [egen|]] eqn:Hgen
  end;
  walk_steps_with lem.

Lemma generateKubeadmInitCmd_error (n : api.NetworkOption) (v cmd : string) (e : error) :
  generateKubeadmInitCmd n v = (cmd, Some e) ->
  e = MissingPodCIDR \/ e = UnsupportedCNI (api.CNIName n).
Proof.
  unfold generateKubeadmInitCmd.
  destruct (api.PodNetWorkCIDR n =? "")%string; [intros H; inversion H; auto|].
  destruct ((api.CNIName n =? api.CalicoCNI)%string || (api.CNIName n =? api.FlannelCNI)%string);
    intros H; inversion H; auto.
Qed.

Lemma always_joinNodes_both (joinCmd : string) (ns : list Instance) :
  always (joinNodes joinCmd ns)
         (fun tr o => joinNodes_post joinCmd ns tr o /\ stops_with tr o).
Proof. apply always_conj; [apply always_joinNodes | apply always_joinNodes_stops]. Qed.

(** What the join loop leaves in a trace. *)
Ltac join_facts :=
  repeat match goal with
         | H : joinNodes_post _ _ _ _ /\ stops_with _ _ |- _ =>
           let H1 := fresh "Hjoin" in
           let H2 := fresh "Hstop" in
           destruct H as [H1 H2];
           let Hq := fresh "Hq" in
           pose proof (joinNodes_post_quiet _ _ _ _ H1) as Hq;
           destruct Hq as (? & ? & ? & ?);
           unfold stops_with in H2
         end.

Lemma always_bringUp_errors (opt : api.CreateClusterOption) (tagID : string)
      (cmo : CreateInstancesOption) (sh : Shared) (m : Instance) :
  errs sh = [] -> master sh = Some m ->
  always (bringUp opt tagID cmo sh)
    (fun tr o =>
       none_of is_provisioning tr /\
       match o with
       | Returned None => returned_errors tr = []
       | Returned (Some e) =>
         stops_at e tr \/
         (returned_errors tr = [] /\
          (e = MissingPodCIDR \/ e = UnsupportedCNI (api.CNIName (api.Network opt))))
       | Crashed _ => returned_errors tr = []
       end).
Proof.
  intros He Hm. walk_up always_joinNodes_both He Hm.
  all: join_facts.
  all: try contradiction.
  all: (split; [none_of_tac|]).
  all: try (apply generateKubeadmInitCmd_error in Hgen).
  all: read_trace.
  all: repeat match goal with H : returned_errors _ = [] |- _ => rewrite H end.
  all: try reflexivity.
  all: try (right; split; [reflexivity | assumption]).
  all: left; stops_tac.
Qed.

Lemma errors_returned_after (opt : api.CreateClusterOption) (pre tr : list event)
      (o : outcome (option error)) :
  returned_errors pre = [] -> provision_errors pre = [] ->
  match o with
  | Returned None => returned_errors tr = []
  | Returned (Some e) =>
    stops_at e tr \/
    (returned_errors tr = [] /\
     (e = MissingPodCIDR \/ e = UnsupportedCNI (api.CNIName (api.Network opt))))
  | Crashed _ => returned_errors tr = []
  end ->
  none_of is_provisioning tr ->
  errors_returned opt (pre ++ tr) o.
Proof.
  intros Hpre Hprov H Hn. unfold errors_returned.
  destruct (none_of_provisioning _ Hn) as [Hn' _].
  destruct o as [[e|]|p]; rewrite ?returned_errors_app, ?provision_errors_app,
                            ?Hpre, ?Hprov, ?Hn'; cbn [app].
  - destruct H as [H | [H1 H2]].
    + left. apply stops_at_app; assumption.
    + right. left. split; [assumption | tauto].
  - assumption.
  - assumption.
Qed.

Lemma always_runCreate_errors (sched : list tid) (opt : api.CreateClusterOption) :
  always (runCreate sched opt) (errors_returned opt).
Proof.
  apply (runCreate_phases sched opt
           (fun tr o => prepared tr o /\ stops tr o)
           (fun tr o => prepared tr o /\ stops tr o)
           (fun _ tr o => provisioning_post tr o /\ only_provisioning tr)).
  - apply always_conj; [apply always_resolveTag | apply always_resolveTag_stops].
  - apply always_conj; [apply always_prepareSSHKey | apply always_prepareSSHKey_stops].
  - intros keyid. apply always_conj.
    + apply provisioning_always; reflexivity.
    + apply (never_always (fun a => negb (is_provisioning a || is_log a))).
      apply never_interleave; reflexivity.
  - intros tr1 tagID e [_ H]. left. exact H.
  - intros tr1 tagID tr2 keyid e [_ H1] [_ H2]. left.
    apply stops_at_app; [exact H1|]. apply stops_at_cons; [reflexivity | exact H2].
  - intros tr1 tagID tr2 keyid [_ H1] [_ H2] _. right. left.
    cbn [stops] in H1, H2. read_trace. rewrite H1, H2. auto.
  - intros tr1 tagID tr2 keyid trp p [[Hq1 _] H1] [[Hq2 _] H2] _ [_ Hp].
    cbn [stops] in H1, H2. unfold errors_returned. read_trace.
    rewrite H1, H2, (quiet_no_provision_errors _ Hq1), (quiet_no_provision_errors _ Hq2).
    cbn [app]. apply only_provisioning_errors, Hp.
  - intros tr1 tagID tr2 keyid trp sh [[Hq1 _] H1] [[Hq2 _] H2] _ [Hpost Hp].
    cbn [stops] in H1, H2.
    set (pre := tr1 ++ Event (klog INFO "Prepare ssh key" []) tt
                    :: tr2 ++ Event (klog INFO "Creating Master" []) tt
                    :: [Event (klog INFO "Waiting for machines to start" []) tt]).
    assert (Hshape : forall tr o, errors_returned opt ((pre ++ trp) ++ tr) o ->
              errors_returned opt
                (tr1 ++ Event (klog INFO "Prepare ssh key" []) tt
                     :: tr2 ++ Event (klog INFO "Creating Master" []) tt
                     :: Event (klog INFO "Waiting for machines to start" []) tt
                     :: trp ++ tr) o).
    { intros tr o H. unfold pre in H.
      repeat (rewrite <- ?app_assoc in H; cbn [app] in H). exact H. }
    assert (Hpre : returned_errors pre = []).
    { unfold pre. read_trace. rewrite H1, H2. reflexivity. }
    assert (Hpre' : provision_errors pre = []).
    { unfold pre. read_trace.
      rewrite (quiet_no_provision_errors _ Hq1), (quiet_no_provision_errors _ Hq2).
      reflexivity. }
    destruct Hpost as (Hincl & Hne & _ & _ & Hok).
    destruct (errs sh) as [|e0 es] eqn:Herrs.
    + assert (Hnil : provision_errors trp = []).
      { destruct (provision_errors trp) as [|x xs] eqn:Hx; [reflexivity|].
        destruct Hne; [discriminate | reflexivity]. }
      destruct (Hok Hnil) as (m & rest & ns & _ & _ & _ & Hm & _).
      eapply always_mono; [apply (always_bringUp_errors opt tagID _ sh m Herrs Hm)|].
      cbv beta. intros tr o [Hn H]. apply Hshape.
      apply errors_returned_after; try assumption.
      * rewrite returned_errors_app, Hpre, (only_provisioning_errors _ Hp), Hnil.
        reflexivity.
      * rewrite provision_errors_app, Hpre', Hnil. reflexivity.
    + rewrite bringUp_failed by (rewrite Herrs; discriminate).
      cbn [always]. apply Hshape. rewrite app_nil_r. unfold errors_returned.
      right. right. exists (e0 :: es). rewrite Herrs.
      rewrite returned_errors_app, provision_errors_app, Hpre, Hpre'. cbn [app].
      repeat split; [discriminate | exact Hincl | apply only_provisioning_errors, Hp].
Qed.

(** ** Reading the further projections *)

Lemma taggings_app (a b : list event) : taggings (a ++ b) = taggings a ++ taggings b.
Proof. apply flat_map_app. Qed.

Lemma returned_ids_app (a b : list event) :
  returned_ids (a ++ b) = returned_ids a ++ returned_ids b.
Proof. apply flat_map_app. Qed.

Lemma tag_lookups_app (a b : list event) :
  tag_lookups (a ++ b) = tag_lookups a ++ tag_lookups b.
Proof. apply flat_map_app. Qed.

Lemma tag_creations_app (a b : list event) :
  tag_creations (a ++ b) = tag_creations a ++ tag_creations b.
Proof. apply flat_map_app. Qed.

Lemma requests_app (a b : list event) : requests (a ++ b) = requests a ++ requests b.
Proof. apply flat_map_app. Qed.

Lemma key_lookups_app (a b : list event) :
  key_lookups (a ++ b) = key_lookups a ++ key_lookups b.
Proof. apply flat_map_app. Qed.

Lemma key_creations_app (a b : list event) :
  key_creations (a ++ b) = key_creations a ++ key_creations b.
Proof. apply flat_map_app. Qed.

Lemma taggings_none (tr : list event) : none_of is_tagging tr -> taggings tr = [].
Proof.
  induction 1 as [|[a x] tr Ha _ IH]; [reflexivity|].
  destruct a; simpl in *; try discriminate; exact IH.
Qed.

Lemma requests_none (tr : list event) : none_of is_provisioning tr -> requests tr = [].
Proof.
  induction 1 as [|[a x] tr Ha _ IH]; [reflexivity|].
  destruct a; simpl in *; try discriminate; exact IH.
Qed.

Lemma returned_ids_none (tr : list event) :
  none_of is_provisioning tr -> returned_ids tr = [].
Proof.
  induction 1 as [|[a x] tr Ha _ IH]; [reflexivity|].
  destruct a; simpl in *; try discriminate; exact IH.
Qed.

Lemma taggings_cons (e : event) (tr : list event) :
  taggings (e :: tr) = tagging_of e ++ taggings tr.
Proof. reflexivity. Qed.

Lemma returned_ids_cons (e : event) (tr : list event) :
  returned_ids (e :: tr) = returned_ids_of e ++ returned_ids tr.
Proof. reflexivity. Qed.

Lemma tag_lookups_cons (e : event) (tr : list event) :
  tag_lookups (e :: tr) = tag_lookup_of e ++ tag_lookups tr.
Proof. reflexivity. Qed.

Lemma tag_creations_cons (e : event) (tr : list event) :
  tag_creations (e :: tr) = tag_creation_of e ++ tag_creations tr.
Proof. reflexivity. Qed.

Lemma requests_cons (e : event) (tr : list event) :
  requests (e :: tr) = request_of e ++ requests tr.
Proof. reflexivity. Qed.

Lemma key_lookups_cons (e : event) (tr : list event) :
  key_lookups (e :: tr) = key_lookup_of e ++ key_lookups tr.
Proof. reflexivity. Qed.

Lemma key_creations_cons (e : event) (tr : list event) :
  key_creations (e :: tr) = key_creation_of e ++ key_creations tr.
Proof. reflexivity. Qed.

(** Reads a trace made of explicit events and named parts, for the
    further projections too. *)
Ltac read_all :=
  read_trace;
  repeat (rewrite ?taggings_app, ?returned_ids_app, ?tag_lookups_app,
            ?tag_creations_app, ?requests_app, ?key_lookups_app, ?key_creations_app,
            ?taggings_cons, ?returned_ids_cons, ?tag_lookups_cons,
            ?tag_creations_cons, ?requests_cons, ?key_lookups_cons,
            ?key_creations_cons;
          cbn [tagging_of returned_ids_of tag_lookup_of
               tag_creation_of request_of key_lookup_of key_creation_of action_of
               app fst snd map];
          change (taggings []) with (@nil (string * list string * option error));
          change (returned_ids []) with (@nil string);
          change (tag_lookups []) with (@nil (string * (option Tag * option error)));
          change (tag_creations []) with (@nil (string * (string * option error)));
          change (requests []) with (@nil CreateInstancesOption);
          change (key_lookups []) with (@nil (string * (string * option error)));
          change (key_creations [])
            with (@nil (string * string * (string * option error)))).

(** ** The machines handed to [TagInstances] *)

Lemma ids_inv_mono (acc tr : list event) (g : goroutine) :
  ids_inv acc g -> ids_inv (acc ++ tr) g.
Proof.
  destruct g as [opt body | code regs]; cbn [ids_inv]; [auto|].
  rewrite returned_ids_app. intros [H1 H2]. split; apply incl_appl; assumption.
Qed.

Lemma stored_ids_nodes (ns : list Instance) :
  stored_ids (nodesRoutine (map Some ns, None)) = map ID ns.
Proof.
  cbn [nodesRoutine]. unfold stored_ids.
  induction ns as [|n ns IH]; [reflexivity|].
  cbn [nodesLoop flat_map map app]. f_equal. exact IH.
Qed.

Lemma stored_ids_nodesLoop (l : list (option Instance)) :
  incl (stored_ids (nodesLoop l)) (instance_ids l).
Proof.
  unfold stored_ids, instance_ids.
  induction l as [|[n|] l IH]; cbn [nodesLoop flat_map app].
  - intros x [].
  - intros x [<-|Hx]; [left; reflexivity | right; apply IH, Hx].
  - intros x [].
Qed.

Lemma ids_inv_spawn (acc : list event) (opt : CreateInstancesOption)
      (body : list (option Instance) * option error -> list instr)
      (res : list (option Instance) * option error) :
  ids_inv acc (Spawned opt body) ->
  ids_inv (acc ++ [Event (instance_CreateInstances opt) res]) (Running (body res) no_regs).
Proof.
  cbn [ids_inv]. intros Hb. rewrite returned_ids_app.
  cbn [returned_ids flat_map returned_ids_of no_regs r_machines app].
  rewrite app_nil_r. split; [intros x []|]. apply incl_appr.
  destruct res as [instances [e|]]; destruct Hb as [-> | ->].
  - intros x [].
  - intros x [].
  - destruct instances as [|[m|] rest]; [intros x []| |intros x []].
    cbn. intros x [<-|[]]. left. reflexivity.
  - apply stored_ids_nodesLoop.
Qed.

Lemma ids_exec (allowed : list string) (i : instr) (code : list instr)
      (regs : Regs) (sh : Shared) :
  incl (r_machines regs) allowed -> incl (stored_ids (i :: code)) allowed ->
  incl (machines sh) allowed ->
  incl (r_machines (fst (exec i regs sh))) allowed /\
  incl (stored_ids code) allowed /\
  incl (machines (snd (exec i regs sh))) allowed.
Proof.
  intros Hr Hc Hm.
  destruct i; cbn [exec fst snd r_machines machines stored_ids flat_map app] in *;
    repeat split; try assumption.
  - eapply incl_tran; [|exact Hc]. apply incl_tl, incl_refl.
  - apply incl_app; [exact Hr|]. intros x [<-|[]]. apply Hc. left. reflexivity.
Qed.

Lemma finish_code_ids (acc : list event) (code : list instr) (regs : Regs) (sh : Shared) :
  incl (r_machines regs) (returned_ids acc) ->
  incl (stored_ids code) (returned_ids acc) ->
  incl (machines sh) (returned_ids acc) ->
  always (finish_code code regs sh) (machines_known acc).
Proof.
  revert acc regs sh. induction code as [|i code IH]; intros acc regs sh Hr Hc Hm.
  - cbn. rewrite app_nil_r. exact Hm.
  - destruct (ids_exec _ i code regs sh Hr Hc Hm) as (H1 & H2 & H3).
    destruct i; cbn [finish_code]; try (apply IH; assumption).
    + exact I.
    + cbn [always]. intros []. eapply always_mono.
      * apply (IH (acc ++ [Event (klog lvl format operands) tt]) regs sh);
          rewrite returned_ids_app; cbn; rewrite app_nil_r; assumption.
      * intros tr o. unfold machines_known. rewrite app_cons_assoc. auto.
Qed.

Lemma finish_ids (acc : list event) (g : goroutine) (sh : Shared) :
  ids_inv acc g -> incl (machines sh) (returned_ids acc) ->
  always (finish g sh) (machines_known acc).
Proof.
  intros Hg Hm. destruct g as [opt body | code regs]; cbn [finish].
  - cbn [always]. intros res.
    pose proof (ids_inv_spawn acc opt body res Hg) as [H1 H2].
    eapply always_mono.
    + apply (finish_code_ids (acc ++ [Event (instance_CreateInstances opt) res]));
        [exact H1 | exact H2|].
      rewrite returned_ids_app. apply incl_appl. exact Hm.
    + intros tr o. unfold machines_known. rewrite app_cons_assoc. auto.
  - destruct Hg as [H1 H2]. apply finish_code_ids; assumption.
Qed.

Lemma machines_inv (sched : list tid) (acc : list event) (gm gn : goroutine)
      (sh : Shared) :
  ids_inv acc gm -> ids_inv acc gn -> incl (machines sh) (returned_ids acc) ->
  always (interleave sched gm gn sh) (machines_known acc).
Proof.
  revert acc gm gn sh. induction sched as [|t sched IH]; intros acc gm gn sh Hgm Hgn Hm.
  - cbn [interleave]. apply always_bind.
    eapply always_mono; [apply (finish_ids acc gm sh Hgm Hm)|].
    intros tr [sh1|p] H1; [|exact I]. cbn [machines_known] in H1.
    eapply always_mono.
    + apply (finish_ids (acc ++ tr) gn sh1); [apply ids_inv_mono, Hgn | exact H1].
    + intros tr' o. unfold machines_known. rewrite app_assoc. auto.
  - assert (Hstep : forall g other,
               ids_inv acc g -> ids_inv acc other ->
               forall k : goroutine -> Shared -> Prog Shared,
                 (forall acc' g' sh',
                     ids_inv acc' g' -> ids_inv acc' other ->
                     incl (machines sh') (returned_ids acc') ->
                     always (k g' sh') (machines_known acc')) ->
                 always (step g sh k) (machines_known acc)).
    { intros g other Hg Ho k Hk.
      destruct g as [opt body | [|i code] regs]; cbn [step].
      - cbn [always]. intros res. eapply always_mono.
        + apply (Hk (acc ++ [Event (instance_CreateInstances opt) res])).
          * apply ids_inv_spawn, Hg.
          * apply ids_inv_mono, Ho.
          * rewrite returned_ids_app. apply incl_appl. exact Hm.
        + intros tr o. unfold machines_known. rewrite app_cons_assoc. auto.
      - apply Hk; assumption.
      - destruct Hg as [Hr Hc].
        destruct (ids_exec _ i code regs sh Hr Hc Hm) as (H1 & H2 & H3).
        destruct i; cbn [exec fst snd] in *;
          try (apply Hk; [split; assumption | assumption | assumption]).
        + exact I.
        + cbn [always]. intros []. eapply always_mono.
          * apply (Hk (acc ++ [Event (klog lvl format operands) tt])).
            -- apply (ids_inv_mono acc _ (Running code regs)). split; assumption.
            -- apply ids_inv_mono, Ho.
            -- rewrite returned_ids_app. apply incl_appl. exact Hm.
          * intros tr o. unfold machines_known. rewrite app_cons_assoc. auto. }
    destruct t; cbn [interleave].
    + apply (Hstep gm gn Hgm Hgn). intros acc' g' sh' H1 H2 H3. apply IH; assumption.
    + apply (Hstep gn gm Hgn Hgm). intros acc' g' sh' H1 H2 H3. apply IH; assumption.
Qed.

Lemma machines_always (sched : list tid) (optM optN : CreateInstancesOption) :
  always (interleave sched (Spawned optM masterRoutine) (Spawned optN nodesRoutine)
                     {| errs := []; machines := []; master := None; nodes := [] |})
         (machines_known []).
Proof.
  apply machines_inv; cbn; auto. intros x [].
Qed.

Lemma always_resolveTag_source (name : string) :
  always (resolveTag name)
    (fun tr o =>
       match o with
       | Returned (tagID, None) => tag_source name tagID tr
       | _ => True
       end).
Proof.
  unfold resolveTag, tag_source. steps; try exact I; read_all.
  - left. eexists. split; [left; reflexivity | reflexivity].
  - right. left. reflexivity.
Qed.

Lemma always_bringUp_tagging (opt : api.CreateClusterOption) (tagID : string)
      (cmo : CreateInstancesOption) (sh : Shared) (m : Instance) :
  errs sh = [] -> master sh = Some m ->
  always (bringUp opt tagID cmo sh)
    (fun tr o =>
       none_of is_provisioning tr /\
       exists ans,
         taggings tr = [(tagID, machines sh, ans)] /\
         forall e, ans = Some e ->
                   o = Returned (Some e) /\ remote_runs tr = [] /\ files_written tr = []).
Proof.
  intros He Hm. walk_up always_joinNodes_both He Hm.
  all: join_facts.
  all: try contradiction.
  all: (split; [none_of_tac|]).
  all: read_all.
  all: repeat match goal with
              | H : none_of is_tagging ?t |- context [taggings ?t] =>
                rewrite (taggings_none t H)
              end.
  all: cbn [app].
  all: eexists; split; [reflexivity|].
  all: intros ? Hans; inversion Hans; subst.
  all: repeat split.
Qed.

Lemma tag_source_app (name tagID : string) (a b : list event) :
  tag_source name tagID a -> tag_source name tagID (a ++ b).
Proof.
  unfold tag_source. rewrite tag_lookups_app, tag_creations_app.
  intros [(t & Hin & ->) | Hin].
  - left. exists t. split; [apply in_or_app; auto | reflexivity].
  - right. apply in_or_app. auto.
Qed.

Lemma quiet_taggings (tr : list event) : quiet tr -> taggings tr = [].
Proof. intros H. apply taggings_none. apply quiet_facts in H. tauto. Qed.

Lemma only_provisioning_taggings (tr : list event) :
  only_provisioning tr -> taggings tr = [].
Proof. intros H. apply taggings_none. apply only_provisioning_facts in H. tauto. Qed.

Lemma always_runCreate_tagging (sched : list tid) (opt : api.CreateClusterOption) :
  always (runCreate sched opt) (tagged_once opt).
Proof.
  apply (runCreate_phases sched opt
           (fun tr o => prepared tr o /\
                        match o with
                        | Returned (tagID, None) => tag_source (api.ClusterName opt) tagID tr
                        | _ => True
                        end)
           (fun tr o => prepared tr o)
           (fun _ tr o => (provisioning_post tr o /\ only_provisioning tr)
                          /\ machines_known [] tr o)).
  - apply always_conj; [apply always_resolveTag | apply always_resolveTag_source].
  - apply always_prepareSSHKey.
  - intros keyid. apply always_conj; [apply always_conj|].
    + apply provisioning_always; reflexivity.
    + apply (never_always (fun a => negb (is_provisioning a || is_log a))).
      apply never_interleave; reflexivity.
    + apply machines_always.
  - intros tr1 tagID e [[Hq _] _]. left. apply quiet_taggings, Hq.
  - intros tr1 tagID tr2 keyid e [[Hq1 _] _] [Hq2 _]. left. read_all.
    rewrite (quiet_taggings _ Hq1), (quiet_taggings _ Hq2). reflexivity.
  - intros tr1 tagID tr2 keyid [[Hq1 _] _] [Hq2 _] _. left. read_all.
    rewrite (quiet_taggings _ Hq1), (quiet_taggings _ Hq2). reflexivity.
  - intros tr1 tagID tr2 keyid trp p [[Hq1 _] _] [Hq2 _] _ [[_ Hp] _]. left. read_all.
    rewrite (quiet_taggings _ Hq1), (quiet_taggings _ Hq2),
      (only_provisioning_taggings _ Hp). reflexivity.
  - intros tr1 tagID tr2 keyid trp sh [[Hq1 _] Hsrc] [Hq2 _] _ [[Hpost Hp] Hids].
    cbn [machines_known app] in Hids.
    destruct Hpost as (Hincl & Hne & _ & _ & Hok).
    destruct (errs sh) as [|e0 es] eqn:Herrs.
    + assert (Hnil : provision_errors trp = []).
      { destruct (provision_errors trp) as [|x xs] eqn:Hx; [reflexivity|].
        destruct Hne; [discriminate | reflexivity]. }
      destruct (Hok Hnil) as (m & rest & ns & _ & _ & _ & Hm & _).
      eapply always_mono; [apply (always_bringUp_tagging opt tagID _ sh m Herrs Hm)|].
      cbv beta. intros tr o (Hn & ans & Htag & Hans). right.
      exists tagID, (machines sh), ans.
      destruct (quiet_projections _ Hq1) as (HqE1 & _ & HqR1 & HqF1).
      destruct (quiet_projections _ Hq2) as (HqE2 & _ & HqR2 & HqF2).
      destruct (only_provisioning_facts _ Hp) as (_ & _ & _ & HpR & HpF).
      destruct (none_of_provisioning _ Hn) as (HnE & _).
      read_all.
      rewrite (quiet_taggings _ Hq1), (quiet_taggings _ Hq2),
        (only_provisioning_taggings _ Hp), Htag, HqE1, HqE2, Hnil, HnE,
        HqR1, HqR2, HpR, HqF1, HqF2, HpF.
      cbn [app].
      split; [reflexivity|]. split; [apply tag_source_app, Hsrc|].
      split; [|split; [reflexivity | exact Hans]].
      apply incl_appr, incl_appr, incl_appl. exact Hids.
    + rewrite bringUp_failed by (rewrite Herrs; discriminate).
      cbn [always]. left. read_all.
      rewrite (quiet_taggings _ Hq1), (quiet_taggings _ Hq2),
        (only_provisioning_taggings _ Hp). reflexivity.
Qed.

(** A schedule that lets only the master goroutine step runs it to its
    end before the nodes goroutine starts, as the empty schedule does. *)
Lemma master_first (sched : list tid) :
  Forall (eq T_master) sched ->
  forall (gm gn : goroutine) (sh : Shared) (Q : list event -> outcome Shared -> Prop),
    always (interleave [] gm gn sh) Q -> always (interleave sched gm gn sh) Q.
Proof.
  induction 1 as [|t sched <- _ IH]; intros gm gn sh Q H; [exact H|].
  cbn [interleave]. destruct gm as [opt body | [|i code] regs]; cbn [step].
  - cbn [always]. intros res. apply IH. apply H.
  - apply IH, H.
  - destruct i; cbn [exec]; try (apply IH; exact H).
    + exact H.
    + cbn [always]. intros r. apply IH. apply H.
Qed.

(** ** The goroutines one after the other *)

Lemma finish_code_nodes_in_order (l : list (option Instance)) (regs : Regs)
      (sh : Shared) :
  always (finish_code (nodesRoutine (l, None)) regs sh)
    (fun _ o =>
       match o with
       | Returned sh' =>
         sh' = {| errs := errs sh;
                  machines := machines sh ++ map ID (before_nil l);
                  master := master sh; nodes := nodes sh ++ before_nil l |}
       | Crashed _ => True
       end).
Proof.
  revert regs sh. cbn [nodesRoutine].
  induction l as [|[n|] l IH]; intros regs sh.
  - cbn. rewrite !app_nil_r. destruct sh; reflexivity.
  - cbn [nodesLoop app finish_code exec always]. intros [].
    eapply always_mono; [apply IH|].
    cbv beta. intros _ [sh'|p]; [|auto]. intros ->.
    cbn [errs machines master nodes map before_nil].
    rewrite <- !app_assoc. reflexivity.
  - cbn. exact I.
Qed.

(** With the empty schedule the master goroutine runs to its end before
    the nodes goroutine starts. *)
Lemma sequential_machines (optM optN : CreateInstancesOption) :
  always (interleave [] (Spawned optM masterRoutine) (Spawned optN nodesRoutine)
                     {| errs := []; machines := []; master := None; nodes := [] |})
    (fun _ o =>
       match o with
       | Returned sh => errs sh = [] -> machines_in_order sh
       | Crashed _ => True
       end).
Proof.
  cbn [interleave finish bind always]. intros [instances [e|]].
  - (* the master call failed *)
    cbn [masterRoutine finish_code exec bind always r_errs errs no_regs app].
    intros [ns [e'|]].
    + cbn. discriminate.
    + eapply always_mono; [apply finish_code_nodes_in_order|].
      cbv beta. intros _ [sh'|p]; [|auto]. intros ->. cbn. discriminate.
  - destruct instances as [|[m|] rest].
    + cbn. exact I.
    + cbn [masterRoutine finish_code exec bind always r_machines machines no_regs app].
      intros []. cbn [bind always]. intros [ns [e'|]].
      * cbn. discriminate.
      * eapply always_mono; [apply finish_code_nodes_in_order|].
        cbv beta. intros _ [sh'|p]; [|auto]. intros ->. intros _. reflexivity.
    + cbn. exact I.
Qed.

Lemma always_runCreate_in_order (sched : list tid) (opt : api.CreateClusterOption) :
  Forall (eq T_master) sched ->
  always (runCreate sched opt) tagged_in_order.
Proof.
  intros Hsched.
  apply (runCreate_phases sched opt
           (fun tr o => prepared tr o)
           (fun tr o => prepared tr o)
           (fun _ tr o => (provisioning_post tr o /\ only_provisioning tr)
                          /\ match o with
                             | Returned sh => errs sh = [] -> machines_in_order sh
                             | Crashed _ => True
                             end)).
  - apply always_resolveTag.
  - apply always_prepareSSHKey.
  - intros keyid. apply always_conj; [apply always_conj|].
    + apply provisioning_always; reflexivity.
    + apply (never_always (fun a => negb (is_provisioning a || is_log a))).
      apply never_interleave; reflexivity.
    + apply master_first; [exact Hsched | apply sequential_machines].
  - intros tr1 tagID e [Hq _] t ms ans Hin.
    rewrite (quiet_taggings _ Hq) in Hin. destruct Hin.
  - intros tr1 tagID tr2 keyid e [Hq1 _] [Hq2 _] t ms ans Hin. revert Hin. read_all.
    rewrite (quiet_taggings _ Hq1), (quiet_taggings _ Hq2). intros [].
  - intros tr1 tagID tr2 keyid [Hq1 _] [Hq2 _] _ t ms ans Hin. revert Hin. read_all.
    rewrite (quiet_taggings _ Hq1), (quiet_taggings _ Hq2). intros [].
  - intros tr1 tagID tr2 keyid trp p [Hq1 _] [Hq2 _] _ [[_ Hp] _] t ms ans Hin.
    revert Hin. read_all.
    rewrite (quiet_taggings _ Hq1), (quiet_taggings _ Hq2),
      (only_provisioning_taggings _ Hp). intros [].
  - intros tr1 tagID tr2 keyid trp sh [Hq1 _] [Hq2 _] _ [[Hpost Hp] Hord].
    destruct Hpost as (Hincl & Hne & _ & _ & Hok).
    destruct (errs sh) as [|e0 es] eqn:Herrs.
    + assert (Hnil : provision_errors trp = []).
      { destruct (provision_errors trp) as [|x xs] eqn:Hx; [reflexivity|].
        destruct Hne; [discriminate | reflexivity]. }
      destruct (Hok Hnil) as (m & rest & ns & HpM & HpN & _ & Hm & Hns).
      specialize (Hord eq_refl). unfold machines_in_order in Hord.
      rewrite Hm, Hns in Hord. cbn [app] in Hord.
      eapply always_mono; [apply (always_bringUp_tagging opt tagID _ sh m Herrs Hm)|].
      cbv beta. intros tr o (Hn & ans & Htag & _) t ms ans' Hin.
      destruct (quiet_projections _ Hq1) as (_ & HqP1 & _).
      destruct (quiet_projections _ Hq2) as (_ & HqP2 & _).
      destruct (none_of_provisioning _ Hn) as (_ & HnP).
      revert Hin. read_all.
      rewrite (quiet_taggings _ Hq1), (quiet_taggings _ Hq2),
        (only_provisioning_taggings _ Hp), Htag, !HqP1, !HqP2, HpM, HpN, !HnP.
      cbn [app]. intros [Heq|[]]. injection Heq as _ Hms _.
      exists m, rest, ns. split; [reflexivity|]. split; [reflexivity|].
      rewrite <- Hms. exact Hord.
    + rewrite bringUp_failed by (rewrite Herrs; discriminate).
      cbn [always]. intros t ms ans Hin. revert Hin. read_all.
      rewrite (quiet_taggings _ Hq1), (quiet_taggings _ Hq2),
        (only_provisioning_taggings _ Hp). intros [].
Qed.

(** ** The order of the calls *)

Lemma preceded_nil (P : event -> bool) (Q : action -> bool) : preceded_by P Q [].
Proof. intros a e b H. destruct a; discriminate. Qed.

Lemma preceded_skip (P : event -> bool) (Q : action -> bool) (e : event)
      (tr : list event) :
  Q (action_of e) = false -> preceded_by P Q tr -> preceded_by P Q (e :: tr).
Proof.
  intros He H a e' b Heq HQ. destruct a as [|x a]; cbn [app] in Heq.
  - inversion Heq; subst. congruence.
  - inversion Heq; subst. cbn [existsb]. rewrite (H a e' b eq_refl HQ).
    apply orb_true_r.
Qed.

Lemma preceded_found (P : event -> bool) (Q : action -> bool) (e : event)
      (tr : list event) :
  Q (action_of e) = false -> P e = true -> preceded_by P Q (e :: tr).
Proof.
  intros He HP a e' b Heq HQ. destruct a as [|x a]; cbn [app] in Heq.
  - inversion Heq; subst. congruence.
  - inversion Heq; subst. cbn [existsb]. rewrite HP. reflexivity.
Qed.

Lemma preceded_none (P : event -> bool) (Q : action -> bool) (tr : list event) :
  none_of Q tr -> preceded_by P Q tr.
Proof.
  intros H a e b -> HQ. apply none_of_app in H. destruct H as [_ H].
  apply none_of_cons in H. destruct H as [H _]. congruence.
Qed.

Lemma preceded_app (P : event -> bool) (Q : action -> bool) (pre tr : list event) :
  none_of Q pre -> preceded_by P Q tr -> preceded_by P Q (pre ++ tr).
Proof.
  induction pre as [|x pre IH]; intros Hn H; [exact H|].
  apply none_of_cons in Hn. destruct Hn as [Hx Hn].
  cbn [app]. apply preceded_skip; auto.
Qed.

Lemma preceded_after (P : event -> bool) (Q : action -> bool) (pre tr : list event) :
  none_of Q pre -> existsb P pre = true -> preceded_by P Q (pre ++ tr).
Proof.
  induction pre as [|x pre IH]; intros Hn HP; [discriminate|].
  apply none_of_cons in Hn. destruct Hn as [Hx Hn].
  cbn [app existsb] in *. destruct (P x) eqn:HPx.
  - apply preceded_found; assumption.
  - apply preceded_skip; auto.
Qed.

Lemma existsb_app_l {A : Type} (f : A -> bool) (a b : list A) :
  existsb f a = true -> existsb f (a ++ b) = true.
Proof. intros H. rewrite existsb_app, H. reflexivity. Qed.

Lemma existsb_app_r {A : Type} (f : A -> bool) (a b : list A) :
  existsb f b = true -> existsb f (a ++ b) = true.
Proof. intros H. rewrite existsb_app, H. apply orb_true_r. Qed.

Lemma existsb_tl {A : Type} (f : A -> bool) (x : A) (l : list A) :
  existsb f l = true -> existsb f (x :: l) = true.
Proof. intros H. cbn [existsb]. rewrite H. apply orb_true_r. Qed.

Lemma provisioned_ok_exists (role : api.Role) (tr : list event) (l : list (option Instance)) :
  provisioned role tr = [(l, None)] -> existsb (provisioned_ok role) tr = true.
Proof.
  induction tr as [|e tr IH]; [discriminate|].
  rewrite provisioned_cons. cbn [existsb]. intros H.
  destruct (provisioned_of role e) as [|x r] eqn:He.
  - cbn [app] in H. rewrite (IH H). apply orb_true_r.
  - assert (Hr : r = []).
    { destruct e as [a x0]; destruct a; simpl in He; try discriminate.
      destruct (Role_eqb (CIO_Role opt) role); inversion He; reflexivity. }
    subst r. cbn [app] in H. inversion H; subst.
    unfold provisioned_ok. rewrite He. reflexivity.
Qed.

Ltac preceded_tac :=
  repeat first
    [ assumption
    | apply preceded_nil
    | apply preceded_found; [reflexivity | reflexivity]
    | apply preceded_skip; [reflexivity|]
    | apply preceded_none; assumption
    | apply preceded_app; [assumption|]
    | rewrite app_nil_r ].

Lemma always_resolveTag_ready (name : string) :
  always (resolveTag name)
    (fun tr o =>
       match o with
       | Returned (_, None) => existsb tag_ready tr = true
       | _ => True
       end).
Proof. unfold resolveTag. steps; try exact I; reflexivity. Qed.

Lemma always_prepareSSHKey_ready (useExistKey : bool) :
  always (prepareSSHKey useExistKey)
    (fun tr o =>
       match o with
       | Returned (_, None) => existsb key_ready tr = true
       | _ => True
       end).
Proof.
  unfold prepareSSHKey. steps_eqn.
  all: repeat match goal with
              | |- context [match ?x with _ => _ end] => is_var x; destruct x
              end.
  all: try exact I; try reflexivity.
  all: cbn; rewrite Heqb; reflexivity.
Qed.

Lemma always_bringUp_stages (opt : api.CreateClusterOption) (tagID : string)
      (cmo : CreateInstancesOption) (sh : Shared) (m : Instance) :
  errs sh = [] -> master sh = Some m ->
  always (bringUp opt tagID cmo sh)
    (fun tr _ =>
       none_of is_provisioning tr /\
       preceded_by tagged_ok (fun a => is_remote a || is_file_write a) tr).
Proof.
  intros He Hm. walk_up always_joinNodes_both He Hm.
  all: join_facts.
  all: try contradiction.
  all: (split; [none_of_tac|]).
  all: preceded_tac.
Qed.

Lemma quiet_not_loud (tr : list event) :
  quiet tr -> none_of (fun a => is_remote a || is_file_write a) tr.
Proof.
  intros H. eapply none_of_weaken; [|exact H]. unfold is_loud.
  intros a Ha. repeat (apply orb_false_iff in Ha; destruct Ha as [Ha ?]).
  apply orb_false_iff. auto.
Qed.

Lemma only_provisioning_not_loud (tr : list event) :
  only_provisioning tr -> none_of (fun a => is_remote a || is_file_write a) tr.
Proof.
  intros H. eapply none_of_weaken; [|exact H].
  intros [] Ha; simpl in *; congruence.
Qed.

Lemma always_runCreate_stages (sched : list tid) (opt : api.CreateClusterOption) :
  always (runCreate sched opt) (fun tr _ => in_stages tr).
Proof.
  apply (runCreate_phases sched opt
           (fun tr o => prepared tr o /\
                        match o with
                        | Returned (_, None) => existsb tag_ready tr = true
                        | _ => True
                        end)
           (fun tr o => prepared tr o /\
                        match o with
                        | Returned (_, None) => existsb key_ready tr = true
                        | _ => True
                        end)
           (fun _ tr o => provisioning_post tr o /\ only_provisioning tr)).
  - apply always_conj; [apply always_resolveTag | apply always_resolveTag_ready].
  - apply always_conj; [apply always_prepareSSHKey | apply always_prepareSSHKey_ready].
  - intros keyid. apply always_conj.
    + apply provisioning_always; reflexivity.
    + apply (never_always (fun a => negb (is_provisioning a || is_log a))).
      apply never_interleave; reflexivity.
  - (* tag resolution failed *)
    intros tr1 tagID e [[Hq _] _].
    pose proof (quiet_not_loud _ Hq) as Hl.
    destruct (quiet_facts _ Hq) as (H1 & H2 & _).
    repeat split; apply preceded_none; assumption.
  - (* key preparation failed *)
    intros tr1 tagID tr2 keyid e [[Hq1 _] _] [[Hq2 _] _].
    pose proof (quiet_not_loud _ Hq1) as Hl1. pose proof (quiet_not_loud _ Hq2) as Hl2.
    destruct (quiet_facts _ Hq1) as (H1 & H2 & _).
    destruct (quiet_facts _ Hq2) as (H3 & H4 & _).
    repeat split; apply preceded_none; none_of_tac.
  - (* the version is not in the catalog *)
    intros tr1 tagID tr2 keyid [[Hq1 _] _] [[Hq2 _] _] _.
    pose proof (quiet_not_loud _ Hq1) as Hl1. pose proof (quiet_not_loud _ Hq2) as Hl2.
    destruct (quiet_facts _ Hq1) as (H1 & H2 & _).
    destruct (quiet_facts _ Hq2) as (H3 & H4 & _).
    repeat split; apply preceded_none; none_of_tac.
  - (* the master goroutine panicked *)
    intros tr1 tagID tr2 keyid trp p [[Hq1 _] Ht] [[Hq2 _] Hk] _ [_ Hp].
    pose proof (quiet_not_loud _ Hq1) as Hl1. pose proof (quiet_not_loud _ Hq2) as Hl2.
    pose proof (only_provisioning_not_loud _ Hp) as Hl3.
    destruct (quiet_facts _ Hq1) as (H1 & H2 & _).
    destruct (quiet_facts _ Hq2) as (H3 & H4 & _).
    destruct (only_provisioning_facts _ Hp) as (H5 & _).
    split; [|split; [|repeat split; apply preceded_none; none_of_tac]].
    + apply preceded_after; [assumption | exact Ht].
    + apply preceded_app; [assumption|]. apply preceded_skip; [reflexivity|].
      apply preceded_after; [assumption | exact Hk].
  - (* the barrier was reached *)
    intros tr1 tagID tr2 keyid trp sh [[Hq1 _] Ht] [[Hq2 _] Hk] _ [Hpost Hp].
    pose proof (quiet_not_loud _ Hq1) as Hl1. pose proof (quiet_not_loud _ Hq2) as Hl2.
    pose proof (only_provisioning_not_loud _ Hp) as Hl3.
    destruct (quiet_facts _ Hq1) as (H1 & H2 & _).
    destruct (quiet_facts _ Hq2) as (H3 & H4 & _).
    destruct (only_provisioning_facts _ Hp) as (H5 & _).
    destruct Hpost as (Hincl & Hne & _ & _ & Hok).
    assert (Hfirst : forall tr,
               preceded_by tag_ready is_provisioning
                 (tr1 ++ Event (klog INFO "Prepare ssh key" []) tt
                      :: tr2 ++ Event (klog INFO "Creating Master" []) tt
                      :: Event (klog INFO "Waiting for machines to start" []) tt
                      :: trp ++ tr) /\
               preceded_by key_ready is_provisioning
                 (tr1 ++ Event (klog INFO "Prepare ssh key" []) tt
                      :: tr2 ++ Event (klog INFO "Creating Master" []) tt
                      :: Event (klog INFO "Waiting for machines to start" []) tt
                      :: trp ++ tr)).
    { intros tr. split.
      - apply preceded_after; [assumption | exact Ht].
      - apply preceded_app; [assumption|]. apply preceded_skip; [reflexivity|].
        apply preceded_after; [assumption | exact Hk]. }
    destruct (errs sh) as [|e0 es] eqn:Herrs.
    + assert (Hnil : provision_errors trp = []).
      { destruct (provision_errors trp) as [|x xs] eqn:Hx; [reflexivity|].
        destruct Hne; [discriminate | reflexivity]. }
      destruct (Hok Hnil) as (m & rest & ns & HpM & HpN & _ & Hm & _).
      eapply always_mono; [apply (always_bringUp_stages opt tagID _ sh m Herrs Hm)|].
      cbv beta. intros tr o [Hn Hpb].
      destruct (Hfirst tr) as [Hf1 Hf2].
      split; [exact Hf1|]. split; [exact Hf2|].
      assert (Hshape : tr1 ++ Event (klog INFO "Prepare ssh key" []) tt
                           :: tr2 ++ Event (klog INFO "Creating Master" []) tt
                           :: Event (klog INFO "Waiting for machines to start" []) tt
                           :: trp ++ tr
                       = (tr1 ++ Event (klog INFO "Prepare ssh key" []) tt
                              :: tr2 ++ Event (klog INFO "Creating Master" []) tt
                              :: Event (klog INFO "Waiting for machines to start" []) tt
                              :: trp) ++ tr).
      { repeat (rewrite <- ?app_assoc; cbn [app]). reflexivity. }
      split; [|split].
      * rewrite Hshape. apply preceded_after; [none_of_tac|].
        apply existsb_app_r, existsb_tl, existsb_app_r, existsb_tl, existsb_tl.
        apply (provisioned_ok_exists _ _ _ HpM).
      * rewrite Hshape. apply preceded_after; [none_of_tac|].
        apply existsb_app_r, existsb_tl, existsb_app_r, existsb_tl, existsb_tl.
        apply (provisioned_ok_exists _ _ _ HpN).
      * preceded_tac.
    + rewrite bringUp_failed by (rewrite Herrs; discriminate).
      cbn [always]. destruct (Hfirst []) as [Hf1 Hf2].
      split; [exact Hf1|]. split; [exact Hf2|].
      repeat split; apply preceded_none; none_of_tac.
Qed.

(** ** The requests of the two goroutines *)

Lemma finish_code_requests (code : list instr) (regs : Regs) (sh : Shared) :
  always (finish_code code regs sh) (fun tr _ => requests tr = []).
Proof.
  revert regs sh. induction code as [|i code IH]; intros regs sh; [reflexivity|].
  destruct i; cbn [finish_code exec]; try apply IH.
  - reflexivity.
  - cbn [always]. intros []. eapply always_mono; [apply IH|].
    cbv beta. intros tr o H. rewrite requests_cons. exact H.
Qed.

Lemma finish_requests (g : goroutine) (sh : Shared) :
  always (finish g sh) (fun tr _ => requests tr = pending g).
Proof.
  destruct g as [opt body | code regs]; cbn [finish pending].
  - cbn [always]. intros res. eapply always_mono; [apply finish_code_requests|].
    cbv beta. intros tr o H. rewrite requests_cons, H. reflexivity.
  - apply finish_code_requests.
Qed.

Lemma either_order_sym {A : Type} (l a b : list A) :
  either_order l a b -> either_order l b a.
Proof. unfold either_order. tauto. Qed.

Lemma requested_sym (gm gn : goroutine) (tr : list event) (o : outcome Shared) :
  requested gm gn tr o -> requested gn gm tr o.
Proof.
  destruct o as [sh|p]; cbn [requested].
  - apply either_order_sym.
  - intros (pm & pn & H1 & H2 & H3). exists pn, pm. auto using either_order_sym.
Qed.

(** One step of the goroutine [g], the other being [other]. *)
Lemma step_requests (g other : goroutine) (sh : Shared)
      (k : goroutine -> Shared -> Prog Shared) :
  (forall g' sh', always (k g' sh') (requested g' other)) ->
  always (step g sh k) (requested g other).
Proof.
  intros Hk. destruct g as [opt body | [|i code] regs]; cbn [step].
  - cbn [always]. intros res. eapply always_mono; [apply Hk|].
    cbv beta. intros tr [sh'|p]; cbn [requested pending]; rewrite requests_cons;
      cbn [request_of action_of app].
    + unfold either_order. cbn [app]. rewrite app_nil_r.
      intros H. left. destruct H as [-> | ->]; reflexivity.
    + intros (pm & pn & Hm & Hn & Ho). exists [opt], pn.
      split; [auto|]. split; [exact Hn|].
      assert (Hpm : pm = []) by (destruct Hm; assumption). subst pm.
      unfold either_order in *. cbn [app] in *. rewrite app_nil_r in Ho.
      left. destruct Ho as [-> | ->]; reflexivity.
  - apply Hk.
  - assert (Hrun : forall regs' sh',
               always (k (Running code regs') sh')
                      (requested (Running (i :: code) regs) other)).
    { intros regs' sh'. eapply always_mono; [apply Hk|]. intros tr o H. exact H. }
    destruct i; cbn [exec]; try apply Hrun.
    + cbn [always requested]. exists [], []. unfold either_order. auto.
    + cbn [always]. intros []. eapply always_mono; [apply Hrun|].
      cbv beta. intros tr o. destruct o; cbn [requested]; rewrite requests_cons; auto.
Qed.

Lemma requests_inv (sched : list tid) (gm gn : goroutine) (sh : Shared) :
  always (interleave sched gm gn sh) (requested gm gn).
Proof.
  revert gm gn sh. induction sched as [|t sched IH]; intros gm gn sh.
  - cbn [interleave]. apply always_bind.
    eapply always_mono; [apply finish_requests|].
    cbv beta. intros tr [sh1|p] H1.
    + eapply always_mono; [apply finish_requests|].
      cbv beta. intros tr' o H2.
      assert (Hr : requests (tr ++ tr') = pending gm ++ pending gn)
        by (rewrite requests_app, H1, H2; reflexivity).
      destruct o; cbn [requested].
      * left. exact Hr.
      * exists (pending gm), (pending gn). unfold either_order. auto.
    + cbn [requested]. exists (pending gm), []. unfold either_order.
      rewrite H1, app_nil_r. auto.
  - destruct t; cbn [interleave].
    + apply step_requests. intros g' sh'. apply IH.
    + eapply always_mono.
      * apply (step_requests gn gm). intros g' sh'.
        eapply always_mono; [apply IH|]. intros tr o. apply requested_sym.
      * intros tr o. apply requested_sym.
Qed.

Lemma key_source_app (keyid : string) (a b c : list event) :
  key_source keyid b -> key_source keyid (a ++ b ++ c).
Proof.
  unfold key_source. rewrite !key_lookups_app, !key_creations_app.
  intros [Hin | (pub & Hin)].
  - left. apply in_or_app. right. apply in_or_app. auto.
  - right. exists pub. apply in_or_app. right. apply in_or_app. auto.
Qed.

Lemma always_prepareSSHKey_source (useExistKey : bool) :
  always (prepareSSHKey useExistKey)
    (fun tr o =>
       match o with
       | Returned (keyid, None) => key_source keyid tr
       | _ => True
       end).
Proof.
  unfold prepareSSHKey, key_source. steps.
  all: repeat match goal with
              | |- context [match ?x with _ => _ end] => is_var x; destruct x
              end.
  all: try exact I.
  all: read_all.
  all: try (left; simpl; tauto).
  all: right; eexists; simpl; eauto.
Qed.

Lemma quiet_requests (tr : list event) : quiet tr -> requests tr = [].
Proof. intros H. apply requests_none. apply quiet_facts in H. tauto. Qed.

Lemma provisioned_in_requests (role : api.Role) (tr : list event)
      (x : list (option Instance) * option error) :
  In x (provisioned role tr) ->
  exists req, In req (requests tr) /\ CIO_Role req = role.
Proof.
  induction tr as [|[a r] tr IH]; [intros []|].
  rewrite provisioned_cons, requests_cons. intros Hin.
  apply in_app_or in Hin. destruct Hin as [Hin | Hin].
  - destruct a; simpl in Hin; try contradiction.
    destruct (Role_eqb (CIO_Role opt) role) eqn:Hrole; [|contradiction].
    exists opt. split; [left; reflexivity|].
    destruct (CIO_Role opt), role; simpl in Hrole; congruence.
  - destruct (IH Hin) as (req & Hreq & Hr). exists req.
    split; [apply in_or_app; right; exact Hreq | exact Hr].
Qed.

Lemma always_runCreate_requests (sched : list tid) (opt : api.CreateClusterOption) :
  always (runCreate sched opt) (two_requests opt).
Proof.
  apply (runCreate_phases sched opt
           (fun tr o => prepared tr o)
           (fun tr o => prepared tr o /\
                        match o with
                        | Returned (keyid, None) => key_source keyid tr
                        | _ => True
                        end)
           (fun keyid tr o =>
              requested (Spawned (createMasterOpt opt keyid) masterRoutine)
                        (Spawned (createNodesOpt opt keyid) nodesRoutine) tr o
              /\ provisioning_post tr o)).
  - apply always_resolveTag.
  - apply always_conj; [apply always_prepareSSHKey | apply always_prepareSSHKey_source].
  - intros keyid. apply always_conj;
      [apply requests_inv | apply provisioning_always; reflexivity].
  - intros tr1 tagID e [Hq _]. left. apply quiet_requests, Hq.
  - intros tr1 tagID tr2 keyid e [Hq1 _] [[Hq2 _] _]. left. read_all.
    rewrite (quiet_requests _ Hq1), (quiet_requests _ Hq2). reflexivity.
  - intros tr1 tagID tr2 keyid [Hq1 _] [[Hq2 _] _] _. left. read_all.
    rewrite (quiet_requests _ Hq1), (quiet_requests _ Hq2). reflexivity.
  - (* a goroutine panicked: its request was sent *)
    intros tr1 tagID tr2 keyid trp p [Hq1 _] [[Hq2 _] Hk] Hmap [Hreq Hpost].
    destruct (api.map_get api.PresetKubernetes (api.KubernetesVersion opt))
      as [preset|] eqn:Hget; [|congruence].
    cbn [requested pending] in Hreq. destruct Hreq as (pm & pn & Hpm & Hpn & Ho).
    assert (Hsent : forall role x,
               provisioned role trp = [x] ->
               exists req, In req (requests trp) /\ CIO_Role req = role).
    { intros role x Hx. apply (provisioned_in_requests role trp x).
      rewrite Hx. left. reflexivity. }
    destruct (quiet_projections _ Hq1) as (_ & HqP1 & _).
    destruct (quiet_projections _ Hq2) as (_ & HqP2 & _).
    unfold two_requests. read_all.
    rewrite (quiet_requests _ Hq1), (quiet_requests _ Hq2), !HqP1, !HqP2. cbn [app].
    unfold createMasterOpt, createNodesOpt, api.map_index in *. rewrite Hget in *.
    right. exists keyid, preset.
    split; [apply (key_source_app keyid tr1 (_ :: tr2) _);
            unfold key_source in *; rewrite key_lookups_cons, key_creations_cons;
            exact Hk|].
    split; [reflexivity|]. cbv zeta.
    cbn [provisioning_post] in Hpost.
    destruct Hpost as [[-> Hempty] | [-> [(rest & Hnil) | (l & Hnil & Hl)]]].
    + destruct (Hsent _ _ Hempty) as (req & Hreq & Hrole).
      destruct Hpm as [-> | ->]; destruct Hpn as [-> | ->];
        destruct Ho as [Ho | Ho]; rewrite Ho in *; cbn [app] in *; auto.
      all: try (destruct Hreq as [<- | []]; discriminate Hrole).
      all: try (destruct Hreq; fail).
      all: right; right; left; split; [reflexivity|]; left; auto.
    + destruct (Hsent _ _ Hnil) as (req & Hreq & Hrole).
      destruct Hpm as [-> | ->]; destruct Hpn as [-> | ->];
        destruct Ho as [Ho | Ho]; rewrite Ho in *; cbn [app] in *; auto.
      all: try (destruct Hreq as [<- | []]; discriminate Hrole).
      all: try (destruct Hreq; fail).
      all: right; right; left; split; [reflexivity|]; right; eauto.
    + destruct (Hsent _ _ Hnil) as (req & Hreq & Hrole).
      destruct Hpm as [-> | ->]; destruct Hpn as [-> | ->];
        destruct Ho as [Ho | Ho]; rewrite Ho in *; cbn [app] in *; auto.
      all: try (destruct Hreq as [<- | []]; discriminate Hrole).
      all: try (destruct Hreq; fail).
      all: right; right; right; split; [reflexivity|]; split; [reflexivity|]; eauto.
  - intros tr1 tagID tr2 keyid trp sh [Hq1 _] [[Hq2 _] Hk] Hmap [Hreq _].
    destruct (api.map_get api.PresetKubernetes (api.KubernetesVersion opt))
      as [preset|] eqn:Hget; [|congruence].
    cbn [requested pending] in Hreq.
    assert (Hup : always (bringUp opt tagID (createMasterOpt opt keyid) sh)
                         (fun tr _ => requests tr = [])).
    { eapply always_mono.
      - apply (never_always is_provisioning).
        unfold bringUp, bootstrapMaster, applyCNI, transferKubeconfigToLocal, call.
        destruct (generateKubeadmInitCmd (api.Network opt) (api.KubernetesVersion opt))
          as [cmd [e|]]; destruct (master sh); never_walk.
      - intros tr o. apply requests_none. }
    eapply always_mono; [exact Hup|]. cbv beta. intros tr o Hr.
    unfold two_requests. read_all.
    rewrite (quiet_requests _ Hq1), (quiet_requests _ Hq2), Hr, app_nil_r. cbn [app].
    unfold createMasterOpt, createNodesOpt, api.map_index in *. rewrite Hget in *.
    right. exists keyid, preset.
    split; [apply (key_source_app keyid tr1 (_ :: tr2) _);
            unfold key_source in *; rewrite key_lookups_cons, key_creations_cons;
            exact Hk|].
    split; [reflexivity|]. cbv zeta.
    destruct Hreq as [-> | ->]; cbn [app]; auto.
Qed.

(** ** The remote commands of a run that succeeds *)

Lemma map_fst_ok_runs (joinCmd : string) (joined : list Instance) (outs : list string) :
  length outs = length joined ->
  map fst (ok_runs joinCmd joined outs)
  = map (fun n => (IP n, "swapoff -a; " +++ joinCmd)) joined.
Proof.
  unfold ok_runs, join_command. revert outs.
  induction joined as [|n joined IH]; intros [|out outs] Hlen; try discriminate.
  - reflexivity.
  - cbn [combine map fst]. rewrite IH by (cbn in Hlen; lia). reflexivity.
Qed.

Lemma catalog_CNIYamlPath (opt : api.CreateClusterOption) (keyid : string) :
  api.map_get api.PresetKubernetes (api.KubernetesVersion opt) <> None ->
  api.CNIYamlPath (ImagesPreset (createMasterOpt opt keyid)) = "/root/CNI".
Proof.
  intros H. cbn [createMasterOpt ImagesPreset].
  destruct (catalog_entries (api.KubernetesVersion opt)) as [_ Hp].
  destruct (api.map_get api.PresetKubernetes (api.KubernetesVersion opt))
    as [p|] eqn:Hget; [|congruence].
  destruct (Hp p eq_refl) as (_ & Hpath & _ & _ & _ & _ & _ & _ & Hidx).
  rewrite Hidx. exact Hpath.
Qed.

Lemma always_bringUp_commands (opt : api.CreateClusterOption) (tagID keyid : string)
      (sh : Shared) (m : Instance) :
  errs sh = [] -> master sh = Some m ->
  api.map_get api.PresetKubernetes (api.KubernetesVersion opt) <> None ->
  always (bringUp opt tagID (createMasterOpt opt keyid) sh)
    (fun tr o =>
       none_of is_provisioning tr /\
       (o = Returned None ->
        exists cmd out joinCmd,
          hd_error (remote_runs tr) = Some (IP m, cmd, (out, None)) /\
          GetKubeJoinFromOutput out = Value joinCmd /\
          commands tr = commands_of_success opt m (nodes sh) joinCmd)).
Proof.
  intros He Hm Hcat.
  pose proof (catalog_CNIYamlPath opt keyid Hcat) as Hpath.
  walk_up always_joinNodes_both He Hm.
  all: join_facts.
  all: try contradiction.
  all: (split; [none_of_tac|]).
  all: intros Ho; try discriminate Ho.
  all: apply generateKubeadmInitCmd_ok in Hgen; subst cmd.
  all: match goal with
       | H : joinNodes_post _ _ _ _ |- _ =>
         destruct H as [_ (joined & outs & Hlen & _ & Hcase)];
         destruct Hcase as [(_ & Hns & Hruns & _)
                           | (n & rest & out & e' & _ & Hc & _)];
         [|discriminate Hc]
       end.
  all: unfold commands, commands_of_success; read_trace.
  all: rewrite Hruns, Hscp, Hpath; cbn [hd_error map fst app].
  all: rewrite ?map_app, (map_fst_ok_runs _ _ _ Hlen), <- Hns; cbn [map fst app].
  all: eexists _, _, _; split; [reflexivity|]; split; [eassumption|].
  all: rewrite ?app_nil_r; reflexivity.
Qed.

Lemma always_runCreate_commands (sched : list tid) (opt : api.CreateClusterOption) :
  always (runCreate sched opt)
    (fun tr o =>
       o = Returned None ->
       exists m rest ns cmd out joinCmd,
         provisioned api.RoleMaster tr = [(Some m :: rest, None)] /\
         provisioned api.RoleNode tr = [(map Some ns, None)] /\
         hd_error (remote_runs tr) = Some (IP m, cmd, (out, None)) /\
         GetKubeJoinFromOutput out = Value joinCmd /\
         commands tr = commands_of_success opt m ns joinCmd).
Proof.
  apply runCreate_cases.
  - intros pre e _ _ Hc. discriminate.
  - intros _ pre _ _ Hc. discriminate.
  - intros pre trp _ _ _ _ Hc. discriminate.
  - intros pre trp _ _ _ _ Hc. discriminate.
  - intros pre trp errs _ _ _ _ _ _ _ Hc. discriminate.
  - intros pre trp tagID keyid m rest sh Hq _ Hcat Hp _ HpM HpN He Hm.
    eapply always_mono; [apply (always_bringUp_commands opt tagID keyid sh m He Hm Hcat)|].
    cbv beta. intros tr o [Hn H] Ho.
    destruct (H Ho) as (cmd & out & joinCmd & Hhd & Hjoin & Hcmds).
    destruct (quiet_projections _ Hq) as (_ & HqP & HqR & _).
    destruct (only_provisioning_facts _ Hp) as (_ & _ & _ & HpR & _).
    destruct (none_of_provisioning _ Hn) as (_ & HnP).
    exists m, rest, (nodes sh), cmd, out, joinCmd.
    unfold commands in *.
    rewrite !provisioned_app, !remote_runs_app, !HqP, HqR, HpR, HpM, HpN, !HnP.
    cbn [app]. auto.
Qed.

(** ** The panics of a run *)

Lemma always_bringUp_panics (opt : api.CreateClusterOption) (tagID : string)
      (cmo : CreateInstancesOption) (sh : Shared) (m : Instance) :
  errs sh = [] -> master sh = Some m ->
  always (bringUp opt tagID cmo sh)
    (fun tr o =>
       none_of is_provisioning tr /\
       forall p, o = Crashed p ->
                 p = SliceBoundsOutOfRange (-1) /\
                 exists ms cmd out,
                   taggings tr = [(tagID, ms, None)] /\
                   remote_runs tr = [(IP m, cmd, (out, None))] /\
                   ~ occurs marker out /\ files_written tr = []).
Proof.
  intros He Hm. walk_up always_joinNodes_both He Hm.
  all: join_facts.
  all: try contradiction.
  all: (split; [none_of_tac|]).
  all: intros p0 Hp0; try discriminate Hp0.
  all: inversion Hp0; subst p0.
  all: match goal with
       | H : GetKubeJoinFromOutput _ = Panics _ |- _ =>
         apply GetKubeJoinFromOutput_panics in H; destruct H as [-> Hno]
       end.
  all: split; [reflexivity|].
  all: eexists _, _, _; repeat split; try reflexivity; exact Hno.
Qed.

Lemma always_runCreate_panics (sched : list tid) (opt : api.CreateClusterOption) :
  always (runCreate sched opt)
    (fun tr o => forall p, o = Crashed p -> panics_explained tr p).
Proof.
  apply runCreate_cases.
  - intros pre e _ _ p Hc. discriminate.
  - intros _ pre _ _ p Hc. discriminate.
  - intros pre trp Hq _ Hp Hin p Hc. inversion Hc; subst p. left.
    destruct (quiet_projections _ Hq) as (_ & HqP & HqR & HqF).
    destruct (only_provisioning_facts _ Hp) as (_ & _ & _ & HpR & HpF).
    rewrite provisioned_app, taggings_app, remote_runs_app, files_written_app,
      HqP, HqR, HqF, HpR, HpF, (quiet_taggings _ Hq), (only_provisioning_taggings _ Hp),
      Hin.
    cbn [app In]. auto.
  - intros pre trp Hq _ Hp Hnil p Hc. inversion Hc; subst p. right. left.
    destruct (quiet_projections _ Hq) as (_ & HqP & HqR & HqF).
    destruct (only_provisioning_facts _ Hp) as (_ & _ & _ & HpR & HpF).
    unfold nil_returned.
    rewrite !provisioned_app, taggings_app, remote_runs_app, files_written_app,
      !HqP, HqR, HqF, HpR, HpF, (quiet_taggings _ Hq), (only_provisioning_taggings _ Hp).
    cbn [app]. auto.
  - intros pre trp errs _ _ _ _ _ _ _ p Hc. discriminate.
  - intros pre trp tagID keyid m rest sh Hq _ _ Hp _ HpM _ He Hm.
    eapply always_mono; [apply (always_bringUp_panics opt tagID _ sh m He Hm)|].
    cbv beta. intros tr o [Hn H] p Hc. right. right.
    destruct (H p Hc) as (-> & ms & cmd & out & Ht & Hr & Hno & Hf).
    split; [reflexivity|]. exists m, rest, tagID, ms, cmd, out.
    destruct (quiet_projections _ Hq) as (_ & HqP & HqR & HqF).
    destruct (only_provisioning_facts _ Hp) as (_ & _ & _ & HpR & HpF).
    destruct (none_of_provisioning _ Hn) as (_ & HnP).
    rewrite !provisioned_app, !taggings_app, !remote_runs_app, !files_written_app,
      HqP, HqR, HqF, HpR, HpF, HpM, HnP, Ht, Hr, Hf,
      (quiet_taggings _ Hq), (only_provisioning_taggings _ Hp).
    cbn [app]. auto.
Qed.


(** * Whole runs of [runCreate], further *)

(** X9.  No error of a collaborator is swallowed.  A run of [runCreate]
    that returns nil saw no call return an error.  A run that returns an
    error either stopped at it (no call before returned an error, a call
    other than the provisioning of instances returned this error, and
    only log lines follow), or made the error itself with no call having
    failed (unsupported version, missing pod CIDR, unsupported CNI), or
    returns the collected provisioning errors, the provisioning calls
    being the only ones that failed.  Hence an error returned by any call
    other than the provisioning of instances is the result of the run. *)
Theorem errors_end_the_run
        (S : Type) (h : handler S) (s : S) (sched : list tid)
        (opt : api.CreateClusterOption) :
  let r := run h (runCreate sched opt) s in
  (result_of r = Returned None -> returned_errors (trace r) = []) /\
  (forall e, result_of r = Returned (Some e) ->
             stops_at e (trace r) \/
             (returned_errors (trace r) = [] /\
              (e = UnsupportedVersion (api.KubernetesVersion opt) \/
               e = MissingPodCIDR \/
               e = UnsupportedCNI (api.CNIName (api.Network opt)))) \/
             (exists errs,
                 e = ProvisioningFailed errs /\ errs <> [] /\
                 incl errs (provision_errors (trace r)) /\
                 returned_errors (trace r) = provision_errors (trace r))) /\
  (forall p, result_of r = Crashed p ->
             returned_errors (trace r) = provision_errors (trace r)) /\
  (forall e, In e (returned_errors (trace r)) -> provision_errors (trace r) = [] ->
             result_of r = Returned (Some e) /\ returned_errors (trace r) = [e]).
Proof.
  intros r.
  pose proof (always_sound _ _ (always_runCreate_errors sched opt) h s) as H.
  fold r in H. unfold errors_returned in H.
  split; [|split; [|split]].
  - intros Hr. rewrite Hr in H. exact H.
  - intros e Hr. rewrite Hr in H. exact H.
  - intros p Hr. rewrite Hr in H. exact H.
  - intros e Hin Hprov. destruct (result_of r) as [[e'|]|p].
    + destruct H as [H | [[H _] | (errs & _ & _ & _ & H)]].
      * pose proof (stops_at_errors _ _ H) as Heq. rewrite Heq in Hin.
        destruct Hin as [<- | []]. split; [reflexivity | exact Heq].
      * rewrite H in Hin. destruct Hin.
      * rewrite H, Hprov in Hin. destruct Hin.
    + rewrite H in Hin. destruct Hin.
    + rewrite H, Hprov in Hin. destruct Hin.
Qed.

Lemma errors_end_the_run_witness :
  let r := run (cloud B_fails) (runCreate [] demo) empty_cloud in
  In (errorString "ssh: exit status 1") (returned_errors (trace r)) /\
  provision_errors (trace r) = [] /\
  result_of r = Returned (Some (errorString "ssh: exit status 1")) /\
  returned_errors (trace r) = [errorString "ssh: exit status 1"].
Proof.
  intros r.
  assert (Hin : In (errorString "ssh: exit status 1") (returned_errors (trace r)))
    by (vm_compute; left; reflexivity).
  assert (Hprov : provision_errors (trace r) = []) by (vm_compute; reflexivity).
  split; [exact Hin|]. split; [exact Hprov|].
  apply (proj2 (proj2 (proj2
           (errors_end_the_run Cloud (cloud B_fails) empty_cloud [] demo)))
           _ Hin Hprov).
Defined.

(** X10.  [TagInstances] is called at most once in a run of [runCreate],
    under any schedule of the two goroutines.  It gets the ID of the tag
    that the lookup found, or else the ID that the creation of the tag
    returned, and machine IDs that are all IDs of instances the instance
    service returned in this run; no provisioning call has failed by
    then.  When it fails, its error is the result of the run and no
    remote command is run and no file written. *)
Theorem instances_tagged_once
        (S : Type) (h : handler S) (s : S) (sched : list tid)
        (opt : api.CreateClusterOption) :
  let r := run h (runCreate sched opt) s in
  taggings (trace r) = [] \/
  exists tagID ms ans,
    taggings (trace r) = [(tagID, ms, ans)] /\
    tag_source (api.ClusterName opt) tagID (trace r) /\
    incl ms (returned_ids (trace r)) /\
    provision_errors (trace r) = [] /\
    forall e, ans = Some e ->
              result_of r = Returned (Some e) /\
              remote_runs (trace r) = [] /\ files_written (trace r) = [].
Proof.
  apply (always_sound _ _ (always_runCreate_tagging sched opt) h s).
Qed.

Lemma instances_tagged_once_witness :
  let r := run (cloud all_well) (runCreate racy_schedule demo) empty_cloud in
  exists tagID ms ans,
    taggings (trace r) = [(tagID, ms, ans)] /\
    tag_source "demo" tagID (trace r) /\
    incl ms (returned_ids (trace r)) /\
    returned_ids (trace r) = ["i-master"; "i-a"; "i-b"; "i-c"].
Proof.
  intros r.
  destruct (instances_tagged_once Cloud (cloud all_well) empty_cloud racy_schedule demo)
    as [Hnone | (tagID & ms & ans & H1 & H2 & H3 & _)].
  - fold r in Hnone. vm_compute in Hnone. discriminate Hnone.
  - exists tagID, ms, ans. fold r in H1, H2, H3.
    split; [exact H1|]. split; [exact H2|]. split; [exact H3|].
    vm_compute. reflexivity.
Defined.

(** X11.  When the master goroutine finishes before the nodes goroutine
    starts (the schedule lets only the master goroutine step; what is
    left runs master first), [TagInstances] gets the ID of the master
    followed by the IDs of the nodes, in the order in which the instance
    service returned them: no append is lost. *)
Theorem sequential_run_tags_every_machine
        (S : Type) (h : handler S) (s : S) (sched : list tid)
        (opt : api.CreateClusterOption) :
  Forall (eq T_master) sched ->
  let r := run h (runCreate sched opt) s in
  forall tagID ms ans,
    In (tagID, ms, ans) (taggings (trace r)) ->
    exists m rest ns,
      provisioned api.RoleMaster (trace r) = [(Some m :: rest, None)] /\
      provisioned api.RoleNode (trace r) = [(map Some ns, None)] /\
      ms = ID m :: map ID ns.
Proof.
  intros Hsched.
  apply (always_sound _ _ (always_runCreate_in_order sched opt Hsched) h s).
Qed.

Lemma sequential_run_tags_every_machine_witness :
  let r := run (cloud all_well) (runCreate [T_master; T_master] demo) empty_cloud in
  taggings (trace r)
  = [("tag-K8S-Cluster-demo", ["i-master"; "i-a"; "i-b"; "i-c"], None)] /\
  exists m rest ns,
    provisioned api.RoleMaster (trace r) = [(Some m :: rest, None)] /\
    provisioned api.RoleNode (trace r) = [(map Some ns, None)] /\
    ["i-master"; "i-a"; "i-b"; "i-c"] = ID m :: map ID ns.
Proof.
  intros r.
  assert (Ht : taggings (trace r)
               = [("tag-K8S-Cluster-demo", ["i-master"; "i-a"; "i-b"; "i-c"], None)])
    by (vm_compute; reflexivity).
  split; [exact Ht|].
  apply (sequential_run_tags_every_machine Cloud (cloud all_well) empty_cloud
           [T_master; T_master] demo
           (Forall_cons _ eq_refl (Forall_cons _ eq_refl (Forall_nil _)))
           "tag-K8S-Cluster-demo" _ None).
  fold r. rewrite Ht. left. reflexivity.
Defined.

(** X12.  The stages of a run of [runCreate] come in order, under any
    schedule and whatever the collaborators answer: an instance is
    requested only after the tag was found or created and after the key
    pair was found or created; [TagInstances] is called only after the
    master request and the nodes request were both answered without
    error; a remote command is run or a file written only after
    [TagInstances] returned without error. *)
Theorem stages_come_in_order
        (S : Type) (h : handler S) (s : S) (sched : list tid)
        (opt : api.CreateClusterOption) :
  let tr := trace (run h (runCreate sched opt) s) in
  preceded_by tag_ready is_provisioning tr /\
  preceded_by key_ready is_provisioning tr /\
  preceded_by (provisioned_ok api.RoleMaster) is_tagging tr /\
  preceded_by (provisioned_ok api.RoleNode) is_tagging tr /\
  preceded_by tagged_ok (fun a => is_remote a || is_file_write a) tr.
Proof.
  apply (always_sound _ _ (always_runCreate_stages sched opt) h s).
Qed.

Lemma stages_come_in_order_witness :
  let tr := trace (run (cloud all_well) (runCreate racy_schedule demo) empty_cloud) in
  remote_runs tr <> [] /\
  preceded_by tagged_ok (fun a => is_remote a || is_file_write a) tr /\
  preceded_by (provisioned_ok api.RoleNode) is_tagging tr.
Proof.
  intros tr. split; [vm_compute; discriminate|].
  destruct (stages_come_in_order Cloud (cloud all_well) empty_cloud racy_schedule demo)
    as (_ & _ & _ & H4 & H5).
  split; [exact H5 | exact H4].
Defined.

(** X13.  The requests a run of [runCreate] sends to the instance service.
    There is none, or there are the request for one master and the
    request for [NodeCount] nodes, once each and in either order.  One
    of the two is missing only when the goroutine of the other panicked
    before it was sent: the master goroutine on an answer without an
    instance (index out of range) or with a nil first pointer (nil
    pointer dereference), the nodes goroutine on an answer with a nil
    pointer.  Both carry the cluster name, the network, the instance
    class, the preset that the catalog holds for the requested version,
    and the same key ID, which the key pair lookup or the key pair
    creation of this run returned. *)
Theorem two_provisioning_requests
        (S : Type) (h : handler S) (s : S) (sched : list tid)
        (opt : api.CreateClusterOption) :
  let r := run h (runCreate sched opt) s in
  requests (trace r) = [] \/
  exists keyid preset,
    key_source keyid (trace r) /\
    api.map_get api.PresetKubernetes (api.KubernetesVersion opt) = Some preset /\
    let M := {| Name := api.ClusterName opt; CIO_VxNet := api.VxNet opt;
                Count := 1; CIO_Role := api.RoleMaster; ImagesPreset := preset;
                CIO_InstanceClass := api.InstanceClass opt; SSHKeyID := keyid |} in
    let N := {| Name := api.ClusterName opt; CIO_VxNet := api.VxNet opt;
                Count := api.NodeCount opt; CIO_Role := api.RoleNode;
                ImagesPreset := preset;
                CIO_InstanceClass := api.InstanceClass opt; SSHKeyID := keyid |} in
    (requests (trace r) = [M; N] \/ requests (trace r) = [N; M] \/
     (requests (trace r) = [M] /\
      ((result_of r = Crashed (IndexOutOfRange 0 0) /\
        provisioned api.RoleMaster (trace r) = [([], None)]) \/
       (result_of r = Crashed NilPointerDereference /\
        exists rest,
          provisioned api.RoleMaster (trace r) = [(None :: rest, None)]))) \/
     (requests (trace r) = [N] /\ result_of r = Crashed NilPointerDereference /\
      exists l, provisioned api.RoleNode (trace r) = [(l, None)] /\ In None l)).
Proof.
  apply (always_sound _ _ (always_runCreate_requests sched opt) h s).
Qed.

Lemma two_provisioning_requests_witness :
  let r := run (cloud all_well) (runCreate [T_nodes] demo) empty_cloud in
  let r' := run (cloud nil_node) (runCreate [T_nodes; T_nodes; T_nodes; T_nodes;
                                             T_nodes; T_nodes] demo) empty_cloud in
  (map (fun req => (CIO_Role req, Count req, SSHKeyID req)) (requests (trace r))
   = [(api.RoleNode, 3%Z, "kp-new"); (api.RoleMaster, 1%Z, "kp-new")] /\
   exists keyid preset,
     key_source keyid (trace r) /\
     api.map_get api.PresetKubernetes "1.15.2" = Some preset)
  /\
  (map (fun req => (CIO_Role req, Count req, SSHKeyID req)) (requests (trace r'))
   = [(api.RoleNode, 3%Z, "kp-new")] /\
   result_of r' = Crashed NilPointerDereference).
Proof.
  intros r r'. split; [|vm_compute; split; reflexivity].
  split; [vm_compute; reflexivity|].
  destruct (two_provisioning_requests Cloud (cloud all_well) empty_cloud [T_nodes] demo)
    as [Hnone | (keyid & preset & Hk & Hp & _)].
  - fold r in Hnone. vm_compute in Hnone. discriminate Hnone.
  - exists keyid, preset. split; [exact Hk | exact Hp].
Defined.

(** X14.  The remote commands of a run of [runCreate] that returns nil, in
    order and in full: on the master, "swapoff -a;" followed by the
    kubeadm init command for the pod CIDR and the version; on the master,
    the kubectl apply of the manifests under /root/CNI/<CNI name>/ with
    the admin kubeconfig; on every node, in the order the instance
    service returned them, "swapoff -a; " followed by the join directive
    extracted from the output of the first command; and, when the export
    is asked for, the read of /etc/kubernetes/admin.conf on the master. *)
Theorem commands_of_a_successful_run
        (S : Type) (h : handler S) (s : S) (sched : list tid)
        (opt : api.CreateClusterOption) :
  let r := run h (runCreate sched opt) s in
  result_of r = Returned None ->
  exists m rest ns cmd out joinCmd,
    provisioned api.RoleMaster (trace r) = [(Some m :: rest, None)] /\
    provisioned api.RoleNode (trace r) = [(map Some ns, None)] /\
    hd_error (remote_runs (trace r)) = Some (IP m, cmd, (out, None)) /\
    GetKubeJoinFromOutput out = Value joinCmd /\
    commands (trace r)
    = (IP m, "swapoff -a;kubeadm init --pod-network-cidr="
             +++ api.PodNetWorkCIDR (api.Network opt)
             +++ " --kubernetes-version=v" +++ api.KubernetesVersion opt)
      :: (IP m, "kubectl --kubeconfig=/etc/kubernetes/admin.conf apply -f /root/CNI/"
                +++ api.CNIName (api.Network opt) +++ "/")
      :: map (fun n => (IP n, "swapoff -a; " +++ joinCmd)) ns
      ++ (if api.ScpKubeConfigToLocal opt
          then [(IP m, "cat /etc/kubernetes/admin.conf")] else []).
Proof.
  apply (always_sound _ _ (always_runCreate_commands sched opt) h s).
Qed.

Lemma commands_of_a_successful_run_witness :
  let r := run (cloud all_well) (runCreate racy_schedule demo) empty_cloud in
  result_of r = Returned None /\
  commands (trace r)
  = [("10.0.0.1", "swapoff -a;kubeadm init --pod-network-cidr=10.244.0.0/16 --kubernetes-version=v1.15.2");
     ("10.0.0.1", "kubectl --kubeconfig=/etc/kubernetes/admin.conf apply -f /root/CNI/flannel/");
     ("10.0.0.11", "swapoff -a; kubeadm join 10.0.0.1:6443 --token abc");
     ("10.0.0.12", "swapoff -a; kubeadm join 10.0.0.1:6443 --token abc");
     ("10.0.0.13", "swapoff -a; kubeadm join 10.0.0.1:6443 --token abc");
     ("10.0.0.1", "cat /etc/kubernetes/admin.conf")] /\
  exists m rest ns cmd out joinCmd,
    provisioned api.RoleMaster (trace r) = [(Some m :: rest, None)] /\
    provisioned api.RoleNode (trace r) = [(map Some ns, None)] /\
    hd_error (remote_runs (trace r)) = Some (IP m, cmd, (out, None)) /\
    GetKubeJoinFromOutput out = Value joinCmd.
Proof.
  intros r.
  assert (Hr : result_of r = Returned None) by (vm_compute; reflexivity).
  split; [exact Hr|]. split; [vm_compute; reflexivity|].
  destruct (commands_of_a_successful_run Cloud (cloud all_well) empty_cloud
              racy_schedule demo Hr)
    as (m & rest & ns & cmd & out & joinCmd & H1 & H2 & H3 & H4 & _).
  exists m, rest, ns, cmd, out, joinCmd. auto.
Defined.

(** X15.  A run of [runCreate] can panic in three ways only.  With an
    index out of range, in the master goroutine, when the master call
    returned no instance and no error.  With a nil pointer dereference,
    in a provisioning goroutine, when a call returned no error and a nil
    pointer where the goroutine reads an ID: first in the answer for the
    master, anywhere in the answer for the nodes.  In both, nothing is
    tagged, no remote command run and no file written by then.  With
    slice bounds out of range, in the extraction of the join directive:
    the instances are tagged, [kubeadm init] has run on the master
    without error and printed an output without "kubeadm join", and
    nothing else was run or written. *)
Theorem panics_of_a_run
        (S : Type) (h : handler S) (s : S) (sched : list tid)
        (opt : api.CreateClusterOption) (p : runtime_panic) :
  let r := run h (runCreate sched opt) s in
  result_of r = Crashed p ->
  (p = IndexOutOfRange 0 0 /\
   In ([], None) (provisioned api.RoleMaster (trace r)) /\
   taggings (trace r) = [] /\ remote_runs (trace r) = [] /\
   files_written (trace r) = [])
  \/
  (p = NilPointerDereference /\
   ((exists rest,
        provisioned api.RoleMaster (trace r) = [(None :: rest, None)]) \/
    (exists l, provisioned api.RoleNode (trace r) = [(l, None)] /\ In None l)) /\
   taggings (trace r) = [] /\ remote_runs (trace r) = [] /\
   files_written (trace r) = [])
  \/
  (p = SliceBoundsOutOfRange (-1) /\
   exists m rest tagID ms cmd out,
     provisioned api.RoleMaster (trace r) = [(Some m :: rest, None)] /\
     taggings (trace r) = [(tagID, ms, None)] /\
     remote_runs (trace r) = [(IP m, cmd, (out, None))] /\
     ~ occurs marker out /\ files_written (trace r) = []).
Proof.
  intros r Hr.
  apply (always_sound _ _ (always_runCreate_panics sched opt) h s p Hr).
Qed.

Lemma panics_of_a_run_witness :
  let r := run (cloud no_directive) (runCreate [] demo) empty_cloud in
  let r' := run (cloud nil_node) (runCreate [] demo) empty_cloud in
  (result_of r = Crashed (SliceBoundsOutOfRange (-1)) /\
   exists m rest tagID ms cmd out,
     provisioned api.RoleMaster (trace r) = [(Some m :: rest, None)] /\
     taggings (trace r) = [(tagID, ms, None)] /\
     remote_runs (trace r) = [(IP m, cmd, (out, None))] /\
     ~ occurs marker out /\ files_written (trace r) = [])
  /\
  (result_of r' = Crashed NilPointerDereference /\
   provisioned api.RoleNode (trace r') = [([Some node_A; None; Some node_C], None)] /\
   taggings (trace r') = [] /\ remote_runs (trace r') = [] /\
   files_written (trace r') = []).
Proof.
  intros r r'. split.
  - assert (Hr : result_of r = Crashed (SliceBoundsOutOfRange (-1)))
      by (vm_compute; reflexivity).
    split; [exact Hr|].
    destruct (panics_of_a_run Cloud (cloud no_directive) empty_cloud [] demo _ Hr)
      as [(Hp & _) | [(Hp & _) | (_ & H)]].
    + discriminate Hp.
    + discriminate Hp.
    + exact H.
  - assert (Hr : result_of r' = Crashed NilPointerDereference)
      by (vm_compute; reflexivity).
    split; [exact Hr|]. split; [vm_compute; reflexivity|].
    destruct (panics_of_a_run Cloud (cloud nil_node) empty_cloud [] demo _ Hr)
      as [(Hp & _) | [(_ & _ & H) | (Hp & _)]].
    + discriminate Hp.
    + exact H.
    + discriminate Hp.
Defined.

(** ** Extraction from an ASCII output, once more *)

Lemma at_ascii (s : string) (i : nat) :
  ascii_only s -> (at_ s (Z.of_nat i) < 0x80)%N.
Proof.
  intros H. destruct (Nat.lt_ge_cases i (String.length s)) as [Hi|Hi].
  - destruct (drop_cons i s Hi) as (c & r & Hd).
    rewrite (at_drop _ _ _ _ Hd).
    pose proof (all_drop _ i s H) as Ha. rewrite Hd in Ha. apply Ha.
  - unfold at_. destruct (Z.of_nat i <? 0)%Z; [reflexivity|].
    rewrite Nat2Z.id.
    assert (Hg : String.get i s = None).
    { clear H. revert s Hi. induction i; intros [|c s] Hi; simpl in *; auto; try lia.
      apply IHi. lia. }
    rewrite Hg. reflexivity.
Qed.

Lemma take_last (n : nat) (t : string) (c : ascii) (r : string) :
  drop n t = String c r -> take (S n) t = take n t +++ String c "".
Proof. apply take_S. Qed.

Lemma TrimSpace_stop_ascii (t : string) (stop : nat) :
  ascii_only t -> stop <= String.length t ->
  strings.TrimSpace_stop t stop = "" \/ ends_unspaced (strings.TrimSpace_stop t stop).
Proof.
  intros Ha. induction stop as [|k IH]; intros Hle.
  - left. cbn. destruct t; reflexivity.
  - cbn [strings.TrimSpace_stop].
    pose proof (at_ascii t k Ha) as Hc.
    destruct (N.leb_spec utf8.RuneSelf (at_ t (Z.of_nat k))) as [Hge|_];
      [unfold utf8.RuneSelf in Hge; lia|].
    destruct (strings.asciiSpace (at_ t (Z.of_nat k))) eqn:Hsp.
    + apply IH. lia.
    + right. destruct (drop_cons k t) as (c & r & Hd); [lia|].
      exists (take k t), c. rewrite (at_drop _ _ _ _ Hd) in Hsp, Hc.
      split; [apply take_S with r; exact Hd | auto].
Qed.

Lemma TrimSpace_ascii (s : string) :
  ascii_only s ->
  strings.TrimSpace s = "" \/ ends_unspaced (strings.TrimSpace s).
Proof.
  induction s as [|c t IH]; intros Ha.
  - left. reflexivity.
  - destruct Ha as [Hc Ht]. cbn [strings.TrimSpace].
    destruct (N.leb_spec utf8.RuneSelf (byte_val c)) as [Hge|_];
      [unfold utf8.RuneSelf in Hge; lia|].
    destruct (strings.asciiSpace (byte_val c)).
    + apply IH, Ht.
    + apply TrimSpace_stop_ascii; [split; assumption | lia].
Qed.

(** A text that starts with 'k' and ends unspaced is its own trimming. *)
Lemma TrimSpace_fixed (t : string) :
  ends_unspaced ("k" +++ t) -> strings.TrimSpace ("k" +++ t) = "k" +++ t.
Proof.
  intros (t' & c & Heq & Hsp & Hc).
  cbn [String.append strings.TrimSpace] in *.
  change (strings.TrimSpace_stop (String "k" t) (S (String.length t))
          = String "k" t).
  assert (Hlen : String.length (String "k" t) = S (String.length t')).
  { rewrite Heq, length_append. cbn. lia. }
  cbn [String.length] in Hlen. injection Hlen as Hlen. rewrite Hlen.
  cbn [strings.TrimSpace_stop].
  assert (Hd : drop (String.length t') (String "k" t) = String c "").
  { rewrite Heq. apply drop_append. }
  rewrite (at_drop _ _ _ _ Hd).
  destruct (N.leb_spec utf8.RuneSelf (byte_val c)) as [Hge|_];
    [unfold utf8.RuneSelf in Hge; lia|].
  rewrite Hsp. apply take_all. cbn [String.length]. lia.
Qed.

(** The directive extracted from an ASCII output ends unspaced. *)
Lemma directive_ends_unspaced (output joinCmd : string) :
  ascii_only output -> GetKubeJoinFromOutput output = Value joinCmd ->
  exists v, joinCmd = marker +++ v /\ ends_unspaced joinCmd /\
            forall i, occurs_at marker joinCmd i -> i = 0.
Proof.
  intros Ha H.
  pose proof (GetKubeJoinFromOutput_value _ _ H) as Hocc.
  destruct (GetKubeJoinFromOutput_present _ Hocc) as (k & Hk & Hat & Hlast).
  rewrite Hk in H. inversion H as [Hj]. clear H.
  pose proof Hat as Hat'. apply occurs_at_iff in Hat'. destruct Hat' as [Hle Hpre].
  apply prefix_iff in Hpre. destruct Hpre as [v Hv].
  exists v. split; [exact Hv|]. split.
  - destruct (TrimSpace_ascii output Ha) as [He | (t' & c & Heq & Hsp & Hc)].
    + rewrite He in Hv. destruct k; discriminate Hv.
    + exists (drop k t'), c. split; [|auto].
      assert (Hlen : String.length (drop k (strings.TrimSpace output)) >= 12).
      { rewrite Hv, length_append. change (String.length marker) with 12. lia. }
      rewrite length_drop, Heq, length_append in Hlen. cbn [String.length] in Hlen.
      rewrite Heq. apply utf8_facts.drop_append_le. lia.
  - intros i Hi.
    assert (Hi' : occurs_at marker (strings.TrimSpace output) (k + i)).
    { apply occurs_at_iff in Hi. destruct Hi as [Hil Hip].
      rewrite length_drop in Hil. rewrite drop_drop in Hip.
      apply occurs_at_iff. split; [lia | exact Hip]. }
    destruct i as [|i]; [reflexivity|]. destruct (Hlast (k + S i)); [lia | exact Hi'].
Qed.

(** X16.  Extraction is idempotent on ASCII outputs: a directive that
    [GetKubeJoinFromOutput] returns for an output of ASCII bytes only is
    returned unchanged when the extraction is applied to it. *)
Theorem join_directive_extraction_idempotent (output joinCmd : string) :
  ascii_only output ->
  GetKubeJoinFromOutput output = Value joinCmd ->
  GetKubeJoinFromOutput joinCmd = Value joinCmd.
Proof.
  intros Ha H.
  destruct (directive_ends_unspaced _ _ Ha H) as (v & Hv & Hend & Hone).
  unfold GetKubeJoinFromOutput.
  assert (Htrim : strings.TrimSpace joinCmd = joinCmd).
  { rewrite Hv in *. apply (TrimSpace_fixed ("ubeadm join" +++ v)). exact Hend. }
  rewrite Htrim.
  assert (Hocc : occurs marker joinCmd).
  { exists 0, "", v. split; [exact Hv | reflexivity]. }
  destruct (LastIndex_facts.LastIndex_present _ _ Hocc) as (k & Hk & Hat & _).
  fold marker. rewrite Hk, (Hone k Hat).
  unfold slice_from. cbn [Z.of_nat Z.leb andb].
  destruct (Z.leb_spec 0 (len joinCmd)) as [_|Hneg]; [reflexivity|].
  unfold len in Hneg. lia.
Qed.

Lemma join_directive_extraction_idempotent_witness :
  ascii_only init_output /\
  GetKubeJoinFromOutput init_output
  = Value "kubeadm join 10.0.0.1:6443 --token abc" /\
  GetKubeJoinFromOutput "kubeadm join 10.0.0.1:6443 --token abc"
  = Value "kubeadm join 10.0.0.1:6443 --token abc".
Proof.
  assert (Ha : ascii_only init_output).
  { unfold ascii_only. vm_compute. repeat split. }
  assert (H : GetKubeJoinFromOutput init_output
              = Value "kubeadm join 10.0.0.1:6443 --token abc")
    by (vm_compute; reflexivity).
  split; [exact Ha|]. split; [exact H|].
  apply (join_directive_extraction_idempotent _ _ Ha H).
Defined.

(** ** [bootstrapMaster] *)

Lemma always_bootstrapMaster (m : Instance) (opt : api.CreateClusterOption)
      (cmd : string) :
  generateKubeadmInitCmd (api.Network opt) (api.KubernetesVersion opt) = (cmd, None) ->
  always (bootstrapMaster (Some m) opt) (bootstrapped m cmd).
Proof.
  intros Hgen. unfold bootstrapMaster, bootstrapped. rewrite Hgen.
  steps_eqn.
  all: repeat match goal with u : result (klog _ _ _) |- _ => destruct u end.
  - eexists _, _, [_; _]. cbn [app]. split; [reflexivity|]. split; [reflexivity|].
    split; reflexivity.
  - eexists _, _, [_; _]. cbn [app]. split; [reflexivity|]. split; [reflexivity|].
    split; [reflexivity|]. rewrite Heqc. reflexivity.
  - eexists _, _, [_; _]. cbn [app]. split; [reflexivity|]. split; [reflexivity|].
    split; [reflexivity|]. rewrite Heqc. reflexivity.
Qed.

(** X17.  [bootstrapMaster] with a network option that yields no init
    command returns the error without a call, even for a nil master; with
    an init command and a nil master it panics on the nil pointer before
    any call.  Otherwise it runs "swapoff -a;" followed by the init
    command on the master, once, and logs the output at verbosity 1 as
    its last act on every path (the deferred log): when the command
    failed, and the error is returned with an empty directive; when the
    directive is extracted and returned; and when the extraction
    panics. *)
Theorem bootstrapMaster_logs_the_output
        (S : Type) (h : handler S) (s : S) (master : option Instance)
        (opt : api.CreateClusterOption) :
  let r := run h (bootstrapMaster master opt) s in
  let gen := generateKubeadmInitCmd (api.Network opt) (api.KubernetesVersion opt) in
  (forall e, snd gen = Some e ->
             result_of r = Returned ("", Some e) /\ trace r = []) /\
  (snd gen = None -> master = None ->
   result_of r = Crashed NilPointerDereference /\ trace r = []) /\
  (snd gen = None -> forall m, master = Some m ->
   exists out err pre,
     remote_runs (trace r) = [(IP m, "swapoff -a;" +++ fst gen, (out, err))] /\
     trace r = pre ++ [Event (klog (V 1) out []) tt] /\
     logged (V 1) (trace r) = [(out, [])] /\
     match err with
     | Some e => result_of r = Returned ("", Some e)
     | None =>
       match GetKubeJoinFromOutput out with
       | Value joinCmd => result_of r = Returned (joinCmd, None)
       | Panics p => result_of r = Crashed p
       end
     end).
Proof.
  intros r gen. subst r gen.
  destruct (generateKubeadmInitCmd (api.Network opt) (api.KubernetesVersion opt))
    as [cmd [e|]] eqn:Hgen; cbn [fst snd].
  - split; [|split; intros Hc; discriminate Hc].
    intros e' He'. inversion He'; subst e'.
    unfold bootstrapMaster. rewrite Hgen. split; reflexivity.
  - split; [intros e He; discriminate He|]. split.
    + intros _ ->. unfold bootstrapMaster. rewrite Hgen. split; reflexivity.
    + intros _ m ->.
      apply (always_sound _ _ (always_bootstrapMaster m opt cmd Hgen) h s).
Qed.

Lemma bootstrapMaster_logs_the_output_witness :
  let r := run (cloud no_directive) (bootstrapMaster (Some the_master) demo)
               empty_cloud in
  exists out err pre,
    remote_runs (trace r)
    = [("10.0.0.1",
        "swapoff -a;kubeadm init --pod-network-cidr=10.244.0.0/16 --kubernetes-version=v1.15.2",
        (out, err))] /\
    trace r = pre ++ [Event (klog (V 1) out []) tt] /\
    logged (V 1) (trace r) = [(out, [])].
Proof.
  intros r.
  destruct (proj2 (proj2 (bootstrapMaster_logs_the_output
                            Cloud (cloud no_directive) empty_cloud
                            (Some the_master) demo))
                  eq_refl the_master eq_refl)
    as (out & err & pre & H1 & H2 & H3 & _).
  exists out, err, pre. auto.
Defined.

(** A request without a cluster name, and one with. *)
Lemma RunCreate_validates_and_initialises_witness :
  let unnamed :=
      {| api.ClusterName := ""; api.KubernetesVersion := "1.15.2";
         api.NodeCount := 1; api.VxNet := "vxnet-0"; api.InstanceClass := 101;
         api.Zone := "pek3";
         api.Network := {| api.CNIName := "calico";
                           api.PodNetWorkCIDR := "10.244.0.0/16" |};
         api.UseExistKey := false; api.ScpKubeConfigToLocal := false;
         api.LocalKubeConfigPath := "" |} in
  let r0 := run (cloud all_well) (RunCreate "/root/.qingcloud/config.yaml" [] unnamed)
                empty_cloud in
  let r := run (cloud all_well) (RunCreate "/root/.qingcloud/config.yaml" [] demo)
               empty_cloud in
  (result_of r0 = Returned (Some InvalidInput) /\ none_of is_call (trace r0)) /\
  init_calls (trace r) = [("pek3", "/root/.qingcloud/config.yaml", None)] /\
  result_of r = result_of (run (cloud all_well) (runCreate [] demo) empty_cloud).
Proof.
  intros unnamed r0 r. split; [|split].
  - apply (proj1 (RunCreate_validates_and_initialises
                    Cloud (cloud all_well) empty_cloud
                    "/root/.qingcloud/config.yaml" [] unnamed)).
    reflexivity.
  - apply (proj1 (proj2 (RunCreate_validates_and_initialises
                           Cloud (cloud all_well) empty_cloud
                           "/root/.qingcloud/config.yaml" [] demo)
                        ltac:(discriminate))).
  - apply (proj1 (proj2 (proj2 (proj2 (RunCreate_validates_and_initialises
                           Cloud (cloud all_well) empty_cloud
                           "/root/.qingcloud/config.yaml" [] demo)
                        ltac:(discriminate))) eq_refl)).
Defined.
